(** * d3-angular: circular pack chart

    A shallow embedding of the layout and label-fitting code of
    [CircularPackChart] (chart renderer) and of the hover helper of the
    interactions module, together with the properties stated for them;
    and, around them, of the data processing, of the drawing, rendering and
    resizing of the chart, of the click listeners and of the component that
    holds the chart, with further properties of theirs.

    - JavaScript numbers are IEEE 754 binary64 values: [float] with the
      primitive operations, which round as JavaScript does; NaN, the
      infinities and the two zeros are numbers like the others.
    - JavaScript strings are [string]s, a character being a code unit.
    - JavaScript [Map]s and plain objects keyed by strings are [gmap string].
    - [this.nodes] is a store of circle nodes; a node reference is its index
      in the store, and [===] on nodes is equality of indices.
    - A [throw] is the [Throw] outcome of the [result] type; an operation
      that mutates the store returns the store it leaves together with the
      way it ends.
    - The 2D canvas context that measures text is a parameter of the label
      code, which throws when there is none.
    - The layout of d3 ([hierarchy], [sum], [sort], [pack]) is a parameter
      of the chart; a value of type [unknown] or [any] is a JSON value or
      [undefined].
    - An event listener is the function it runs; the timers of the window
      are explicit state.

    The definitions come first, each under the name it has in the source;
    the properties follow, one module of facts for each part of the code. *)

From Stdlib Require Import ZArith Floats Bool List Ascii String Lia.
From stdpp Require Import base option list gmap strings.

Local Open Scope string_scope.
Set Warnings "-inexact-float".

(** ** JavaScript numbers *)

Module Js.

Abbreviation number := float.

(** [ToBoolean] on a number: [0], [-0] and [NaN] are falsy. *)
Definition truthy (a : number) : bool := negb (is_zero a || is_nan a).

(** [a || b] on numbers. *)
Definition or (a b : number) : number := if truthy a then a else b.

(** [a > b] *)
Definition gtb (a b : number) : bool := (b <? a)%float.

(** [Math.max(a, b)]: NaN if either argument is NaN; [+0] is larger than
    [-0]. *)
Definition max (a b : number) : number :=
  if is_nan a || is_nan b then nan
  else if (b <? a)%float then a
  else if (a <? b)%float then b
  else if get_sign a then b else a.

(** [Math.min(a, b)]: NaN if either argument is NaN; [-0] is smaller than
    [+0]. *)
Definition min (a b : number) : number :=
  if is_nan a || is_nan b then nan
  else if (a <? b)%float then a
  else if (b <? a)%float then b
  else if get_sign a then a else b.

End Js.

(** ** Exceptions *)

Inductive exn : Type :=
| Error (message : string)
| TypeError (message : string).

(** A call either returns a value or throws. *)
Inductive result (A : Type) : Type :=
| Ok (a : A)
| Throw (e : exn).

Arguments Ok {A} a.
Arguments Throw {A} e.

#[global] Instance result_ret : MRet result := @Ok.
#[global] Instance result_bind : MBind result :=
  fun A B f m => match m with Ok a => f a | Throw e => Throw e end.
#[global] Instance result_fmap : FMap result :=
  fun A B f m => match m with Ok a => Ok (f a) | Throw e => Throw e end.

(** ** Data model (shared types and the d3 hierarchy) *)

Module NodeData.
(** [NodeData] of the shared types; the [children] of a datum are carried
    by the hierarchy node that wraps it. *)
Record t : Type := mk {
  name : string;
  population : option Js.number;
  wikipedia : option string;
  flag : option string;
  landAreaKM2 : option Js.number
}.
End NodeData.

Module Node.
(** [d3.HierarchyCircularNode<NodeData>], with the members the chart reads.
    [parent] and [children] refer to nodes of the same store by index; d3
    leaves [children] undefined on a leaf.  [x], [y] and [r] are numbers, as
    their type declares: the tests of [x] and [y] against [undefined] in
    [positionRegionCircles] always pass. *)
Record t : Type := mk {
  data : NodeData.t;
  depth : nat;
  parent : option nat;
  children : option (list nat);
  x : Js.number;
  y : Js.number;
  r : Js.number
}.
End Node.

(** ** Strings *)

(** [s.includes(pattern)] *)
Definition includes (s pattern : string) : bool :=
  match index 0 pattern s with Some _ => true | None => false end.

(** [s.charAt(0)] *)
Definition charAt0 (s : string) : string := substring 0 1 s.

(** [s.split(sep)] for a one-character separator: never empty, and an empty
    string between two adjacent separators. *)
Fixpoint split (sep : ascii) (s : string) : list string :=
  match s with
  | EmptyString => [EmptyString]
  | String c rest =>
      if Ascii.eqb c sep then EmptyString :: split sep rest
      else match split sep rest with
           | w :: ws => String c w :: ws
           | [] => [String c EmptyString]
           end
  end.

(** ** Text fitting *)

Module TextFitter.
Section WithCanvas.

(** [document.createElement('canvas').getContext('2d')]: the 2D context,
    when there is one, measures a text at a font size in sans-serif. *)
Variable getContext : option (Js.number -> string -> Js.number).

Definition getTextWidth (text : string) (fontSize : Js.number)
  : result Js.number :=
  match getContext with
  | None => Throw (Error "Context could not be created")
  | Some measureText => Ok (measureText fontSize text)
  end.

(** The loop [for (let i = word.length; i > 0; i--)] of [processWordForFit],
    entered with [truncated = word]; the value is [truncated] at the exit
    of the loop. *)
Fixpoint truncateLoop (word : string) (maxWidth fontSize : Js.number)
  (i : nat) : result string :=
  match i with
  | O => Ok word
  | S i' =>
      let test := substring 0 (S i') word ++ "..." in
      w ← getTextWidth test fontSize;
      if (w <=? maxWidth)%float then Ok test
      else truncateLoop word maxWidth fontSize i'
  end.

Definition processWordForFit (word : string)
  (maxWidth fontSize radius : Js.number) (forceEllipses : bool)
  : result string :=
  fitsAsIs ← (if forceEllipses then Ok false
              else w ← getTextWidth word fontSize;
                   Ok (w <=? maxWidth)%float);
  if fitsAsIs : bool then Ok word
  else
    truncated ← truncateLoop word maxWidth fontSize (String.length word);
    w ← getTextWidth truncated fontSize;
    if Js.gtb w maxWidth then
      if (radius <? 6)%float then Ok "" else Ok (charAt0 word ++ "..")
    else Ok truncated.

(** What [addTextLabels] puts in the text element of one leaf: the text of
    the element itself, or one [tspan] per line. *)
Inductive Label : Type :=
| Text (text : string)
| Tspans (lines : list string).

Definition lineCount (l : Label) : nat :=
  match l with Text _ => 1 | Tspans lines => length lines end.

(** The loop [for (let i = 0; i < words.length && lines.length < 2; i++)],
    on the words from index [i] on. *)
Fixpoint placeWords (words : list string)
  (maxWidth fontSize radius : Js.number) (lines : list string)
  : result (list string) :=
  match words with
  | [] => Ok lines
  | word :: rest =>
      if (length lines <? 2)%nat then
        processedWord ← processWordForFit word maxWidth fontSize radius false;
        if includes processedWord "..." || String.eqb processedWord "" then
          if String.eqb processedWord "" then Ok lines
          else Ok (lines ++ [processedWord])%list
        else
          placeWords rest maxWidth fontSize radius
            (lines ++ [processedWord])%list
      else Ok lines
  end.

(** The ellipsis added after the loop when words are left over. *)
Definition markLeftOver (words lines : list string)
  (maxWidth fontSize radius : Js.number) : result (list string) :=
  let lastLine := nth (length lines - 1) lines "" in
  if (length lines <? length words)%nat && (length lines =? 2)%nat
     && negb (includes lastLine "...") then
    let withEllipses := lastLine ++ "..." in
    w ← getTextWidth withEllipses fontSize;
    if (w <=? maxWidth)%float then
      Ok (<[length lines - 1 := withEllipses]> lines)
    else
      l ← processWordForFit lastLine maxWidth fontSize radius true;
      Ok (<[length lines - 1 := l]> lines)
  else Ok lines.

(** The callback of [selection.each] in [addTextLabels], for the node [d]. *)
Definition textLabel (d : Node.t) : result Label :=
  let fontSize := Js.max 8 (Node.r d / 4) in
  let maxWidth := (Node.r d * 1.6)%float in
  let words := split " " (NodeData.name (Node.data d)) in
  if (length words =? 1)%nat then
    Text <$> processWordForFit (nth 0 words "") maxWidth fontSize (Node.r d)
               false
  else
    lines ← placeWords words maxWidth fontSize (Node.r d) [];
    Tspans <$> markLeftOver words lines maxWidth fontSize (Node.r d).

Definition addTextLabels (selection : list Node.t) : result (list Label) :=
  mapM textLabel selection.

End WithCanvas.

(** A sample 2D context for the examples: every glyph is as wide as the font
    size, except the full stop, which is three tenths of it. *)
Fixpoint glyphs (text : string) : Js.number :=
  match text with
  | EmptyString => 0
  | String c rest => ((if Ascii.eqb c "." then 0.3 else 1) + glyphs rest)%float
  end.

Definition sampleMeasure (fontSize : Js.number) (text : string) : Js.number :=
  (glyphs text * fontSize)%float.

Definition sampleContext : option (Js.number -> string -> Js.number) :=
  Some sampleMeasure.

(** A leaf circle of radius [radius] named [name]. *)
Definition sampleLeaf (name : string) (radius : Js.number) : Node.t :=
  {| Node.data := NodeData.mk name None None None None;
     Node.depth := 2; Node.parent := Some 1; Node.children := None;
     Node.x := 0; Node.y := 0; Node.r := radius |}.

(** *** Vocabulary of the statements about the fitter *)

Section Fits.

Variable measureText : Js.number -> string -> Js.number.
Variables (word : string) (maxWidth fontSize radius : Js.number).

(** The rendered width of [text] is at most [maxWidth]. *)
Definition fits (text : string) : bool :=
  (measureText fontSize text <=? maxWidth)%float.

(** The first [i] characters of the word, followed by an ellipsis, fit. *)
Definition fitsWithEllipsis (i : nat) : bool :=
  fits (substring 0 i word ++ "...").

Definition isPrefixOf (p : string) : Prop :=
  exists i, i <= String.length word /\ p = substring 0 i word.

(** What the scan of [truncateLoop] over the lengths [n], ..., [1] leaves in
    [truncated]. *)
Inductive scanned (n : nat) : string -> Prop :=
| scan_found (i : nat) :
    1 <= i <= n -> fitsWithEllipsis i = true ->
    (forall j, i < j <= n -> fitsWithEllipsis j = false) ->
    scanned n (substring 0 i word ++ "...")
| scan_none :
    (forall j, 1 <= j <= n -> fitsWithEllipsis j = false) ->
    scanned n word.

(** The ways [processWordForFit] returns. *)
Inductive fitted (forceEllipses : bool) : string -> Prop :=
| fitted_as_is :
    forceEllipses = false -> fits word = true -> fitted forceEllipses word
| fitted_truncated (i : nat) :
    forceEllipses = true \/ fits word = false ->
    1 <= i <= String.length word -> fitsWithEllipsis i = true ->
    (forall j, i < j <= String.length word -> fitsWithEllipsis j = false) ->
    fitted forceEllipses (substring 0 i word ++ "...")
| fitted_empty :
    forceEllipses = true \/ fits word = false ->
    (forall j, 1 <= j <= String.length word -> fitsWithEllipsis j = false) ->
    Js.gtb (measureText fontSize word) maxWidth = true ->
    (radius <? 6)%float = true ->
    fitted forceEllipses ""
| fitted_degraded :
    forceEllipses = true \/ fits word = false ->
    (forall j, 1 <= j <= String.length word -> fitsWithEllipsis j = false) ->
    Js.gtb (measureText fontSize word) maxWidth = true ->
    (radius <? 6)%float = false ->
    fitted forceEllipses (charAt0 word ++ "..")
| fitted_unchanged :
    forceEllipses = true \/ fits word = false ->
    (forall j, 1 <= j <= String.length word -> fitsWithEllipsis j = false) ->
    Js.gtb (measureText fontSize word) maxWidth = false ->
    fitted forceEllipses word.

(** "Whenever some prefix p of the word satisfies width(p + "...") <=
    maxWidth, it returns exactly the longest such prefix followed by "..."",
    read with every prefix of the word, the empty one included. *)
Definition longestFittingPrefixReturned (forceEllipses : bool) : Prop :=
  forceEllipses = true \/ fits word = false ->
  forall p, isPrefixOf p -> fits (p ++ "...") = true ->
  exists q, isPrefixOf q /\ fits (q ++ "...") = true /\
    (forall q', isPrefixOf q' -> fits (q' ++ "...") = true ->
                String.length q' <= String.length q) /\
    processWordForFit (Some measureText) word maxWidth fontSize radius
      forceEllipses = Ok (q ++ "...").

(** "The returned string either has rendered width <= maxWidth, or radius <
    6 and the result is the empty string, or the result is exactly the
    word's first character followed by two dots." *)
Definition fitsOrFallsBack (forceEllipses : bool) : Prop :=
  exists s,
    processWordForFit (Some measureText) word maxWidth fontSize radius
      forceEllipses = Ok s /\
    (fits s = true \/ ((radius <? 6)%float = true /\ s = "") \/
     s = charAt0 word ++ "..").

(** "The string returned is one of exactly four shapes: the input word
    unchanged, a nonempty prefix of the word followed by "...", the word's
    first character followed by "..", or the empty string, and the empty
    string is returned only when radius < 6." *)
Definition fourShapes (forceEllipses : bool) : Prop :=
  exists s,
    processWordForFit (Some measureText) word maxWidth fontSize radius
      forceEllipses = Ok s /\
    (s = word \/
     (exists i, 1 <= i <= String.length word /\
                s = substring 0 i word ++ "...") \/
     s = charAt0 word ++ ".." \/ s = "") /\
    (s = "" -> (radius <? 6)%float = true).

End Fits.

(** Line [i] is the nonempty processed form of word [i] of [all]. *)
Definition placedFrom (measureText : Js.number -> string -> Js.number)
  (maxWidth fontSize radius : Js.number) (all lines : list string) : Prop :=
  forall i l, lines !! i = Some l ->
    l <> "" /\
    exists w, all !! i = Some w /\
      processWordForFit (Some measureText) w maxWidth fontSize radius false
        = Ok l.

(** A line that contains an ellipsis is the last one. *)
Definition ellipsisLast (lines : list string) : Prop :=
  forall i l, lines !! i = Some l -> includes l "..." = true ->
    S i = length lines.

(** "When words remain unplaced after 2 lines the last line either gets
    "..." appended (if it still fits within maxWidth) or is re-truncated
    with forced ellipsis", read for every last line. *)
Definition leftOverMarked (measureText : Js.number -> string -> Js.number)
  (d : Node.t) : Prop :=
  let fontSize := Js.max 8 (Node.r d / 4) in
  let maxWidth := (Node.r d * 1.6)%float in
  let words := split " " (NodeData.name (Node.data d)) in
  forall first lastLine,
    placeWords (Some measureText) words maxWidth fontSize (Node.r d) []
      = Ok [first; lastLine] ->
    2 < length words ->
    exists l,
      textLabel (Some measureText) d = Ok (Tspans [first; l]) /\
      ((l = lastLine ++ "..." /\ fits measureText maxWidth fontSize l = true) \/
       processWordForFit (Some measureText) lastLine maxWidth fontSize
         (Node.r d) true = Ok l).

End TextFitter.

(** ** Quadrant layout of the region circles *)

Module Layout.

Inductive QuadrantName : Type := top | bottom | left | right.

(** An object [{ x, y }]. *)
Module Point.
Record t : Type := mk { x : Js.number; y : Js.number }.
End Point.

(** An object [{ fx, fy }]. *)
Module Force.
Record t : Type := mk { fx : Js.number; fy : Js.number }.
End Force.

Module Bounds.
Record t : Type := mk {
  centerX : Js.number;
  centerY : Js.number;
  maxX : Js.number;
  maxY : Js.number;
  minX : Js.number;
  minY : Js.number
}.
End Bounds.

(** An element of [regions] in [calculateOptimalPositions]. *)
Module Region.
Record t : Type := mk {
  name : string;
  radius : Js.number;
  quadrant : option QuadrantName;
  node : Node.t
}.
End Region.

(** The object literal [quadrants] of [positionRegionCircles].  A name that
    is not one of its four keys gives no quadrant name: whatever the lookup
    finds for it (undefined, or a member of [Object.prototype]) is not a key
    of [quadrantBounds]. *)
Definition quadrants : gmap string QuadrantName :=
  <["Northern Europe" := top]>
    (<["Western Europe" := left]>
       (<["Eastern Europe" := right]>
          (<["Southern Europe" := bottom]> ∅))).

Section Optimiser.

Variables packWidth packHeight : Js.number.

Definition centreX : Js.number := (packWidth / 2)%float.
Definition centreY : Js.number := (packHeight / 2)%float.

(** Safety margin from the edge of the parent container. *)
Definition margin : Js.number := 20%float.

Definition quadrantBounds (q : QuadrantName) : Bounds.t :=
  match q with
  | top =>
      {| Bounds.centerX := centreX;
         Bounds.centerY := (centreY * 0.5)%float;
         Bounds.maxX := (packWidth - margin)%float;
         Bounds.maxY := (centreY - margin)%float;
         Bounds.minX := margin;
         Bounds.minY := margin |}
  | bottom =>
      {| Bounds.centerX := centreX;
         Bounds.centerY := (centreY * 1.5)%float;
         Bounds.maxX := (packWidth - margin)%float;
         Bounds.maxY := (packHeight - margin)%float;
         Bounds.minX := margin;
         Bounds.minY := (centreY + margin)%float |}
  | left =>
      {| Bounds.centerX := (centreX * 0.5)%float;
         Bounds.centerY := centreY;
         Bounds.maxX := (centreX - margin)%float;
         Bounds.maxY := (packHeight - margin)%float;
         Bounds.minX := margin;
         Bounds.minY := margin |}
  | right =>
      {| Bounds.centerX := (centreX * 1.5)%float;
         Bounds.centerY := centreY;
         Bounds.maxX := (packWidth - margin)%float;
         Bounds.maxY := (packHeight - margin)%float;
         Bounds.minX := (centreX + margin)%float;
         Bounds.minY := margin |}
  end.

(** [const bounds = quadrantBounds[region.quadrant]] followed by a read of a
    property of [bounds]: a region without a quadrant has no bounds, and the
    read throws. *)
Definition boundsOf (region : Region.t) : result Bounds.t :=
  match Region.quadrant region with
  | Some q => Ok (quadrantBounds q)
  | None => Throw (TypeError "Cannot read properties of undefined")
  end.

(** [m.get(key)!] followed by a read of a property of the value. *)
Definition getOrThrow {V : Type} (m : gmap string V) (key : string)
  : result V :=
  match m !! key with
  | Some v => Ok v
  | None => Throw (TypeError "Cannot read properties of undefined")
  end.

Definition makeRegion (quadrantOf : gmap string QuadrantName) (node : Node.t)
  : Region.t :=
  {| Region.name := NodeData.name (Node.data node);
     Region.radius := Js.or (Node.r node) 0;
     Region.quadrant := quadrantOf !! NodeData.name (Node.data node);
     Region.node := node |}.

(** Initial default position for each circle (centre of quadrant). *)
Fixpoint seedPositions (regions : list Region.t)
  (positions : gmap string Point.t) : result (gmap string Point.t) :=
  match regions with
  | [] => Ok positions
  | region :: rest =>
      bounds ← boundsOf region;
      seedPositions rest
        (<[Region.name region :=
             Point.mk (Bounds.centerX bounds) (Bounds.centerY bounds)]>
           positions)
  end.

Definition maxIterations : nat := 50.
Definition forceStrength : Js.number := 2%float.

Definition initForces (regions : list Region.t) : gmap string Force.t :=
  foldl (fun forces region => <[Region.name region := Force.mk 0 0]> forces)
    ∅ regions.

(** The body of the two nested loops over pairs, for [regions[i]] and
    [regions[j]].  [force1] and [force2] are the objects held by [forces];
    each compound assignment reads the field it updates from the map, so
    that two regions of the same name update one shared object. *)
Definition pairForce (positions : gmap string Point.t)
  (forces : gmap string Force.t) (region1 region2 : Region.t)
  : result (gmap string Force.t) :=
  pos1 ← getOrThrow positions (Region.name region1);
  pos2 ← getOrThrow positions (Region.name region2);
  let dx := (Point.x pos1 - Point.x pos2)%float in
  let dy := (Point.y pos1 - Point.y pos2)%float in
  let distance := PrimFloat.sqrt (dx * dx + dy * dy)%float in
  if Js.gtb distance 0 then
    let bufferDist := 30%float in
    let requiredDistance :=
      (Region.radius region1 + Region.radius region2 + bufferDist)%float in
    let force := (Js.max 0 (requiredDistance - distance) / distance)%float in
    let fx := (dx * force * forceStrength / 2)%float in
    let fy := (dy * force * forceStrength / 2)%float in
    force1 ← getOrThrow forces (Region.name region1);
    _ ← getOrThrow forces (Region.name region2);
    let forces :=
      <[Region.name region1 :=
          Force.mk (Force.fx force1 + fx) (Force.fy force1 + fy)]> forces in
    force2 ← getOrThrow forces (Region.name region2);
    Ok (<[Region.name region2 :=
            Force.mk (Force.fx force2 - fx) (Force.fy force2 - fy)]> forces)
  else Ok forces.

(** [for (let j = i + 1; j < regions.length; j++)] for one [region1]. *)
Fixpoint forcesAgainst (positions : gmap string Point.t) (region1 : Region.t)
  (others : list Region.t) (forces : gmap string Force.t)
  : result (gmap string Force.t) :=
  match others with
  | [] => Ok forces
  | region2 :: rest =>
      forces ← pairForce positions forces region1 region2;
      forcesAgainst positions region1 rest forces
  end.

(** [for (let i = 0; i < regions.length; i++)] *)
Fixpoint pairwiseForces (positions : gmap string Point.t)
  (regions : list Region.t) (forces : gmap string Force.t)
  : result (gmap string Force.t) :=
  match regions with
  | [] => Ok forces
  | region1 :: rest =>
      forces ← forcesAgainst positions region1 rest forces;
      pairwiseForces positions rest forces
  end.

(** Ensures circle does not touch parent container edge. *)
Definition paddingDist : Js.number := 5%float.

Definition clamp (lo hi v : Js.number) : Js.number := Js.max lo (Js.min hi v).

(** Apply the force of one region whilst constraining the circle to its
    quadrant; the second component is [totalMovement]. *)
Definition moveRegion (forces : gmap string Force.t) (region : Region.t)
  (state : gmap string Point.t * Js.number)
  : result (gmap string Point.t * Js.number) :=
  let '(positions, totalMovement) := state in
  currentPos ← getOrThrow positions (Region.name region);
  force ← getOrThrow forces (Region.name region);
  bounds ← boundsOf region;
  let newX := (Point.x currentPos + Force.fx force)%float in
  let newY := (Point.y currentPos + Force.fy force)%float in
  let effectiveRadius := (Region.radius region + paddingDist)%float in
  let newX :=
    clamp (Bounds.minX bounds + effectiveRadius)
      (Bounds.maxX bounds - effectiveRadius) newX in
  let newY :=
    clamp (Bounds.minY bounds + effectiveRadius)
      (Bounds.maxY bounds - effectiveRadius) newY in
  let movement :=
    (abs (newX - Point.x currentPos) + abs (newY - Point.y currentPos))%float in
  Ok (<[Region.name region := Point.mk newX newY]> positions,
      (totalMovement + movement)%float).

Fixpoint applyForces (forces : gmap string Force.t) (regions : list Region.t)
  (state : gmap string Point.t * Js.number)
  : result (gmap string Point.t * Js.number) :=
  match regions with
  | [] => Ok state
  | region :: rest =>
      state ← moveRegion forces region state;
      applyForces forces rest state
  end.

(** The body of one iteration of the optimisation loop: the new positions
    and the total movement of the iteration. *)
Definition relaxOnce (regions : list Region.t) (positions : gmap string Point.t)
  : result (gmap string Point.t * Js.number) :=
  forces ← pairwiseForces positions regions (initForces regions);
  applyForces forces regions (positions, 0%float).

(** How the optimisation loop was left: after how many iterations, and
    whether by the [break] on convergence. *)
Record LoopExit : Type := mkExit { iterations : nat; converged : bool }.

(** [for (let iteration = 0; iteration < maxIterations; iteration++)], with
    [remaining] iterations to go. *)
Fixpoint relax (regions : list Region.t) (remaining : nat)
  (positions : gmap string Point.t)
  : result (gmap string Point.t * LoopExit) :=
  match remaining with
  | O => Ok (positions, mkExit 0 false)
  | S remaining =>
      '(positions, totalMovement) ← relaxOnce regions positions;
      if (totalMovement <? 1)%float then Ok (positions, mkExit 1 true)
      else
        '(positions, exit) ← relax regions remaining positions;
        Ok (positions, mkExit (S (iterations exit)) (converged exit))
  end.

(** [calculateOptimalPositions], returning with the positions how its loop
    was left. *)
Definition optimise (regionNodes : list Node.t)
  (quadrantOf : gmap string QuadrantName)
  : result (gmap string Point.t * LoopExit) :=
  let regions := makeRegion quadrantOf <$> regionNodes in
  positions ← seedPositions regions ∅;
  relax regions maxIterations positions.

Definition calculateOptimalPositions (regionNodes : list Node.t)
  (quadrantOf : gmap string QuadrantName) : result (gmap string Point.t) :=
  fst <$> optimise regionNodes quadrantOf.

End Optimiser.

(** *** Moving the circles *)

(** [this.nodes]: the circle nodes of the chart, referred to by index. *)
Abbreviation store := (list Node.t).

(** How a call that mutates the store ends: it returns, it throws, or the
    walk up a parent chain was cut off (a chain longer than the store has a
    cycle, on which the loop of [isDescendantOf] does not end). *)
Inductive completion : Type :=
| Normal
| Abrupt (e : exn)
| Unfinished.

(** The indices of the nodes that satisfy [keep], in the order of the store:
    [this.nodes.filter(keep)]. *)
Definition indicesWhere (keep : Node.t -> bool) (nodes : store) : list nat :=
  List.filter
    (fun i => match nodes !! i with Some d => keep d | None => false end)
    (seq 0 (length nodes)).

(** The loop of [isDescendantOf], entered with [current]; [None] when the
    walk is cut off. *)
Fixpoint climb (nodes : store) (fuel : nat) (current : option nat)
  (ancestor : nat) : option bool :=
  match current with
  | None => Some false
  | Some c =>
      if (c =? ancestor)%nat then Some true
      else match fuel with
           | O => None
           | S fuel => climb nodes fuel (nodes !! c ≫= Node.parent) ancestor
           end
  end.

Definition isDescendantOf (nodes : store) (node ancestor : nat) : option bool :=
  climb nodes (length nodes) (nodes !! node ≫= Node.parent) ancestor.

(** The filter [(d) => d.depth > 1 && this.isDescendantOf(d, regionNode)] of
    [this.nodes], over the indices [candidates]. *)
Fixpoint childNodesAmong (nodes : store) (regionNode : nat)
  (candidates : list nat) : option (list nat) :=
  match candidates with
  | [] => Some []
  | j :: rest =>
      keep ← match nodes !! j with
             | Some d =>
                 if (1 <? Node.depth d)%nat
                 then isDescendantOf nodes j regionNode
                 else Some false
             | None => Some false
             end;
      kept ← childNodesAmong nodes regionNode rest;
      Some (if keep : bool then j :: kept else kept)
  end.

Definition childNodes (nodes : store) (regionNode : nat) : option (list nat) :=
  childNodesAmong nodes regionNode (seq 0 (length nodes)).

Definition setXY (d : Node.t) (x y : Js.number) : Node.t :=
  {| Node.data := Node.data d; Node.depth := Node.depth d;
     Node.parent := Node.parent d; Node.children := Node.children d;
     Node.x := x; Node.y := y; Node.r := Node.r d |}.

(** The body of [childNodes.forEach]: the child keeps its offset from the
    recorded original position of its region. *)
Definition moveChild (original newPos : Point.t) (nodes : store) (j : nat)
  : store :=
  match nodes !! j with
  | Some childNode =>
      let offsetX := (Node.x childNode - Point.x original)%float in
      let offsetY := (Node.y childNode - Point.y original)%float in
      <[j := setXY childNode (Point.x newPos + offsetX)
                             (Point.y newPos + offsetY)]> nodes
  | None => nodes
  end.

(** The body of the second [regionNodes.forEach] of [positionRegionCircles],
    for the region circle at index [i].  [original] is read in the loop over
    the children only. *)
Definition placeRegion (positions : gmap string Point.t)
  (originalPositions : gmap nat Point.t) (nodes : store) (i : nat)
  : store * completion :=
  match nodes !! i with
  | None => (nodes, Normal)
  | Some regionNode =>
      let name := NodeData.name (Node.data regionNode) in
      if negb (String.eqb name "") && bool_decide (is_Some (positions !! name))
      then
        match positions !! name with
        | None =>
            (nodes, Abrupt (Error "Node position could not be calculated"))
        | Some newPos =>
            let nodes :=
              <[i := setXY regionNode (Point.x newPos) (Point.y newPos)]>
                nodes in
            match childNodes nodes i with
            | None => (nodes, Unfinished)
            | Some [] => (nodes, Normal)
            | Some children =>
                match originalPositions !! i with
                | None =>
                    (nodes,
                     Abrupt (TypeError "Cannot read properties of undefined"))
                | Some original =>
                    (foldl (moveChild original newPos) nodes children, Normal)
                end
            end
        end
      else (nodes, Normal)
  end.

(** [regionNodes.forEach(...)]: the regions in turn, until one does not
    complete. *)
Fixpoint placeRegions (positions : gmap string Point.t)
  (originalPositions : gmap nat Point.t) (regionNodes : list nat)
  (nodes : store) : store * completion :=
  match regionNodes with
  | [] => (nodes, Normal)
  | i :: rest =>
      match placeRegion positions originalPositions nodes i with
      | (nodes, Normal) => placeRegions positions originalPositions rest nodes
      | stopped => stopped
      end
  end.

(** Store original positions for child offset calculations. *)
Definition recordOriginals (centreX centreY : Js.number) (nodes : store)
  (regionNodes : list nat) : gmap nat Point.t :=
  foldl (fun originalPositions i =>
           match nodes !! i with
           | Some regionNode =>
               <[i := Point.mk (Js.or (Node.x regionNode) centreX)
                               (Js.or (Node.y regionNode) centreY)]>
                 originalPositions
           | None => originalPositions
           end) ∅ regionNodes.

(** [positionRegionCircles]: the store it leaves and how it ends. *)
Definition positionRegionCircles (packWidth packHeight : Js.number)
  (nodes : store) : store * completion :=
  if (length nodes =? 0)%nat then (nodes, Normal)
  else
    let regionNodes := indicesWhere (fun d => (Node.depth d =? 1)%nat) nodes in
    if (length regionNodes =? 0)%nat then (nodes, Normal)
    else
      let originalPositions :=
        recordOriginals (centreX packWidth) (centreY packHeight) nodes
          regionNodes in
      match calculateOptimalPositions packWidth packHeight
              (omap (fun i => nodes !! i) regionNodes) quadrants with
      | Throw e => (nodes, Abrupt e)
      | Ok positions =>
          placeRegions positions originalPositions regionNodes nodes
      end.

(** *** Vocabulary of the statements about the layout *)

(** [v] lies in the span from [lo] to [hi]. *)
Definition withinSpan (lo hi v : Js.number) : Prop :=
  (lo <=? v)%float = true /\ (v <=? hi)%float = true.

(** [v] obeys the clamp to the span from [lo] to [hi] as far as a clamp
    goes: unless it is NaN it is at least [lo], and at most [hi] when the
    span is not empty. *)
Definition clampedTo (lo hi v : Js.number) : Prop :=
  is_nan v = false ->
  (lo <=? v)%float = true /\
  ((lo <=? hi)%float = true -> (v <=? hi)%float = true).

(** The centre [p] of [region] stands in the relation [within] to the bound
    rectangle of the quadrant [q], inset by the radius plus the padding. *)
Definition insetOf (packWidth packHeight : Js.number)
  (within : Js.number -> Js.number -> Js.number -> Prop)
  (region : Region.t) (q : QuadrantName) (p : Point.t) : Prop :=
  let bounds := quadrantBounds packWidth packHeight q in
  let effectiveRadius := (Region.radius region + paddingDist)%float in
  within (Bounds.minX bounds + effectiveRadius)%float
         (Bounds.maxX bounds - effectiveRadius)%float (Point.x p) /\
  within (Bounds.minY bounds + effectiveRadius)%float
         (Bounds.maxY bounds - effectiveRadius)%float (Point.y p).

(** Every region circle with a quadrant has a position, which stands in the
    relation [within] to the inset rectangle of its quadrant. *)
Definition positionsInset (packWidth packHeight : Js.number)
  (within : Js.number -> Js.number -> Js.number -> Prop)
  (quadrantOf : gmap string QuadrantName) (regionNodes : list Node.t)
  (positions : gmap string Point.t) : Prop :=
  forall node q,
    node ∈ regionNodes ->
    quadrantOf !! NodeData.name (Node.data node) = Some q ->
    exists p,
      positions !! NodeData.name (Node.data node) = Some p /\
      insetOf packWidth packHeight within (makeRegion quadrantOf node) q p.

(** "The position returned by calculateOptimalPositions lies within its
    quadrant's bound rectangle inset by (radius + padding)." *)
Definition returnedWithinInset (packWidth packHeight : Js.number)
  (regionNodes : list Node.t) : Prop :=
  forall positions,
    calculateOptimalPositions packWidth packHeight regionNodes quadrants
      = Ok positions ->
    positionsInset packWidth packHeight withinSpan quadrants regionNodes
      positions.

(** The distance between the centres of two regions is at least the sum of
    their radii plus the buffer distance. *)
Definition separated (positions : gmap string Point.t)
  (region1 region2 : Region.t) : Prop :=
  exists pos1 pos2,
    positions !! Region.name region1 = Some pos1 /\
    positions !! Region.name region2 = Some pos2 /\
    let dx := (Point.x pos1 - Point.x pos2)%float in
    let dy := (Point.y pos1 - Point.y pos2)%float in
    (Region.radius region1 + Region.radius region2 + 30
       <=? PrimFloat.sqrt (dx * dx + dy * dy))%float = true.

(** "For every unordered pair of region circles, the distance between
    their returned centers is at least the sum of their radii plus the
    buffer distance, or the iteration cap of 50 was reached." *)
Definition separatedOrCapped (packWidth packHeight : Js.number)
  (regionNodes : list Node.t) : Prop :=
  forall positions exit,
    optimise packWidth packHeight regionNodes quadrants
      = Ok (positions, exit) ->
    iterations exit = maxIterations \/
    forall i j region1 region2,
      i < j ->
      (makeRegion quadrants <$> regionNodes) !! i = Some region1 ->
      (makeRegion quadrants <$> regionNodes) !! j = Some region2 ->
      separated positions region1 region2.

(** The map [m] has an entry for the name of every region. *)
Definition covers {V : Type} (m : gmap string V) (regions : list Region.t)
  : Prop :=
  forall region, region ∈ regions -> is_Some (m !! Region.name region).

(** [d'] is [d] up to its centre. *)
Definition sameButCentre (d d' : Node.t) : Prop :=
  Node.data d' = Node.data d /\ Node.depth d' = Node.depth d /\
  Node.parent d' = Node.parent d /\ Node.children d' = Node.children d /\
  Node.r d' = Node.r d.

(** The node at index [i] is a region circle. *)
Definition isRegion (nodes : store) (i : nat) : Prop :=
  exists d, nodes !! i = Some d /\ Node.depth d = 1.

(** The node at index [j] is a descendant circle of the region circle at
    index [i]. *)
Definition belowRegion (nodes : store) (j i : nat) : Prop :=
  isRegion nodes i /\
  exists d, nodes !! j = Some d /\ 1 < Node.depth d /\
    isDescendantOf nodes j i = Some true.

(** The node at index [j] is a region circle or a descendant of one. *)
Definition attached (nodes : store) (j : nat) : Prop :=
  isRegion nodes j \/ exists i, belowRegion nodes j i.

(** [nodes'] has the nodes of [nodes], each up to its centre, and the very
    same node wherever [mayMove] does not hold. *)
Definition keeps (mayMove : nat -> Prop) (nodes nodes' : store) : Prop :=
  length nodes' = length nodes /\
  forall j d, nodes !! j = Some d ->
    exists d', nodes' !! j = Some d' /\ sameButCentre d d' /\
      (~ mayMove j -> d' = d).

(** Parents come before their children in the store, as in the array that
    [descendants()] returns. *)
Definition parentsFirst (nodes : store) : Prop :=
  forall j d p, nodes !! j = Some d -> Node.parent d = Some p -> p < j.

(** The depth of a node is one more than the depth of its parent. *)
Definition depthsFollow (nodes : store) : Prop :=
  forall j d p dp,
    nodes !! j = Some d -> Node.parent d = Some p -> nodes !! p = Some dp ->
    Node.depth d = S (Node.depth dp).

(** The node at index [m] is the region circle at index [k] or one of its
    descendant circles. *)
Definition movedWith (nodes : store) (k m : nat) : Prop :=
  m = k \/ belowRegion nodes m k.

(** The node [childNode] moved with its region: the new centre of the region
    plus the offset of the child from [original]. *)
Definition rigidlyMoved (original newPos : Point.t) (childNode : Node.t)
  : Node.t :=
  setXY childNode
    (Point.x newPos + (Node.x childNode - Point.x original))%float
    (Point.y newPos + (Node.y childNode - Point.y original))%float.

(** A coordinate of a region circle and of one of its descendant circles,
    as the pack layout leaves them in a rectangle of a positive size: the
    coordinate of the region circle is not zero and, where it is NaN, as it
    is when no node has a value, the coordinate of the descendant is NaN as
    well. *)
Definition packedCoordinate (region child : Js.number) : Prop :=
  is_zero region = false /\ (is_nan region = true -> is_nan child = true).

(** *** Sample hierarchies *)

Definition sampleNode (name : string) (depth : nat) (parent : option nat)
  (children : option (list nat)) (x y r : Js.number) : Node.t :=
  {| Node.data := NodeData.mk name None None None None;
     Node.depth := depth; Node.parent := parent; Node.children := children;
     Node.x := x; Node.y := y; Node.r := r |}.

Definition sampleRoot (children : list nat) : Node.t :=
  sampleNode "Europe" 0 None (Some children) 480 320 320.

(** One region circle of radius 200, for a pack of 800 by 600. *)
Definition wideNorth : Node.t :=
  sampleNode "Northern Europe" 1 (Some 0) None 300 200 200.

(** Two region circles of radius 200, for a pack of 800 by 600. *)
Definition wideNorthAndSouth : list Node.t :=
  [ sampleNode "Northern Europe" 1 (Some 0) None 300 200 200;
    sampleNode "Southern Europe" 1 (Some 0) None 500 200 200 ].

(** Scenario D: four region circles of radius 80, for a pack of 800 by 600. *)
Definition fourRegions : store :=
  [ sampleRoot [1; 2; 3; 4];
    sampleNode "Northern Europe" 1 (Some 0) None 300 200 80;
    sampleNode "Southern Europe" 1 (Some 0) None 500 200 80;
    sampleNode "Eastern Europe" 1 (Some 0) None 300 400 80;
    sampleNode "Western Europe" 1 (Some 0) None 500 400 80 ].

(** A region circle packed away from the axes, with one leaf circle. *)
Definition packedNorth : store :=
  [ sampleRoot [1];
    sampleNode "Northern Europe" 1 (Some 0) (Some [2]) 300 200 80;
    sampleNode "Norway" 2 (Some 1) None 310 220 5 ].

(** Three region circles and their root: no circle for "Western Europe". *)
Definition threeRegions : store :=
  [ sampleRoot [1; 2; 3];
    sampleNode "Northern Europe" 1 (Some 0) None 300 200 80;
    sampleNode "Southern Europe" 1 (Some 0) None 500 200 80;
    sampleNode "Eastern Europe" 1 (Some 0) None 300 400 80 ].

End Layout.

(** ** Stroke widths *)

Module Stroke.

(** The [stroke-width] callback of [drawNodes] and of [resize], for the
    [size] each of them computes. *)
Definition strokeWidth (size : Js.number) (d : Node.t) : Js.number :=
  let baseWidth := Js.max 0.5 (size * 0.001) in
  match Node.children d with
  | Some _ => (baseWidth * 2)%float
  | None => baseWidth
  end.

(** [drawNodes(width, height)] *)
Definition drawNodes (width height : Js.number) (d : Node.t) : Js.number :=
  let size := Js.min width height in
  strokeWidth size d.

(** [render(data, { width, height, valueKey })] draws the nodes in the pack
    rectangle. *)
Definition render (width height : Js.number) (d : Node.t) : Js.number :=
  let rectWidth := (Js.min width height * 1.2)%float in
  let rectHeight := (Js.min width height * 0.8)%float in
  drawNodes rectWidth rectHeight d.

(** [resize(width, height)] *)
Definition resize (width height : Js.number) (d : Node.t) : Js.number :=
  let size := Js.min width height in
  strokeWidth size d.

(** The [stroke-width] set by [addNodeHoverEffects] on a leaf under the
    pointer, and the one it restores. *)
Definition hoverWidth (size : Js.number) : Js.number :=
  (Js.max 0.5 (size * 0.001) * 3)%float.
Definition restoredWidth (size : Js.number) : Js.number :=
  Js.max 0.5 (size * 0.001).

End Stroke.


(** ** Values of type [unknown] and [any] *)

Set Warnings "-register-all".

Module Value.

(** A value as [d3.json] parses it, or [undefined]. *)
Inductive t : Type :=
| Undefined
| Null
| Boolean (b : bool)
| Num (n : Js.number)
| Str (s : string)
| Arr (items : list t)
| Obj (members : list (string * t)).

(** [ToBoolean] *)
Definition truthy (v : t) : bool :=
  match v with
  | Undefined | Null => false
  | Boolean b => b
  | Num n => Js.truthy n
  | Str s => negb (String.eqb s "")
  | Arr _ | Obj _ => true
  end.

(** [a || b] *)
Definition or (a b : t) : t := if truthy a then a else b.

(** [a ?? b] *)
Definition coalesce (a b : t) : t :=
  match a with
  | Undefined | Null => b
  | _ => a
  end.

Fixpoint lookup (members : list (string * t)) (key : string) : t :=
  match members with
  | [] => Undefined
  | (k, v) :: rest => if String.eqb k key then v else lookup rest key
  end.

(** [o[key]] for a value [o] that is neither [undefined] nor [null], and a
    [key] that is no member of a prototype: the member of that name of an
    object, whose members have distinct names, and [undefined] on any other
    value. *)
Definition get (o : t) (key : string) : t :=
  match o with
  | Obj members => lookup members key
  | _ => Undefined
  end.

(** [`${v}`] for the values whose string does not depend on the platform;
    [other] converts the numbers, the arrays and the objects. *)
Definition toString (other : t -> string) (v : t) : string :=
  match v with
  | Undefined => "undefined"
  | Null => "null"
  | Boolean true => "true"
  | Boolean false => "false"
  | Str s => s
  | _ => other v
  end.

End Value.

Module ValueKey.

(** ['population' | 'landAreaKM2'] *)
Inductive t : Type := population | landAreaKM2.

Definition eqb (a b : t) : bool :=
  match a, b with
  | population, population | landAreaKM2, landAreaKM2 => true
  | _, _ => false
  end.

(** The key as the name of a member of [NodeData]. *)
Definition name (k : t) : string :=
  match k with
  | population => "population"
  | landAreaKM2 => "landAreaKM2"
  end.

End ValueKey.

(** ** Data processing *)

Module ProcessData.

(** [CountryRawData]: the members of the record in the order in which
    [Object.entries] lists them, each region with its array of raw
    countries; a raw country is a [Record<string, unknown>]. *)
Definition CountryRawData : Type := list (string * list (gmap string Value.t)).

(** [country[key]] *)
Definition read (country : gmap string Value.t) (key : string) : Value.t :=
  default Value.Undefined (country !! key).

(** The callback of [countries.map]. *)
Definition transformCountry (country : gmap string Value.t) : Value.t :=
  Value.Obj
    [ ("name", read country "country");
      ("population", read country "population");
      ("wikipedia", read country "wikipedia");
      ("flag", read country "flag");
      ("landAreaKM2", read country "land_area_km2") ].

(** The callback of [Object.entries(data.Europe).map]. *)
Definition transformRegion (entry : string * list (gmap string Value.t))
  : Value.t :=
  Value.Obj
    [ ("name", Value.Str (fst entry));
      ("children", Value.Arr (transformCountry <$> snd entry)) ].

(** [transformData(data)], for [data.Europe]. *)
Definition transformData (Europe : CountryRawData) : Value.t :=
  Value.Obj
    [ ("name", Value.Str "Europe");
      ("children", Value.Arr (transformRegion <$> Europe)) ].

End ProcessData.

(** ** What is drawn for a circle *)

Module Drawn.

(** The group [g.node] of one circle, with the attributes of its [circle]
    and the label of its [text]; the colours of the fill and of the stroke,
    which the colour scale of d3 decides, are left out.  A transition counts
    for the value it ends at. *)
Record t : Type := mk {
  className : string;
  transform : Js.number * Js.number;
  r : Js.number;
  strokeWidth : Js.number;
  fillOpacity : Js.number;
  label : option TextFitter.Label
}.

End Drawn.

(** ** User interactions *)

Module Interactions.

(** [let currentValueKey: 'population' | 'landAreaKM2' = 'landAreaKM2'] *)
Definition initialValueKey : ValueKey.t := ValueKey.landAreaKM2.

Section Toggle.

(** The state on which the callback [onValueKeyChange] acts, and the way
    its call ends. *)
Context {W : Type}.
Variable onValueKeyChange : ValueKey.t -> W -> W * Layout.completion.

(** [handleToggleClick], on the variable [currentValueKey] of the module and
    the state of the callback. *)
Definition handleToggleClick (currentValueKey : ValueKey.t) (w : W)
  : ValueKey.t * (W * Layout.completion) :=
  let newValueKey :=
    match currentValueKey with
    | ValueKey.landAreaKM2 => ValueKey.population
    | ValueKey.population => ValueKey.landAreaKM2
    end in
  (newValueKey, onValueKeyChange newValueKey w).

(** The elements on which [setupToggleInteractions] listens for a click. *)
Inductive ToggleTarget : Type :=
| toggleClickArea
| toggleLabelLeft
| toggleLabelRight.

(** The click listeners that [setupToggleInteractions] sets. *)
Definition toggleClicked (target : ToggleTarget)
  (currentValueKey : ValueKey.t) (w : W)
  : ValueKey.t * (W * Layout.completion) :=
  match target with
  | toggleClickArea => handleToggleClick currentValueKey w
  | toggleLabelLeft =>
      if negb (ValueKey.eqb currentValueKey ValueKey.landAreaKM2)
      then handleToggleClick currentValueKey w
      else (currentValueKey, (w, Layout.Normal))
  | toggleLabelRight =>
      if negb (ValueKey.eqb currentValueKey ValueKey.population)
      then handleToggleClick currentValueKey w
      else (currentValueKey, (w, Layout.Normal))
  end.

End Toggle.

(** The click listener that [setupCountryClickInteractions] sets on a node
    without children: whether it calls [onCountryClick(countryData)], for
    the data [countryData] of the node, rather than warn. *)
Definition countryClicked (countryData : Value.t) : bool :=
  Value.truthy countryData &&
  Value.truthy (Value.or (Value.get countryData "country")
                  (Value.get countryData "name")).

(** The listeners of [addNodeHoverEffects] for the node [d], on what is
    drawn for it: the circle of a node without children changes, and the
    group of the node ends the wiggle at the last of the shifts, [0, 0].
    The tooltip is apart. *)
Definition mouseover (size : Js.number) (d : Node.t) (g : Drawn.t)
  : Drawn.t :=
  match Node.children d with
  | Some _ => g
  | None =>
      {| Drawn.className := Drawn.className g;
         Drawn.transform := ((Node.x d + 0)%float, (Node.y d + 0)%float);
         Drawn.r := Drawn.r g;
         Drawn.strokeWidth := Stroke.hoverWidth size;
         Drawn.fillOpacity := 0.8%float;
         Drawn.label := Drawn.label g |}
  end.

Definition mouseout (size : Js.number) (d : Node.t) (g : Drawn.t)
  : Drawn.t :=
  match Node.children d with
  | Some _ => g
  | None =>
      {| Drawn.className := Drawn.className g;
         Drawn.transform := Drawn.transform g;
         Drawn.r := Drawn.r g;
         Drawn.strokeWidth := Stroke.restoredWidth size;
         Drawn.fillOpacity := 0.5%float;
         Drawn.label := Drawn.label g |}
  end.

End Interactions.

(** ** The side drawer *)

Module Drawer.

(** An element that [populateDrawerContent] appends: its tag, its
    attributes and styles in the order in which they are set, the value
    given for its text, and the elements appended to it. *)
Inductive Element : Type :=
| element (tag : string) (attrs : list (string * Value.t))
    (styles : list (string * string)) (text : option Value.t)
    (children : list Element).

Definition tagOf (e : Element) : string :=
  match e with element tag _ _ _ _ => tag end.

Definition attrsOf (e : Element) : list (string * Value.t) :=
  match e with element _ attrs _ _ _ => attrs end.

Definition childrenOf (e : Element) : list Element :=
  match e with element _ _ _ _ children => children end.

Definition textOf (e : Element) : option Value.t :=
  match e with element _ _ _ text _ => text end.

Section Content.

(** [v.toLocaleString()], which depends on the locale, and the conversion
    to a string of the numbers, the arrays and the objects. *)
Variable toLocaleString : Value.t -> string.
Variable otherToString : Value.t -> string.

(** [populateDrawerContent(countryData)]: the elements that the drawer
    content holds after the call, which first removes what it held. *)
Definition populateDrawerContent (countryData : Value.t)
  : result (list Element) :=
  match countryData with
  | Value.Undefined | Value.Null =>
      Throw (TypeError "Cannot read properties of undefined")
  | _ =>
      let header :=
        element "h2" [] [] (Some (Value.get countryData "name")) [] in
      let flag :=
        if Value.truthy (Value.get countryData "flag") then
          [ element "img"
              [ ("src", Value.get countryData "flag");
                ("alt",
                 Value.Str
                   (Value.toString otherToString
                      (Value.get countryData "country") ++ " flag")) ]
              [] None [] ]
        else [] in
      let area :=
        if Value.truthy (Value.get countryData "landAreaKM2") then
          [ element "div" [] [("margin-bottom", "15px")] None
              [ element "strong" [] [] (Some (Value.Str "Area: ")) [];
                element "span" [] []
                  (Some (Value.Str
                           (toLocaleString
                              (Value.get countryData "landAreaKM2")
                            ++ " kmÂ²"))) [] ] ]
        else [] in
      let population :=
        if Value.truthy (Value.get countryData "population") then
          [ element "div" [] [("margin-bottom", "15px")] None
              [ element "strong" [] [] (Some (Value.Str "Population: ")) [];
                element "span" [] []
                  (Some (Value.Str
                           (toLocaleString
                              (Value.get countryData "population")))) [] ] ]
        else [] in
      let infoContainer :=
        element "div" [("class", Value.Str "info-container")]
          [("margin-bottom", "20px")] None (area ++ population)%list in
      let link :=
        if Value.truthy (Value.get countryData "wikipedia") then
          [ element "a"
              [ ("class", Value.Str "wikipedia-link");
                ("href", Value.get countryData "wikipedia");
                ("target", Value.Str "_blank");
                ("rel", Value.Str "noopener noreferrer") ]
              [] (Some (Value.Str "View on Wikipedia")) [] ]
        else [] in
      Ok (header :: flag ++ infoContainer :: link)%list
  end.

End Content.

End Drawer.

(** ** The chart *)

Module Chart.

(** [ChartConfig] *)
Record ChartConfig : Type := mkConfig {
  width : Js.number;
  height : Js.number;
  valueKey : ValueKey.t
}.

(** The value accessor [(d) => d[valueKey] ?? 0] that [render] gives to
    [sum]. *)
Definition value (valueKey : ValueKey.t) (d : Value.t) : Value.t :=
  Value.coalesce (Value.get d (ValueKey.name valueKey)) (Value.Num 0).

(** The comparator [(a, b) => (b.value || 0) - (a.value || 0)] that
    [render] gives to [sort], on the values of the two nodes. *)
Definition byValue (a b : option Js.number) : Js.number :=
  (match b with Some v => Js.or v 0 | None => 0 end
   - match a with Some v => Js.or v 0 | None => 0 end)%float.

(** The toggle for land area and population: whether its group is in the
    SVG, the transform of its slider, and the class [active] and the fill
    of its two labels. *)
Module Toggle.
Record t : Type := mk {
  attached : bool;
  slider : option string;
  leftActive : bool;
  leftFill : option string;
  rightActive : bool;
  rightFill : option string
}.
End Toggle.

(** The members of [CircularPackChart] and the view box of its SVG; the
    drawer is apart. *)
Record t : Type := mk {
  viewBox : option (Js.number * Js.number);
  group : bool;
  nodes : Layout.store;
  toggleGroup : option Toggle.t
}.

(** The chart that the constructor makes. *)
Definition new : t :=
  {| viewBox := None; group := false; nodes := []; toggleGroup := None |}.

Definition remove (toggle : Toggle.t) : Toggle.t :=
  {| Toggle.attached := false;
     Toggle.slider := Toggle.slider toggle;
     Toggle.leftActive := Toggle.leftActive toggle;
     Toggle.leftFill := Toggle.leftFill toggle;
     Toggle.rightActive := Toggle.rightActive toggle;
     Toggle.rightFill := Toggle.rightFill toggle |}.

(** [clear()]: removing every element below the SVG takes the group of the
    toggle out of it. *)
Definition clear (c : t) : t :=
  {| viewBox := viewBox c; group := false; nodes := [];
     toggleGroup := remove <$> toggleGroup c |}.

Definition destroy (c : t) : t :=
  clear {| viewBox := viewBox c; group := group c; nodes := nodes c;
           toggleGroup := remove <$> toggleGroup c |}.

Definition createToggle (c : t) : t :=
  {| viewBox := viewBox c; group := group c; nodes := nodes c;
     toggleGroup :=
       Some {| Toggle.attached := true;
               Toggle.slider := None;
               Toggle.leftActive := true;
               Toggle.leftFill := None;
               Toggle.rightActive := false;
               Toggle.rightFill := None |} |}.

Definition updateToggleState (valueKey : ValueKey.t) (c : t) : t :=
  match toggleGroup c with
  | None => c
  | Some toggle =>
      let isPopulation := ValueKey.eqb valueKey ValueKey.population in
      {| viewBox := viewBox c; group := group c; nodes := nodes c;
         toggleGroup :=
           Some
             (if isPopulation then
                {| Toggle.attached := Toggle.attached toggle;
                   Toggle.slider := Some "translate(96, 0)";
                   Toggle.leftActive := false;
                   Toggle.leftFill := Some "#666";
                   Toggle.rightActive := true;
                   Toggle.rightFill := Some "#fff" |}
              else
                {| Toggle.attached := Toggle.attached toggle;
                   Toggle.slider := Some "translate(0, 0)";
                   Toggle.leftActive := true;
                   Toggle.leftFill := Some "#fff";
                   Toggle.rightActive := false;
                   Toggle.rightFill := Some "#666" |}) |}
  end.

Section WithD3.

Variable getContext : option (Js.number -> string -> Js.number).

(** The layout of d3: [pack(root).descendants()] for the hierarchy of
    [data] summed with the accessor and sorted with the comparator, in a
    pack of the given size and padding; and [pack(this.nodes[0])], which
    lays the nodes of the chart out again. *)
Variable pack :
  Value.t -> (Value.t -> Value.t) ->
  (option Js.number -> option Js.number -> Js.number) ->
  Js.number * Js.number -> Js.number -> Layout.store.
Variable repack :
  Js.number * Js.number -> Js.number -> Layout.store -> Layout.store.

(** What [drawNodes] makes of the node [d]. *)
Definition drawNode (size : Js.number) (d : Node.t) : result Drawn.t :=
  label ← match Node.children d with
           | Some _ => Ok None
           | None => Some <$> TextFitter.textLabel getContext d
           end;
  Ok {| Drawn.className :=
          "node " ++ match Node.children d with
                     | Some _ => "region-node"
                     | None => "country-node"
                     end;
        Drawn.transform := (Node.x d, Node.y d);
        Drawn.r := Node.r d;
        Drawn.strokeWidth := Stroke.strokeWidth size d;
        Drawn.fillOpacity :=
          match Node.children d with
          | Some _ => 0.2%float
          | None => 0.5%float
          end;
        Drawn.label := label |}.

(** [drawNodes(width, height)] on the nodes of a chart that has a group:
    what it draws, in the order of the nodes. *)
Definition drawNodes (width height : Js.number) (nodes : Layout.store)
  : result (list Drawn.t) :=
  let size := Js.min width height in
  mapM (drawNode size) (drop 1 nodes).

(** [render(data, config)]: the chart it leaves and how it ends. *)
Definition render (data : Value.t) (config : ChartConfig) (c : t)
  : t * Layout.completion :=
  let c := clear c in
  let rectWidth := (Js.min (width config) (height config) * 1.2)%float in
  let rectHeight := (Js.min (width config) (height config) * 0.8)%float in
  let packed :=
    pack data (value (valueKey config)) byValue (rectWidth, rectHeight)
      (Js.max 2 (Js.min rectWidth rectHeight * 0.01)) in
  match Layout.positionRegionCircles rectWidth rectHeight packed with
  | (positioned, Layout.Normal) =>
      let c :=
        {| viewBox := Some (rectWidth, rectHeight); group := true;
           nodes := positioned; toggleGroup := toggleGroup c |} in
      match drawNodes rectWidth rectHeight positioned with
      | Ok _ => (updateToggleState (valueKey config) (createToggle c),
                 Layout.Normal)
      | Throw e => (c, Layout.Abrupt e)
      end
  | (positioned, stopped) =>
      ({| viewBox := Some (rectWidth, rectHeight); group := false;
          nodes := positioned; toggleGroup := toggleGroup c |}, stopped)
  end.

(** [resize(width, height)]: the chart it leaves and how it ends. *)
Definition resize (width height : Js.number) (c : t)
  : t * Layout.completion :=
  let rectWidth := (Js.min width height * 1.2)%float in
  let rectHeight := (Js.min width height * 0.8)%float in
  if negb (group c) || (length (nodes c) =? 0)%nat then
    ({| viewBox := Some (rectWidth, rectHeight); group := group c;
        nodes := nodes c; toggleGroup := toggleGroup c |}, Layout.Normal)
  else
    let packed :=
      repack (rectWidth, rectHeight)
        (Js.max 2 (Js.min rectWidth rectHeight * 0.01)) (nodes c) in
    let '(positioned, completion) :=
      Layout.positionRegionCircles rectWidth rectHeight packed in
    ({| viewBox := Some (rectWidth, rectHeight); group := group c;
        nodes := positioned; toggleGroup := toggleGroup c |}, completion).

End WithD3.

(** *** Vocabulary of the statements about the chart *)

(** The toggle is in the SVG and shows [valueKey] as the key in use. *)
Definition shows (valueKey : ValueKey.t) (c : t) : Prop :=
  exists toggle,
    toggleGroup c = Some toggle /\
    Toggle.attached toggle = true /\
    Toggle.leftActive toggle = ValueKey.eqb valueKey ValueKey.landAreaKM2 /\
    Toggle.rightActive toggle = ValueKey.eqb valueKey ValueKey.population /\
    Toggle.slider toggle =
      Some (match valueKey with
            | ValueKey.population => "translate(96, 0)"
            | ValueKey.landAreaKM2 => "translate(0, 0)"
            end).

(** There is no toggle in the SVG. *)
Definition noToggle (c : t) : Prop :=
  forall toggle, toggleGroup c = Some toggle -> Toggle.attached toggle = false.

(** The chart [c] with the view box of a container of the given sides. *)
Definition withViewBox (width height : Js.number) (c : t) : t :=
  {| viewBox :=
       Some ((Js.min width height * 1.2)%float,
             (Js.min width height * 0.8)%float);
     group := group c; nodes := nodes c; toggleGroup := toggleGroup c |}.

(** The pack of [render] and [resize] for a container of the given
    sides: its size and its padding. *)
Definition packSize (width height : Js.number) : Js.number * Js.number :=
  ((Js.min width height * 1.2)%float, (Js.min width height * 0.8)%float).

Definition packPadding (width height : Js.number) : Js.number :=
  Js.max 2 (Js.min (fst (packSize width height)) (snd (packSize width height))
            * 0.01).

(** A node without children is drawn after the root. *)
Definition drawsLeaf (nodes : Layout.store) : bool :=
  existsb (fun d => match Node.children d with Some _ => false | None => true end)
    (drop 1 nodes).

(** A layout for the examples: whatever the data, the three circles of
    [packedNorth]. *)
Definition samplePack (data : Value.t) (value : Value.t -> Value.t)
  (compare : option Js.number -> option Js.number -> Js.number)
  (size : Js.number * Js.number) (padding : Js.number) : Layout.store :=
  Layout.packedNorth.

(** A layout with a region circle that has no quadrant. *)
Definition strayPack (data : Value.t) (value : Value.t -> Value.t)
  (compare : option Js.number -> option Js.number -> Js.number)
  (size : Js.number * Js.number) (padding : Js.number) : Layout.store :=
  [ Layout.sampleRoot [1];
    Layout.sampleNode "Central Europe" 1 (Some 0) None 300 200 80 ].

Definition sampleRepack (size : Js.number * Js.number) (padding : Js.number)
  (nodes : Layout.store) : Layout.store := nodes.

End Chart.

(** ** The component *)

Module Component.

(** The width and the height of a bounding rectangle. *)
Record Rect : Type := mkRect { width : Js.number; height : Js.number }.

(** [getSvgDimensions()], for the bounding rectangle of the SVG. *)
Definition getSvgDimensions (rect : Rect) : Rect :=
  let fallback := 600%float in
  {| width := Js.or (width rect) fallback;
     height := Js.or (height rect) fallback |}.

(** The members of [CircularPackComponent] that its methods read;
    [observing] holds while a resize observer set by the component has not
    been disconnected. *)
Record t : Type := mk {
  chart : option Chart.t;
  hierarchyData : option Value.t;
  currentValueKey : ValueKey.t;
  debounceTimer : option nat;
  observing : bool
}.

(** The timers of the window: the handles that [setTimeout] has returned
    for the resize and that have neither fired nor been cleared, and the
    last handle given out; a handle is a positive integer. *)
Record Timers : Type := mkTimers { pending : list nat; lastHandle : nat }.

Definition setTimeout (timers : Timers) : nat * Timers :=
  (S (lastHandle timers),
   {| pending := S (lastHandle timers) :: pending timers;
      lastHandle := S (lastHandle timers) |}).

Definition clearTimeout (handle : nat) (timers : Timers) : Timers :=
  {| pending := List.filter (fun h => negb (h =? handle)%nat) (pending timers);
     lastHandle := lastHandle timers |}.

Section WithD3.

Variable getContext : option (Js.number -> string -> Js.number).
Variable pack :
  Value.t -> (Value.t -> Value.t) ->
  (option Js.number -> option Js.number -> Js.number) ->
  Js.number * Js.number -> Js.number -> Layout.store.
Variable repack :
  Js.number * Js.number -> Js.number -> Layout.store -> Layout.store.

(** [renderChart()], for the bounding rectangle [rect] of the SVG at the
    time of the call. *)
Definition renderChart (rect : Rect) (c : t) : t * Layout.completion :=
  match chart c, hierarchyData c with
  | Some chart, Some data =>
      let config :=
        {| Chart.width := width (getSvgDimensions rect);
           Chart.height := height (getSvgDimensions rect);
           Chart.valueKey := currentValueKey c |} in
      let '(chart, completion) :=
        Chart.render getContext pack data config chart in
      ({| chart := Some chart; hierarchyData := hierarchyData c;
          currentValueKey := currentValueKey c;
          debounceTimer := debounceTimer c;
          observing := observing c |}, completion)
  | _, _ => (c, Layout.Normal)
  end.

Definition onValueKeyChange (rect : Rect) (newValueKey : ValueKey.t) (c : t)
  : t * Layout.completion :=
  if negb (ValueKey.eqb (currentValueKey c) newValueKey) then
    renderChart rect
      {| chart := chart c; hierarchyData := hierarchyData c;
         currentValueKey := newValueKey;
         debounceTimer := debounceTimer c;
         observing := observing c |}
  else (c, Layout.Normal).

Definition handleResize (rect : Rect) (c : t) : t * Layout.completion :=
  match chart c with
  | None => (c, Layout.Normal)
  | Some chart =>
      let dimensions := getSvgDimensions rect in
      let '(chart, completion) :=
        Chart.resize repack (width dimensions) (height dimensions) chart in
      ({| chart := Some chart; hierarchyData := hierarchyData c;
          currentValueKey := currentValueKey c;
          debounceTimer := debounceTimer c;
          observing := observing c |}, completion)
  end.

(** [debounceResize()] *)
Definition debounceResize (c : t) (timers : Timers) : t * Timers :=
  let timers :=
    match debounceTimer c with
    | Some handle =>
        if (handle =? 0)%nat then timers else clearTimeout handle timers
    | None => timers
    end in
  let '(handle, timers) := setTimeout timers in
  ({| chart := chart c; hierarchyData := hierarchyData c;
      currentValueKey := currentValueKey c;
      debounceTimer := Some handle;
      observing := observing c |}, timers).

(** [cleanup()] *)
Definition cleanup (c : t) (timers : Timers) : t * Timers :=
  let timers :=
    match debounceTimer c with
    | Some handle =>
        if (handle =? 0)%nat then timers else clearTimeout handle timers
    | None => timers
    end in
  ({| chart := Chart.destroy <$> chart c; hierarchyData := hierarchyData c;
      currentValueKey := currentValueKey c;
      debounceTimer := debounceTimer c;
      observing := false |}, timers).

(** What happens to the component between two turns of the event loop: the
    resize observer calls back, a timer fires while the bounding rectangle
    of the SVG is [rect], or Angular destroys the component. *)
Inductive Event : Type :=
| observed
| fired (handle : nat) (rect : Rect)
| destroyed.

(** The component, the timers of the window, and the number of calls of
    [handleResize] so far. *)
Record World : Type := mkWorld {
  component : t;
  timers : Timers;
  resizes : nat
}.

(** One turn of the event loop.  An observer that is disconnected does not
    call back, and a handle that is not pending does not fire. *)
Definition step (world : World) (event : Event) : World :=
  match event with
  | observed =>
      if observing (component world) then
        let '(c, timers) := debounceResize (component world) (timers world) in
        {| component := c; timers := timers; resizes := resizes world |}
      else world
  | fired handle rect =>
      if bool_decide (handle ∈ pending (timers world)) then
        {| component := fst (handleResize rect (component world));
           timers :=
             {| pending :=
                  List.filter (fun h => negb (h =? handle)%nat)
                    (pending (timers world));
                lastHandle := lastHandle (timers world) |};
           resizes := S (resizes world) |}
      else world
  | destroyed =>
      let '(c, timers) := cleanup (component world) (timers world) in
      {| component := c; timers := timers; resizes := resizes world |}
  end.

(** The component once [initialiseChart] has set the chart up and
    [setupResizeObserver] has started the observer, with no timer set. *)
Definition initialised (chart : Chart.t) (data : Value.t) : World :=
  {| component :=
       {| chart := Some chart; hierarchyData := Some data;
          currentValueKey := ValueKey.landAreaKM2;
          debounceTimer := None; observing := true |};
     timers := {| pending := []; lastHandle := 0 |};
     resizes := 0 |}.

(** A click on the toggle while the bounding rectangle of the SVG is
    [rect]: the listener of [setupToggleInteractions] with the callback that
    [setupInteractions] gives it. *)
Definition toggleClicked (target : Interactions.ToggleTarget) (rect : Rect)
  (state : ValueKey.t * t) : ValueKey.t * t :=
  let '(newValueKey, (c, _)) :=
    Interactions.toggleClicked (onValueKeyChange rect) target (fst state)
      (snd state) in
  (newValueKey, c).

(** The world after the events, in turn. *)
Definition run (world : World) (events : list Event) : World :=
  foldl step world events.

(** The variable [currentValueKey] of the interactions and the component
    after the clicks, in turn. *)
Definition clicked (clicks : list (Interactions.ToggleTarget * Rect))
  (state : ValueKey.t * t) : ValueKey.t * t :=
  foldl (fun state click => toggleClicked (fst click) (snd click) state)
    state clicks.

End WithD3.

(** *** Vocabulary of the statements about the component *)

(** At most one timer is pending, and it is the one the component holds. *)
Definition debounced (world : World) : Prop :=
  pending (timers world) = [] \/
  exists handle,
    pending (timers world) = [S handle] /\
    debounceTimer (component world) = Some (S handle).

(** The number of calls of the resize observer among the events. *)
Definition observations (events : list Event) : nat :=
  length (List.filter (fun event => match event with
                                    | observed => true
                                    | _ => false
                                    end) events).

(** The key that is not [valueKey]. *)
Definition other (valueKey : ValueKey.t) : ValueKey.t :=
  match valueKey with
  | ValueKey.landAreaKM2 => ValueKey.population
  | ValueKey.population => ValueKey.landAreaKM2
  end.

(** The label of the toggle that stands for [valueKey]. *)
Definition labelOf (valueKey : ValueKey.t) : Interactions.ToggleTarget :=
  match valueKey with
  | ValueKey.landAreaKM2 => Interactions.toggleLabelLeft
  | ValueKey.population => Interactions.toggleLabelRight
  end.

End Component.

(** ** Vocabulary of the further statements *)

Module Further.

(** [a] is reached from [j] by following the parent links at least once. *)
Inductive ancestorOf (nodes : Layout.store) (a : nat) : nat -> Prop :=
| ancestor_parent (j : nat) (d : Node.t) :
    nodes !! j = Some d -> Node.parent d = Some a -> ancestorOf nodes a j
| ancestor_further (j p : nat) (d : Node.t) :
    nodes !! j = Some d -> Node.parent d = Some p ->
    ancestorOf nodes a p -> ancestorOf nodes a j.

(** Two numbers that are written alike: equal numbers, where the two
    zeros are equal, or NaN twice. *)
Definition sameNumber (a b : Js.number) : Prop :=
  (a =? b)%float = true \/ (is_nan a = true /\ is_nan b = true).

(** A number that is neither NaN nor infinite. *)
Definition finite (a : Js.number) : Prop :=
  match Prim2SF a with
  | S754_zero _ | S754_finite _ _ _ => True
  | S754_infinity _ | S754_nan => False
  end.

(** Two region circles of the same name and radius. *)
Definition sameNameAndRadius (d d' : Node.t) : Prop :=
  NodeData.name (Node.data d') = NodeData.name (Node.data d) /\
  Node.r d' = Node.r d.

(** Two elements of [regions] with the same name, radius and quadrant. *)
Definition alike (region region' : Layout.Region.t) : Prop :=
  Layout.Region.name region' = Layout.Region.name region /\
  Layout.Region.radius region' = Layout.Region.radius region /\
  Layout.Region.quadrant region' = Layout.Region.quadrant region.

(** The region circles of a store, as [positionRegionCircles] hands them
    to [calculateOptimalPositions]. *)
Definition regionNodesOf (nodes : Layout.store) : list Node.t :=
  omap (fun k => nodes !! k)
    (Layout.indicesWhere (fun d => (Node.depth d =? 1)%nat) nodes).

End Further.
(** * Properties *)

(** ** Order facts on binary64 values, from the specification of the
    primitive comparisons *)

Module JsFacts.
Import Js.

Lemma SFcompare_antisym (a b : spec_float) :
  SFcompare b a = option_map CompOpp (SFcompare a b).
Proof.
  destruct a as [sa|sa| |sa ma ea], b as [sb|sb| |sb mb eb]; simpl;
    try reflexivity; try (destruct sa; reflexivity);
    try (destruct sb; reflexivity);
    try (destruct sa, sb; reflexivity).
  change (Pos.compare_cont Eq mb ma) with (mb ?= ma)%positive.
  change (Pos.compare_cont Eq ma mb) with (ma ?= mb)%positive.
  rewrite (Z.compare_antisym ea eb), (Pos.compare_antisym ma mb).
  destruct sa, sb; try reflexivity;
    destruct (ea ?= eb)%Z; simpl; try reflexivity;
    destruct (ma ?= mb)%positive; reflexivity.
Qed.

Lemma SFcompare_defined (a b : spec_float) :
  SFcompare a a = Some Eq -> SFcompare b b = Some Eq ->
  exists c, SFcompare a b = Some c.
Proof.
  destruct a as [sa|sa| |sa ma ea], b as [sb|sb| |sb mb eb]; simpl;
    intros Ha Hb; try discriminate; eauto.
Qed.

Lemma is_nan_false_compare (a : number) :
  is_nan a = false -> SFcompare (Prim2SF a) (Prim2SF a) = Some Eq.
Proof.
  unfold is_nan. rewrite FloatAxioms.eqb_spec. unfold SFeqb.
  destruct (SFcompare _ _) as [[]|]; simpl; congruence.
Qed.

Lemma leb_refl (a : number) : is_nan a = false -> (a <=? a)%float = true.
Proof.
  intros H. rewrite FloatAxioms.leb_spec. unfold SFleb.
  rewrite (is_nan_false_compare a H). reflexivity.
Qed.

Lemma ltb_leb (a b : number) : (a <? b)%float = true -> (a <=? b)%float = true.
Proof.
  rewrite FloatAxioms.ltb_spec, FloatAxioms.leb_spec. unfold SFltb, SFleb.
  destruct (SFcompare _ _) as [[]|]; congruence.
Qed.

(** On numbers that are not NaN the order is total. *)
Lemma not_ltb_leb (a b : number) :
  is_nan a = false -> is_nan b = false ->
  (b <? a)%float = false -> (a <=? b)%float = true.
Proof.
  intros Ha Hb. rewrite FloatAxioms.ltb_spec, FloatAxioms.leb_spec.
  unfold SFltb, SFleb.
  rewrite (SFcompare_antisym (Prim2SF a) (Prim2SF b)).
  destruct (SFcompare_defined _ _ (is_nan_false_compare a Ha)
              (is_nan_false_compare b Hb)) as [c ->].
  destruct c; simpl; congruence.
Qed.

(** [a <= b] and [a > b] never both hold. *)
Lemma leb_not_gtb (a b : number) :
  (a <=? b)%float = true -> gtb a b = false.
Proof.
  unfold gtb. rewrite FloatAxioms.ltb_spec, FloatAxioms.leb_spec.
  unfold SFltb, SFleb.
  rewrite (SFcompare_antisym (Prim2SF a) (Prim2SF b)).
  destruct (SFcompare _ _) as [[]|]; simpl; congruence.
Qed.

Lemma leb_not_nan (a b : number) :
  (a <=? b)%float = true -> is_nan a = false /\ is_nan b = false.
Proof.
  unfold is_nan. rewrite FloatAxioms.leb_spec, !FloatAxioms.eqb_spec.
  unfold SFleb, SFeqb.
  destruct (Prim2SF a) as [sa|sa| |sa ma ea], (Prim2SF b) as [sb|sb| |sb mb eb];
    simpl; try discriminate; intros _;
    repeat match goal with
           | |- context [Pos.compare_cont Eq ?m ?m] =>
               change (Pos.compare_cont Eq m m) with (m ?= m)%positive
           end;
    repeat match goal with s : bool |- _ => destruct s end; simpl;
    rewrite ?Z.compare_refl, ?Pos.compare_refl; auto.
Qed.

Lemma max_not_nan (a b : number) :
  is_nan (max a b) = false -> is_nan a = false /\ is_nan b = false.
Proof.
  unfold max. destruct (is_nan a), (is_nan b); simpl; auto;
    intros H; vm_compute in H; discriminate.
Qed.

Lemma min_not_nan (a b : number) :
  is_nan (min a b) = false -> is_nan a = false /\ is_nan b = false.
Proof.
  unfold min. destruct (is_nan a), (is_nan b); simpl; auto;
    intros H; vm_compute in H; discriminate.
Qed.

Lemma max_lower (a b : number) :
  is_nan (max a b) = false -> (a <=? max a b)%float = true.
Proof.
  intros H. destruct (max_not_nan a b H) as [Ha Hb]. unfold max.
  rewrite Ha, Hb. simpl.
  destruct (b <? a)%float eqn:Hba; [now apply leb_refl|].
  destruct (a <? b)%float eqn:Hab; [now apply ltb_leb|].
  destruct (get_sign a); [now apply not_ltb_leb | now apply leb_refl].
Qed.

Lemma min_upper (a b : number) :
  is_nan (min a b) = false -> (min a b <=? a)%float = true.
Proof.
  intros H. destruct (min_not_nan a b H) as [Ha Hb]. unfold min.
  rewrite Ha, Hb. simpl.
  destruct (a <? b)%float eqn:Hab; [now apply leb_refl|].
  destruct (b <? a)%float eqn:Hba; [now apply ltb_leb|].
  destruct (get_sign a); [now apply leb_refl | now apply not_ltb_leb].
Qed.

(** The clamp [Math.max(lo, Math.min(hi, v))] stays below [hi] as soon as
    the interval is not empty. *)
Lemma clamp_upper (lo hi v : number) :
  is_nan (max lo (min hi v)) = false ->
  (lo <=? hi)%float = true ->
  (max lo (min hi v) <=? hi)%float = true.
Proof.
  intros H Hlh. destruct (max_not_nan _ _ H) as [Hlo Hm].
  pose proof (min_upper hi v Hm) as Hmin.
  unfold max. rewrite Hlo, Hm. simpl.
  destruct (min hi v <? lo)%float; [exact Hlh|].
  destruct (lo <? min hi v)%float; [exact Hmin|].
  destruct (get_sign lo); [exact Hmin | exact Hlh].
Qed.

(** There is one NaN, and a difference from it is NaN. *)
Lemma is_nan_eq (a : number) : is_nan a = true -> a = nan.
Proof.
  intros H. rewrite <- (SF2Prim_Prim2SF a).
  destruct (Prim2SF a) as [s|s| |s m e] eqn:Ha; [| |reflexivity|];
    exfalso; unfold is_nan in H; rewrite FloatAxioms.eqb_spec, Ha in H;
    unfold SFeqb in H; simpl in H.
  - discriminate.
  - destruct s; discriminate.
  - change (Pos.compare_cont Eq m m) with (m ?= m)%positive in H.
    rewrite Z.compare_refl, Pos.compare_refl in H. destruct s; discriminate.
Qed.

Lemma sub_nan (c : number) : (nan - c)%float = nan.
Proof.
  rewrite <- (SF2Prim_Prim2SF (nan - c)), FloatAxioms.sub_spec. reflexivity.
Qed.

(** The offset from [region || centre] is the offset from [region] when
    [region] is not zero and the child is at NaN where the region is. *)
Lemma or_offset (region child centre new : number) :
  is_zero region = false -> (is_nan region = true -> is_nan child = true) ->
  (new + (child - or region centre))%float = (new + (child - region))%float.
Proof.
  intros Hzero Hnan. unfold or, truthy. rewrite Hzero. simpl.
  destruct (is_nan region) eqn:Hregion; [|reflexivity]. simpl.
  rewrite (is_nan_eq _ (Hnan eq_refl)), (is_nan_eq _ Hregion), !sub_nan.
  reflexivity.
Qed.

(** [Math.max] and [Math.min] on signed zeros and NaN, and truthiness. *)
Example max_min_special_values :
  Prim2SF (max 0 (-0)) = S754_zero false /\
  Prim2SF (max (-0) 0) = S754_zero false /\
  Prim2SF (min 0 (-0)) = S754_zero true /\
  Prim2SF (min (-0) 0) = S754_zero true /\
  is_nan (max 0.5 nan) = true /\ is_nan (min nan 1) = true /\
  truthy 0 = false /\ truthy (-0) = false /\ truthy nan = false /\
  truthy 0.1 = true /\ or 0 400 = 400%float /\ or 300 400 = 300%float.
Proof. vm_compute. repeat split; reflexivity. Qed.

End JsFacts.

(** ** The text fitter *)

Module FitterFacts.
Import Js JsFacts TextFitter.

Ltac result_simpl :=
  cbv [mbind mret fmap result_bind result_ret result_fmap getTextWidth];
  cbv beta iota.

(** [split] and [includes] on sample strings. *)
Example split_includes_samples :
  split " " "United Kingdom" = ["United"; "Kingdom"] /\
  split " " "France" = ["France"] /\
  split " " "" = [""] /\
  split " " "a  b " = ["a"; ""; "b"; ""] /\
  includes "Liech..." "..." = true /\ includes "L.." "..." = false /\
  includes "a...b" "..." = true /\ includes ". . ." "..." = false /\
  includes "" "..." = false.
Proof. vm_compute. repeat split; reflexivity. Qed.

(** Scenarios A, B and C of the fitter, in the sample context. *)
Example textLabel_scenarios :
  textLabel sampleContext (sampleLeaf "France" 40) = Ok (Text "France") /\
  textLabel sampleContext (sampleLeaf "Liechtenstein" 40)
    = Ok (Text "Liech...") /\
  placeWords sampleContext (split " " "United Kingdom") 100 10 40 []
    = Ok ["United"; "Kingdom"] /\
  markLeftOver sampleContext (split " " "United Kingdom")
    ["United"; "Kingdom"] 100 10 40 = Ok ["United"; "Kingdom"] /\
  textLabel sampleContext (sampleLeaf "Bosnia Herzegovina and" 8)
    = Ok (Tspans ["B.."; "H.."]).
Proof. vm_compute. repeat split; reflexivity. Qed.

Section WithMeasure.

Variable measureText : Js.number -> string -> Js.number.
Variables (word : string) (maxWidth fontSize radius : Js.number).

Local Notation "'ctx'" := (Some measureText).
Local Notation "'fitsE'" :=
  (fitsWithEllipsis measureText word maxWidth fontSize).
Local Notation "'fitsW'" := (fits measureText maxWidth fontSize).

Lemma truncateLoop_step (i : nat) :
  truncateLoop ctx word maxWidth fontSize (S i) =
  if fitsE (S i) then Ok (substring 0 (S i) word ++ "...")
  else truncateLoop ctx word maxWidth fontSize i.
Proof. reflexivity. Qed.

Lemma truncateLoop_scanned (n : nat) :
  exists t, truncateLoop ctx word maxWidth fontSize n = Ok t /\
            scanned measureText word maxWidth fontSize n t.
Proof.
  induction n as [|n [t [Ht Hs]]].
  - exists word. split; [reflexivity|]. apply scan_none. intros j Hj. lia.
  - rewrite truncateLoop_step. destruct (fitsE (S n)) eqn:Hfit.
    + eexists. split; [reflexivity|].
      apply scan_found; [lia | exact Hfit | intros j Hj; lia].
    + exists t. split; [exact Ht|]. destruct Hs as [i Hi Hfi Hno | Hno].
      * apply scan_found; [lia | exact Hfi |].
        intros j Hj. destruct (decide (j = S n)) as [->|]; [exact Hfit|].
        apply Hno. lia.
      * apply scan_none. intros j Hj.
        destruct (decide (j = S n)) as [->|]; [exact Hfit|]. apply Hno. lia.
Qed.

(** Every call with a 2D context returns, in one of the five ways of
    [fitted]. *)
Lemma processWordForFit_fitted (forceEllipses : bool) :
  exists s,
    processWordForFit ctx word maxWidth fontSize radius forceEllipses = Ok s /\
    fitted measureText word maxWidth fontSize radius forceEllipses s.
Proof.
  unfold processWordForFit.
  assert (Hfirst :
    (forceEllipses = false /\ fitsW word = true) \/
    (forceEllipses = true \/ fitsW word = false)).
  { destruct forceEllipses; [right; left; reflexivity|].
    destruct (fitsW word);
      [left; split; reflexivity | right; right; reflexivity]. }
  destruct Hfirst as [[-> Hfit] | Hnot].
  - exists word. split; [|apply fitted_as_is; [reflexivity | exact Hfit]].
    result_simpl. unfold fits in Hfit. rewrite Hfit. reflexivity.
  - destruct (truncateLoop_scanned (String.length word)) as [t [Ht Hs]].
    assert (Hgo :
      processWordForFit ctx word maxWidth fontSize radius forceEllipses =
      if gtb (measureText fontSize t) maxWidth then
        if (radius <? 6)%float then Ok "" else Ok (charAt0 word ++ "..")
      else Ok t).
    { unfold processWordForFit.
      destruct Hnot as [-> | Hnf].
      - result_simpl. rewrite Ht. reflexivity.
      - destruct forceEllipses; result_simpl.
        + rewrite Ht. reflexivity.
        + unfold fits in Hnf. rewrite Hnf, Ht. reflexivity. }
    fold (processWordForFit ctx word maxWidth fontSize radius forceEllipses).
    rewrite Hgo. clear Hgo Ht.
    destruct Hs as [i Hi Hfi Hno | Hno].
    + pose proof Hfi as Hle. unfold fitsWithEllipsis, fits in Hle.
      rewrite (leb_not_gtb _ _ Hle).
      eexists. split; [reflexivity|]. now apply fitted_truncated.
    + destruct (gtb (measureText fontSize word) maxWidth) eqn:Hgt.
      * destruct (radius <? 6)%float eqn:Hr; eexists; (split; [reflexivity|]).
        -- now apply fitted_empty.
        -- now apply fitted_degraded.
      * eexists. split; [reflexivity|]. now apply fitted_unchanged.
Qed.

End WithMeasure.

Lemma ellipsis_not_empty (prefix dots : string) :
  dots <> "" -> prefix ++ dots <> "".
Proof. intros Hdots. destruct prefix; [exact Hdots | discriminate]. Qed.

(** C10, amended: the string returned by [processWordForFit] has one of four
    shapes, each in its own case.  It is the word unchanged, when ellipses
    are not forced and the word fits, or when no nonempty prefix followed by
    "..." fits and the bare word is not wider than [maxWidth]; it is the
    longest nonempty prefix of the word that fits with "...", followed by
    "...", when the word is not returned at once; it is the first character
    of the word followed by "..", or the empty string, when the word is not
    returned at once, no prefix followed by "..." fits and the bare word is
    wider than [maxWidth], the former for a radius that is not below 6 and
    the latter for a radius below 6.  So the empty string is returned only
    when the radius is below 6 or the word itself is empty; and when
    ellipses are forced, no prefix followed by "..." fits and the bare word
    fits, the word is returned unchanged. *)
Theorem processWordForFit_shapes
  (measureText : Js.number -> string -> Js.number) (word : string)
  (maxWidth fontSize radius : Js.number) (forceEllipses : bool) :
  exists s,
    processWordForFit (Some measureText) word maxWidth fontSize radius
      forceEllipses = Ok s /\
    ((s = word /\
      ((forceEllipses = false /\
        fits measureText maxWidth fontSize word = true) \/
       ((forall j, 1 <= j <= String.length word ->
           fitsWithEllipsis measureText word maxWidth fontSize j = false) /\
        gtb (measureText fontSize word) maxWidth = false))) \/
     (exists i,
        s = substring 0 i word ++ "..." /\
        1 <= i <= String.length word /\
        (forceEllipses = true \/
         fits measureText maxWidth fontSize word = false) /\
        fitsWithEllipsis measureText word maxWidth fontSize i = true /\
        (forall j, i < j <= String.length word ->
           fitsWithEllipsis measureText word maxWidth fontSize j = false)) \/
     (s = charAt0 word ++ ".." /\
      (forceEllipses = true \/
       fits measureText maxWidth fontSize word = false) /\
      (forall j, 1 <= j <= String.length word ->
         fitsWithEllipsis measureText word maxWidth fontSize j = false) /\
      gtb (measureText fontSize word) maxWidth = true /\
      (radius <? 6)%float = false) \/
     (s = "" /\
      (forceEllipses = true \/
       fits measureText maxWidth fontSize word = false) /\
      (forall j, 1 <= j <= String.length word ->
         fitsWithEllipsis measureText word maxWidth fontSize j = false) /\
      gtb (measureText fontSize word) maxWidth = true /\
      (radius <? 6)%float = true)) /\
    (s = "" -> word = "" \/ (radius <? 6)%float = true) /\
    (forceEllipses = true ->
     (forall i,
        1 <= i <= String.length word ->
        fitsWithEllipsis measureText word maxWidth fontSize i = false) ->
     fits measureText maxWidth fontSize word = true ->
     s = word).
Proof.
  destruct (processWordForFit_fitted measureText word maxWidth fontSize radius
              forceEllipses) as [s [Hs Hf]].
  exists s. split; [exact Hs|]. split; [|split].
  - destruct Hf as [Hforce Hfit | i Hnot Hi Hfi Hlong | Hnot Hnone Hgt Hr
                   | Hnot Hnone Hgt Hr | _ Hnone Hgt].
    + left. split; [reflexivity|]. left. split; assumption.
    + right. left. exists i. repeat split; try assumption; apply Hi.
    + right. right. right. repeat split; assumption.
    + right. right. left. repeat split; assumption.
    + left. split; [reflexivity|]. right. split; assumption.
  - intros Hempty.
    destruct Hf as [_ _ | i _ _ _ _ | _ _ _ Hr | _ _ _ _ | _ _ _].
    + left. exact Hempty.
    + destruct (ellipsis_not_empty (substring 0 i word) "..."
                  ltac:(discriminate) Hempty).
    + right. exact Hr.
    + destruct (ellipsis_not_empty (charAt0 word) ".."
                  ltac:(discriminate) Hempty).
    + left. exact Hempty.
  - intros Hforce Hnone Hfit.
    destruct Hf as [Hnf _ | i _ Hi Hfi _ | _ _ Hgt _ | _ _ Hgt _ | _ _ _].
    + reflexivity.
    + rewrite (Hnone i Hi) in Hfi. discriminate.
    + rewrite (leb_not_gtb _ _ Hfit) in Hgt. discriminate.
    + rewrite (leb_not_gtb _ _ Hfit) in Hgt. discriminate.
    + reflexivity.
Qed.

Lemma processWordForFit_shapes_witness :
  exists s,
    processWordForFit sampleContext "W" 15 10 10 true = Ok s /\ s = "W".
Proof.
  destruct (processWordForFit_shapes sampleMeasure "W" 15 10 10 true)
    as [s [Hs [_ [_ Hword]]]].
  exists s. split; [exact Hs|]. apply Hword.
  - reflexivity.
  - intros i Hi. assert (i = 1) as -> by (simpl in Hi; lia). reflexivity.
  - reflexivity.
Defined.

(** C10 as stated fails for the empty word, which [split] makes of a name
    that begins with a space: for the node " Malta" of radius 40 the first
    word is empty, it fits, and it is returned as it is, the empty string,
    at a radius that is not below 6. *)
Lemma processWordForFit_empty_word_at_any_radius :
  nth 0 (split " " " Malta") "" = "" /\
  processWordForFit sampleContext "" (40 * 1.6) (Js.max 8 (40 / 4)) 40 false
    = Ok "" /\
  (40 <? 6)%float = false /\
  ~ fourShapes sampleMeasure "" (40 * 1.6) (Js.max 8 (40 / 4)) 40 false.
Proof.
  split; [reflexivity|]. split; [vm_compute; reflexivity|].
  split; [reflexivity|]. intros [s [Hs [_ Hsmall]]].
  vm_compute in Hs. injection Hs as <-.
  specialize (Hsmall eq_refl). vm_compute in Hsmall. discriminate.
Qed.

(** C4, amended: when neither [maxWidth] nor the measured width of the word
    is NaN, the string returned by [processWordForFit] has a rendered width
    of at most [maxWidth], or [radius < 6] and it is empty, or it is the
    first character of the word followed by two dots. *)
Theorem processWordForFit_fits_or_falls_back
  (measureText : Js.number -> string -> Js.number) (word : string)
  (maxWidth fontSize radius : Js.number) (forceEllipses : bool) :
  is_nan maxWidth = false ->
  is_nan (measureText fontSize word) = false ->
  fitsOrFallsBack measureText word maxWidth fontSize radius forceEllipses.
Proof.
  intros Hmax Hword.
  destruct (processWordForFit_fitted measureText word maxWidth fontSize radius
              forceEllipses) as [s [Hs Hf]].
  exists s. split; [exact Hs|].
  destruct Hf as [_ Hfit | i _ _ Hfi _ | _ _ _ Hr | _ _ _ _ | _ _ Hgt].
  - left. exact Hfit.
  - left. exact Hfi.
  - right. left. split; [exact Hr | reflexivity].
  - right. right. reflexivity.
  - left. unfold fits. now apply not_ltb_leb.
Qed.

Lemma processWordForFit_fits_or_falls_back_witness :
  fitsOrFallsBack sampleMeasure "Liechtenstein" 64 10 40 false.
Proof.
  apply (processWordForFit_fits_or_falls_back sampleMeasure "Liechtenstein"
           64 10 40 false); reflexivity.
Defined.

(** C4 as stated fails when [maxWidth] is NaN: every comparison is false,
    the word comes back whole, and its width is not at most [maxWidth]. *)
Lemma processWordForFit_nan_width_overflows :
  processWordForFit sampleContext "WWW" nan 10 10 false = Ok "WWW" /\
  ~ fitsOrFallsBack sampleMeasure "WWW" nan 10 10 false.
Proof.
  split; [reflexivity|]. intros [s [Hs Hd]].
  vm_compute in Hs. injection Hs as <-.
  destruct Hd as [Hd | [[Hd _] | Hd]]; vm_compute in Hd; discriminate.
Qed.

(** C5, amended: the word is returned unchanged when ellipses are not forced
    and it fits; otherwise, whenever some nonempty prefix followed by "..."
    fits, the result is the longest nonempty prefix that does, followed by
    "...". *)
Theorem processWordForFit_longest_prefix
  (measureText : Js.number -> string -> Js.number) (word : string)
  (maxWidth fontSize radius : Js.number) (forceEllipses : bool) :
  (forceEllipses = false -> fits measureText maxWidth fontSize word = true ->
   processWordForFit (Some measureText) word maxWidth fontSize radius
     forceEllipses = Ok word) /\
  (forceEllipses = true \/ fits measureText maxWidth fontSize word = false ->
   forall i, 1 <= i <= String.length word ->
     fitsWithEllipsis measureText word maxWidth fontSize i = true ->
     exists k, i <= k <= String.length word /\
       fitsWithEllipsis measureText word maxWidth fontSize k = true /\
       (forall j, k < j <= String.length word ->
          fitsWithEllipsis measureText word maxWidth fontSize j = false) /\
       processWordForFit (Some measureText) word maxWidth fontSize radius
         forceEllipses = Ok (substring 0 k word ++ "...")).
Proof.
  destruct (processWordForFit_fitted measureText word maxWidth fontSize radius
              forceEllipses) as [s [Hs Hf]].
  split.
  - intros Hforce Hfit. rewrite Hs. f_equal.
    destruct Hf as [_ _ | k Hnot _ _ _ | Hnot _ _ _ | Hnot _ _ _ | Hnot _ _];
      try reflexivity;
      destruct Hnot as [Hnot | Hnot]; congruence.
  - intros Hnot i Hi Hfi.
    destruct Hf as [Hforce Hfit | k _ Hk Hfk Hlater | _ Hnone _ _
                   | _ Hnone _ _ | _ Hnone _].
    + destruct Hnot as [Hnot | Hnot]; congruence.
    + exists k. repeat split; try lia; try assumption.
      destruct (decide (i <= k)) as [Hle | Hgt]; [exact Hle|].
      rewrite (Hlater i) in Hfi by lia. discriminate.
    + rewrite (Hnone i Hi) in Hfi. discriminate.
    + rewrite (Hnone i Hi) in Hfi. discriminate.
    + rewrite (Hnone i Hi) in Hfi. discriminate.
Qed.

Lemma processWordForFit_longest_prefix_witness :
  exists k, 5 <= k <= 13 /\
    fitsWithEllipsis sampleMeasure "Liechtenstein" 64 10 k = true /\
    (forall j, k < j <= 13 ->
       fitsWithEllipsis sampleMeasure "Liechtenstein" 64 10 j = false) /\
    processWordForFit sampleContext "Liechtenstein" 64 10 40 false =
      Ok (substring 0 k "Liechtenstein" ++ "...").
Proof.
  apply (proj2 (processWordForFit_longest_prefix sampleMeasure "Liechtenstein"
                  64 10 40 false)).
  - right. reflexivity.
  - simpl. lia.
  - reflexivity.
Defined.

(** C5 as stated fails when only the empty prefix fits with its ellipsis:
    the scan stops at one character, and the result is the degraded form,
    not "...". *)
Lemma processWordForFit_empty_prefix_not_tried :
  processWordForFit sampleContext "WWW" 12 10 10 false = Ok "W.." /\
  fits sampleMeasure 12 10 ("" ++ "...") = true /\
  ~ longestFittingPrefixReturned sampleMeasure "WWW" 12 10 10 false.
Proof.
  split; [reflexivity|]. split; [reflexivity|]. intros H.
  destruct (H (or_intror eq_refl) "") as [q [[i [Hi ->]] [_ [_ Hq]]]].
  - exists 0. split; [lia | reflexivity].
  - reflexivity.
  - vm_compute in Hq. simpl in Hi.
    destruct i as [|[|[|[|i]]]]; try lia; vm_compute in Hq; discriminate.
Qed.

(** *** The lines of a label *)

Section Lines.

Variable measureText : Js.number -> string -> Js.number.
Variables (maxWidth fontSize radius : Js.number).
Variable all : list string.

Local Notation "'ctx'" := (Some measureText).

Lemma processWordForFit_returns (word : string) (forceEllipses : bool) :
  exists s,
    processWordForFit ctx word maxWidth fontSize radius forceEllipses = Ok s.
Proof.
  destruct (processWordForFit_fitted measureText word maxWidth fontSize radius
              forceEllipses) as [s [Hs _]].
  exists s. exact Hs.
Qed.

Lemma placeWords_spec (words lines : list string) :
  drop (length lines) all = words ->
  placedFrom measureText maxWidth fontSize radius all lines ->
  (forall i l, lines !! i = Some l -> includes l "..." = false) ->
  exists out,
    placeWords ctx words maxWidth fontSize radius lines = Ok out /\
    (length lines <= 2 -> length out <= 2) /\
    placedFrom measureText maxWidth fontSize radius all out /\ ellipsisLast out.
Proof.
  revert lines. induction words as [|word rest IH]; intros lines Hdrop Hp Hno.
  - exists lines. split; [reflexivity|]. split; [auto|]. split; [exact Hp|].
    intros i l Hl Hinc. rewrite (Hno i l Hl) in Hinc. discriminate.
  - assert (Hword : all !! length lines = Some word).
    { rewrite <- (Nat.add_0_r (length lines)), <- lookup_drop, Hdrop.
      reflexivity. }
    assert (Hrest : drop (S (length lines)) all = rest).
    { replace (S (length lines)) with (length lines + 1) by lia.
      rewrite <- drop_drop, Hdrop. reflexivity. }
    simpl placeWords. destruct (length lines <? 2)%nat eqn:Hlen.
    + apply Nat.ltb_lt in Hlen.
      destruct (processWordForFit_returns word false) as [s Hs].
      rewrite Hs. result_simpl.
      destruct (includes s "...") eqn:Hinc; simpl.
      * destruct (String.eqb s "") eqn:Hempty.
        -- exists lines. split; [reflexivity|]. split; [auto|].
           split; [exact Hp|]. intros i l Hl Hi.
           rewrite (Hno i l Hl) in Hi. discriminate.
        -- apply String.eqb_neq in Hempty.
           exists (lines ++ [s])%list. split; [reflexivity|].
           split; [rewrite length_app; simpl; lia|]. split.
           ++ intros i l Hl. apply lookup_app_Some in Hl.
              destruct Hl as [Hl | [Hge Hl]]; [now apply Hp|].
              destruct (i - length lines) as [|k] eqn:Hk;
                [|destruct k; discriminate].
              injection Hl as <-. replace i with (length lines) by lia.
              split; [exact Hempty|]. exists word. split; assumption.
           ++ intros i l Hl Hi. rewrite length_app. simpl.
              apply lookup_app_Some in Hl.
              destruct Hl as [Hl | [Hge Hl]].
              ** rewrite (Hno i l Hl) in Hi. discriminate.
              ** apply lookup_lt_Some in Hl. simpl in Hl. lia.
      * destruct (String.eqb s "") eqn:Hempty.
        -- exists lines. split; [reflexivity|]. split; [auto|].
           split; [exact Hp|]. intros i l Hl Hi.
           rewrite (Hno i l Hl) in Hi. discriminate.
        -- apply String.eqb_neq in Hempty.
           destruct (IH (lines ++ [s])%list)
             as [out [Hout [Hlen2 [Hpo Hlast]]]].
           ++ rewrite length_app. simpl.
              replace (length lines + 1) with (S (length lines)) by lia.
              exact Hrest.
           ++ intros i l Hl. apply lookup_app_Some in Hl.
              destruct Hl as [Hl | [Hge Hl]]; [now apply Hp|].
              destruct (i - length lines) as [|k] eqn:Hk;
                [|destruct k; discriminate].
              injection Hl as <-. replace i with (length lines) by lia.
              split; [exact Hempty|]. exists word. split; assumption.
           ++ intros i l Hl. apply lookup_app_Some in Hl.
              destruct Hl as [Hl | [Hge Hl]]; [now apply (Hno i)|].
              destruct (i - length lines) as [|k]; [|destruct k; discriminate].
              injection Hl as <-. exact Hinc.
           ++ exists out. split; [exact Hout|]. split; [|split; assumption].
              intros _. apply Hlen2. rewrite length_app. simpl. lia.
    + exists lines. split; [reflexivity|]. split; [auto|]. split; [exact Hp|].
      intros i l Hl Hi. rewrite (Hno i l Hl) in Hi. discriminate.
Qed.

(** The lines after the loop, when nothing was placed before it. *)
Lemma placeWords_from_empty :
  exists placed,
    placeWords ctx all maxWidth fontSize radius [] = Ok placed /\
    length placed <= 2 /\
    placedFrom measureText maxWidth fontSize radius all placed /\
    ellipsisLast placed.
Proof.
  destruct (placeWords_spec all []) as [out [Hout [Hlen [Hp Hl]]]].
  - reflexivity.
  - intros i l Hl. discriminate.
  - intros i l Hl. discriminate.
  - exists out. split; [exact Hout|]. split; [apply Hlen; simpl; lia|].
    split; assumption.
Qed.

(** [markLeftOver] on two lines with words left over and no ellipsis yet. *)
Lemma markLeftOver_marks (first lastLine : string) :
  2 < length all -> includes lastLine "..." = false ->
  exists l,
    markLeftOver ctx all [first; lastLine] maxWidth fontSize radius
      = Ok [first; l] /\
    (if fits measureText maxWidth fontSize (lastLine ++ "...")
     then l = lastLine ++ "..."
     else processWordForFit ctx lastLine maxWidth fontSize radius true = Ok l).
Proof.
  intros Hlen Hinc. unfold markLeftOver. simpl length. simpl nth.
  apply Nat.ltb_lt in Hlen. rewrite Hlen, Hinc. simpl.
  result_simpl. unfold fits.
  destruct (measureText fontSize (lastLine ++ "...") <=? maxWidth)%float.
  - eexists. split; reflexivity.
  - destruct (processWordForFit_returns lastLine true) as [l Hl].
    exists l. rewrite Hl. split; [reflexivity | reflexivity].
Qed.

(** [markLeftOver] leaves every other list of lines as it is. *)
Lemma markLeftOver_keeps (lines : list string) :
  length lines <> 2 \/ length all <= 2 \/
  includes (nth (length lines - 1) lines "") "..." = true ->
  markLeftOver ctx all lines maxWidth fontSize radius = Ok lines.
Proof.
  intros H. unfold markLeftOver.
  destruct H as [H | [H | H]].
  - apply Nat.eqb_neq in H. rewrite H, andb_false_r. reflexivity.
  - destruct (length lines =? 2)%nat eqn:H2;
      [|rewrite andb_false_r; reflexivity].
    apply Nat.eqb_eq in H2. rewrite H2.
    assert ((2 <? length all)%nat = false) as -> by (apply Nat.ltb_ge; lia).
    reflexivity.
  - rewrite H. simpl. rewrite andb_false_r. reflexivity.
Qed.

End Lines.

(** C6, amended: a label has at most two lines.  For a name of several
    words, each line placed by the loop is the nonempty processed form of
    the word of the same rank, and a line that contains "..." is the last
    one, both after the loop and in the label; when two lines are placed,
    words are left over and the second line does not contain "...", that
    line gets "..." appended if the result fits and is otherwise processed
    again with forced ellipses; in every other case the label is made of
    the placed lines. *)
Theorem textLabel_lines
  (measureText : Js.number -> string -> Js.number) (d : Node.t) :
  let fontSize := Js.max 8 (Node.r d / 4) in
  let maxWidth := (Node.r d * 1.6)%float in
  let words := split " " (NodeData.name (Node.data d)) in
  exists label,
    textLabel (Some measureText) d = Ok label /\
    lineCount label <= 2 /\
    (length words <> 1 ->
     exists placed final,
       placeWords (Some measureText) words maxWidth fontSize (Node.r d) []
         = Ok placed /\
       label = Tspans final /\
       placedFrom measureText maxWidth fontSize (Node.r d) words placed /\
       ellipsisLast placed /\ ellipsisLast final /\
       (forall first lastLine,
          placed = [first; lastLine] -> 2 < length words ->
          includes lastLine "..." = false ->
          exists l, final = [first; l] /\
            (if fits measureText maxWidth fontSize (lastLine ++ "...")
             then l = lastLine ++ "..."
             else processWordForFit (Some measureText) lastLine maxWidth
                    fontSize (Node.r d) true = Ok l)) /\
       (length placed <> 2 \/ length words <= 2 \/
        includes (nth (length placed - 1) placed "") "..." = true ->
        final = placed)).
Proof.
  intros fontSize maxWidth words. unfold textLabel.
  fold fontSize maxWidth words.
  destruct (length words =? 1)%nat eqn:Hone.
  - apply Nat.eqb_eq in Hone.
    destruct (processWordForFit_returns measureText maxWidth fontSize (Node.r d)
                (nth 0 words "") false) as [s Hs].
    exists (Text s). rewrite Hs. split; [reflexivity|].
    split; [simpl; lia|]. intros Hne. contradiction.
  - apply Nat.eqb_neq in Hone.
    destruct (placeWords_from_empty measureText maxWidth fontSize (Node.r d)
                words)
      as [placed [Hplaced [Hlen [Hp Hlast]]]].
    rewrite Hplaced. result_simpl.
    assert (Hcases :
      (exists first lastLine, placed = [first; lastLine] /\ 2 < length words /\
         includes lastLine "..." = false) \/
      (length placed <> 2 \/ length words <= 2 \/
       includes (nth (length placed - 1) placed "") "..." = true)).
    { destruct placed as [|first [|lastLine [|extra placed]]];
        try (right; left; simpl; lia).
      destruct (decide (2 < length words)) as [Hw|Hw];
        [|right; right; left; lia].
      destruct (includes lastLine "...") eqn:Hinc;
        [right; right; right; exact Hinc|].
      left. exists first, lastLine. auto. }
    destruct Hcases as [[first [lastLine [-> [Hw Hinc]]]] | Hkeep].
    + destruct (markLeftOver_marks measureText maxWidth fontSize (Node.r d)
                  words first lastLine Hw Hinc) as [l [Hmark Hl]].
      rewrite Hmark. exists (Tspans [first; l]).
      split; [reflexivity|]. split; [simpl; lia|]. intros _.
      exists [first; lastLine], [first; l].
      split; [reflexivity|]. split; [reflexivity|]. split; [exact Hp|].
      split; [exact Hlast|]. split; [|split].
      * intros i line Hline Hi. destruct i as [|[|i]]; simpl in Hline.
        -- injection Hline as <-. exact (Hlast 0 first eq_refl Hi).
        -- reflexivity.
        -- discriminate.
      * intros first' last' Heq _ _. injection Heq as <- <-.
        exists l. split; [reflexivity | exact Hl].
      * intros [Hk | [Hk | Hk]]; simpl in Hk; [lia | lia | congruence].
    + rewrite (markLeftOver_keeps measureText maxWidth fontSize (Node.r d)
                 words placed Hkeep).
      exists (Tspans placed). split; [reflexivity|]. split; [exact Hlen|].
      intros _. exists placed, placed.
      split; [reflexivity|]. split; [reflexivity|]. split; [exact Hp|].
      split; [exact Hlast|]. split; [exact Hlast|]. split; [|reflexivity].
      intros first lastLine -> Hw Hinc. simpl in Hkeep.
      destruct Hkeep as [Hk | [Hk | Hk]]; [lia | lia | congruence].
Qed.

Lemma textLabel_lines_witness :
  exists label,
    textLabel sampleContext (sampleLeaf "Bosnia and Herzegovina" 40)
      = Ok label /\
    lineCount label <= 2.
Proof.
  destruct (textLabel_lines sampleMeasure
              (sampleLeaf "Bosnia and Herzegovina" 40))
    as [label [Hlabel [Hcount _]]].
  exists label. split; [exact Hlabel | exact Hcount].
Defined.

(** C6 as stated fails when the second line already ends in an ellipsis:
    with a third word left over, the line is neither extended by "..." nor
    processed again, although processing it again would change it. *)
Lemma textLabel_truncated_line_left_alone :
  textLabel sampleContext (sampleLeaf "ab WWWWWWWW x" 40)
    = Ok (Tspans ["ab"; "WWWWW..."]) /\
  ~ leftOverMarked sampleMeasure (sampleLeaf "ab WWWWWWWW x" 40).
Proof.
  split; [vm_compute; reflexivity|]. intros H.
  destruct (H "ab" "WWWWW...") as [l [Hl Hd]].
  - vm_compute. reflexivity.
  - vm_compute. lia.
  - vm_compute in Hl. injection Hl as <-.
    destruct Hd as [[Hd _] | Hd]; vm_compute in Hd; discriminate.
Qed.

(** Without a 2D context every call throws. *)
Lemma processWordForFit_no_context (word : string)
  (maxWidth fontSize radius : Js.number) (forceEllipses : bool) :
  processWordForFit None word maxWidth fontSize radius forceEllipses =
  Throw (Error "Context could not be created").
Proof.
  unfold processWordForFit. destruct forceEllipses; [|reflexivity].
  result_simpl. destruct (String.length word); reflexivity.
Qed.

End FitterFacts.

(** ** Stroke widths *)

Module StrokeFacts.
Import Stroke.

(** The size [resize] takes is the smaller side of the container; the size
    [drawNodes] takes under [render] is the smaller side of the pack
    rectangle, whose sides are 1.2 and 0.8 times the smaller side of the
    container. *)
Lemma resize_size (width height : Js.number) (d : Node.t) :
  resize width height d = strokeWidth (Js.min width height) d.
Proof. reflexivity. Qed.

Lemma render_size (width height : Js.number) (d : Node.t) :
  render width height d =
  strokeWidth
    (Js.min (Js.min width height * 1.2) (Js.min width height * 0.8)) d.
Proof. reflexivity. Qed.

(** A circle with children is drawn twice as thick as one without. *)
Lemma strokeWidth_doubled (size : Js.number) (d : Node.t)
  (children : list nat) :
  Node.children d = Some children ->
  strokeWidth size d = (Js.max 0.5 (size * 0.001) * 2)%float.
Proof. unfold strokeWidth. intros ->. reflexivity. Qed.

(** Hovering a leaf triples the width that leaving it restores. *)
Lemma hoverWidth_triples (size : Js.number) :
  hoverWidth size = (restoredWidth size * 3)%float.
Proof. reflexivity. Qed.

(** C9: in a container of 1000 by 1000 the initial render draws a leaf
    circle with a stroke of 0.8, computed from the smaller side 800 of the
    pack rectangle, where a resize to the same container sets 1, computed
    from the smaller side 1000 of the container. *)
Theorem render_and_resize_disagree :
  render 1000 1000 (TextFitter.sampleLeaf "Norway" 40) = 0.8%float /\
  resize 1000 1000 (TextFitter.sampleLeaf "Norway" 40) = 1%float /\
  (render 1000 1000 (TextFitter.sampleLeaf "Norway" 40)
     <? resize 1000 1000 (TextFitter.sampleLeaf "Norway" 40))%float = true.
Proof. vm_compute. repeat split; reflexivity. Qed.

End StrokeFacts.

(** ** The optimiser *)

Module OptimiserFacts.
Import Js JsFacts Layout.

Ltac result_simpl :=
  cbv [mbind mret fmap result_bind result_ret result_fmap];
  cbv beta iota.

Section WithPack.

Variables packWidth packHeight : Js.number.

Local Notation "'moveRegion''" := (moveRegion packWidth packHeight).
Local Notation "'applyForces''" := (applyForces packWidth packHeight).
Local Notation "'relaxOnce''" := (relaxOnce packWidth packHeight).
Local Notation "'relax''" := (relax packWidth packHeight).

Lemma clamp_clampedTo (lo hi v : number) : clampedTo lo hi (clamp lo hi v).
Proof.
  intros Hnan. split.
  - now apply max_lower.
  - intros Hspan. now apply clamp_upper.
Qed.

(** One region moved: its entry is replaced by a clamped centre. *)
Lemma moveRegion_inserts (forces : gmap string Force.t) (region : Region.t)
  (positions positions' : gmap string Point.t) (total total' : number) :
  moveRegion' forces region (positions, total) = Ok (positions', total') ->
  exists q p,
    Region.quadrant region = Some q /\
    positions' = <[Region.name region := p]> positions /\
    insetOf packWidth packHeight clampedTo region q p.
Proof.
  unfold moveRegion, getOrThrow, boundsOf.
  destruct (positions !! Region.name region) as [currentPos|]; [|discriminate].
  destruct (forces !! Region.name region) as [force|]; [|discriminate].
  destruct (Region.quadrant region) as [q|]; [|discriminate].
  result_simpl. intros H. injection H as <- <-.
  eexists q, _. split; [reflexivity|]. split; [reflexivity|].
  split; apply clamp_clampedTo.
Qed.

Lemma applyForces_cons (forces : gmap string Force.t) (region : Region.t)
  (rest : list Region.t) (state : gmap string Point.t * number) :
  applyForces' forces (region :: rest) state =
  match moveRegion' forces region state with
  | Ok state => applyForces' forces rest state
  | Throw e => Throw e
  end.
Proof. reflexivity. Qed.

Lemma applyForces_untouched (forces : gmap string Force.t)
  (regions : list Region.t) :
  forall positions total positions' total',
    applyForces' forces regions (positions, total) = Ok (positions', total') ->
    forall key, key ∉ Region.name <$> regions ->
      positions' !! key = positions !! key.
Proof.
  induction regions as [|region rest IH]; intros positions total positions'
    total' H key Hkey.
  - injection H as <- <-. reflexivity.
  - rewrite applyForces_cons in H.
    destruct (moveRegion' forces region (positions, total))
      as [[positions1 total1]|e] eqn:Hmove; [|discriminate].
    destruct (moveRegion_inserts _ _ _ _ _ _ Hmove) as [q [p [_ [-> _]]]].
    simpl in Hkey. apply not_elem_of_cons in Hkey as [Hne Hkey].
    rewrite (IH _ _ _ _ H key Hkey). now apply lookup_insert_ne.
Qed.

(** After the regions have been moved in turn, the centre of each obeys the
    clamp of its own inset rectangle. *)
Lemma applyForces_clamped (forces : gmap string Force.t)
  (regions : list Region.t) :
  NoDup (Region.name <$> regions) ->
  forall positions total positions' total',
    applyForces' forces regions (positions, total) = Ok (positions', total') ->
    forall region, region ∈ regions ->
      exists q p,
        Region.quadrant region = Some q /\
        positions' !! Region.name region = Some p /\
        insetOf packWidth packHeight clampedTo region q p.
Proof.
  induction regions as [|region0 rest IH]; intros Hnodup positions total
    positions' total' H region Hin.
  - inversion Hin.
  - rewrite applyForces_cons in H.
    destruct (moveRegion' forces region0 (positions, total))
      as [[positions1 total1]|e] eqn:Hmove; [|discriminate].
    simpl in Hnodup. apply NoDup_cons in Hnodup as [Hfresh Hnodup].
    apply elem_of_cons in Hin as [-> | Hin].
    + destruct (moveRegion_inserts _ _ _ _ _ _ Hmove) as [q [p [Hq [-> Hp]]]].
      exists q, p. split; [exact Hq|]. split; [|exact Hp].
      rewrite (applyForces_untouched _ _ _ _ _ _ H _ Hfresh).
      apply lookup_insert_eq.
    + exact (IH Hnodup _ _ _ _ H region Hin).
Qed.

Lemma relaxOnce_clamped (regions : list Region.t)
  (positions positions' : gmap string Point.t) (total : number) :
  NoDup (Region.name <$> regions) ->
  relaxOnce' regions positions = Ok (positions', total) ->
  forall region, region ∈ regions ->
    exists q p,
      Region.quadrant region = Some q /\
      positions' !! Region.name region = Some p /\
      insetOf packWidth packHeight clampedTo region q p.
Proof.
  intros Hnodup. unfold relaxOnce.
  destruct (pairwiseForces positions regions (initForces regions))
    as [forces|e]; [|discriminate].
  result_simpl. intros H. exact (applyForces_clamped _ _ Hnodup _ _ _ _ H).
Qed.

Lemma relax_step (regions : list Region.t) (remaining : nat)
  (positions : gmap string Point.t) :
  relax' regions (S remaining) positions =
  match relaxOnce' regions positions with
  | Ok (positions1, totalMovement) =>
      if (totalMovement <? 1)%float then Ok (positions1, mkExit 1 true)
      else match relax' regions remaining positions1 with
           | Ok (positions2, exit) =>
               Ok (positions2, mkExit (S (iterations exit)) (converged exit))
           | Throw e => Throw e
           end
  | Throw e => Throw e
  end.
Proof.
  simpl. destruct (relaxOnce' regions positions) as [[positions1 total]|e];
    [|reflexivity].
  result_simpl. destruct (total <? 1)%float; [reflexivity|].
  destruct (relax' regions remaining positions1) as [[positions2 exit]|e];
    reflexivity.
Qed.

(** The positions returned by the loop are those of the last iteration it
    ran, and it runs at least one. *)
Lemma relax_last (regions : list Region.t) (remaining : nat) :
  forall positions positions' exit,
    relax' regions (S remaining) positions = Ok (positions', exit) ->
    exists previous total,
      relaxOnce' regions previous = Ok (positions', total) /\
      (converged exit = true -> (total <? 1)%float = true).
Proof.
  induction remaining as [|remaining IH]; intros positions positions' exit;
    rewrite relax_step;
    destruct (relaxOnce' regions positions) as [[positions1 total]|e] eqn:Honce;
    try discriminate;
    destruct (total <? 1)%float eqn:Hsmall.
  - intros H. injection H as <- <-. exists positions, total. auto.
  - simpl. intros H. injection H as <- <-. exists positions, total.
    split; [exact Honce | discriminate].
  - intros H. injection H as <- <-. exists positions, total. auto.
  - destruct (relax' regions (S remaining) positions1)
      as [[positions2 exit2]|e] eqn:Hrest; [|discriminate].
    intros H. injection H as <- <-.
    destruct (IH _ _ _ Hrest) as [previous [total2 [Hprev Hconv]]].
    exists previous, total2. split; [exact Hprev | exact Hconv].
Qed.

(** How the loop counts: at most [remaining] iterations, all of them unless
    it converged. *)
Lemma relax_exit (regions : list Region.t) (remaining : nat) :
  forall positions positions' exit,
    relax' regions remaining positions = Ok (positions', exit) ->
    iterations exit <= remaining /\
    (converged exit = false -> iterations exit = remaining) /\
    (converged exit = true -> 1 <= iterations exit).
Proof.
  induction remaining as [|remaining IH]; intros positions positions' exit.
  - intros H. injection H as <- <-. simpl.
    split; [lia|]. split; [reflexivity | discriminate].
  - rewrite relax_step.
    destruct (relaxOnce' regions positions) as [[positions1 total]|e];
      [|discriminate].
    destruct (total <? 1)%float.
    + intros H. injection H as <- <-. simpl.
      split; [lia|]. split; [discriminate | lia].
    + destruct (relax' regions remaining positions1)
        as [[positions2 exit2]|e] eqn:Hrest; [|discriminate].
      intros H. injection H as <- <-. simpl.
      destruct (IH _ _ _ Hrest) as [Hle [Hall Hone]].
      split; [lia|]. split; [intros Hc; rewrite (Hall Hc); reflexivity | lia].
Qed.

(** *** The optimiser returns when every region has a quadrant *)

Lemma seedPositions_step (region : Region.t) (rest : list Region.t)
  (positions : gmap string Point.t) :
  seedPositions packWidth packHeight (region :: rest) positions =
  match boundsOf packWidth packHeight region with
  | Ok bounds =>
      seedPositions packWidth packHeight rest
        (<[Region.name region :=
             Point.mk (Bounds.centerX bounds) (Bounds.centerY bounds)]>
           positions)
  | Throw e => Throw e
  end.
Proof. reflexivity. Qed.

Lemma seedPositions_returns (regions : list Region.t) :
  Forall (fun region => is_Some (Region.quadrant region)) regions ->
  forall positions,
    exists seeded,
      seedPositions packWidth packHeight regions positions = Ok seeded /\
      forall key,
        is_Some (positions !! key) \/ key ∈ Region.name <$> regions ->
        is_Some (seeded !! key).
Proof.
  induction 1 as [|region rest [q Hq] _ IH]; intros positions.
  - exists positions. split; [reflexivity|]. intros key [H|H]; [exact H|].
    inversion H.
  - rewrite seedPositions_step. unfold boundsOf. rewrite Hq.
    set (bounds := quadrantBounds packWidth packHeight q).
    destruct (IH (<[Region.name region :=
                      Point.mk (Bounds.centerX bounds) (Bounds.centerY bounds)]>
                    positions)) as [seeded [Hseed Hkeys]].
    exists seeded. split; [exact Hseed|]. intros key Hkey. apply Hkeys.
    rewrite lookup_insert_is_Some'. rewrite fmap_cons, elem_of_cons in Hkey.
    destruct Hkey as [H | [-> | H]]; auto.
Qed.

Lemma initForces_covers (regions : list Region.t) :
  covers (initForces regions) regions.
Proof.
  unfold initForces.
  assert (Hgen : forall (forces : gmap string Force.t) (key : string),
            is_Some (forces !! key) \/ key ∈ Region.name <$> regions ->
            is_Some (foldl (fun forces region =>
                              <[Region.name region := Force.mk 0 0]> forces)
                       forces regions !! key)).
  { induction regions as [|region rest IH]; intros forces key Hkey.
    - destruct Hkey as [H|H]; [exact H | inversion H].
    - simpl. apply IH. rewrite lookup_insert_is_Some'.
      rewrite fmap_cons, elem_of_cons in Hkey.
      destruct Hkey as [H | [-> | H]]; auto. }
  intros region Hin. apply Hgen. right.
  apply list_elem_of_fmap. exists region. auto.
Qed.

Lemma pairForce_returns (positions : gmap string Point.t)
  (forces : gmap string Force.t) (region1 region2 : Region.t) :
  is_Some (positions !! Region.name region1) ->
  is_Some (positions !! Region.name region2) ->
  is_Some (forces !! Region.name region1) ->
  is_Some (forces !! Region.name region2) ->
  exists forces',
    pairForce positions forces region1 region2 = Ok forces' /\
    forall key, is_Some (forces !! key) -> is_Some (forces' !! key).
Proof.
  intros [pos1 Hp1] [pos2 Hp2] [force1 Hf1] [force2 Hf2].
  unfold pairForce, getOrThrow. rewrite Hp1, Hp2. result_simpl. cbv zeta.
  destruct (gtb _ 0); [|exists forces; split; [reflexivity | auto]].
  rewrite Hf1, Hf2. result_simpl.
  match goal with
  | |- context [<[Region.name region1 := ?f]> forces !! Region.name region2] =>
      assert (Hsome : is_Some (<[Region.name region1 := f]> forces
                                 !! Region.name region2))
        by (rewrite lookup_insert_is_Some'; right; eauto);
      destruct Hsome as [force2' ->]
  end.
  eexists. split; [reflexivity|]. intros key Hkey.
  rewrite !lookup_insert_is_Some'. auto.
Qed.

Lemma forcesAgainst_returns (positions : gmap string Point.t)
  (region1 : Region.t) (others : list Region.t) :
  is_Some (positions !! Region.name region1) -> covers positions others ->
  forall forces,
    is_Some (forces !! Region.name region1) -> covers forces others ->
    exists forces',
      forcesAgainst positions region1 others forces = Ok forces' /\
      forall key, is_Some (forces !! key) -> is_Some (forces' !! key).
Proof.
  intros Hp1. induction others as [|region2 rest IH]; intros Hp forces Hf1 Hf.
  - exists forces. split; [reflexivity | auto].
  - destruct (pairForce_returns positions forces region1 region2)
      as [forces1 [Hpair Hkeys1]]; auto.
    { apply Hp. left. } { apply Hf. left. }
    destruct (IH (fun r Hr => Hp r (list_elem_of_further _ _ _ Hr)) forces1)
      as [forces2 [Hrest Hkeys2]].
    + now apply Hkeys1.
    + intros r Hr. apply Hkeys1, Hf. now right.
    + exists forces2. split; [|auto]. simpl. rewrite Hpair. exact Hrest.
Qed.

Lemma pairwiseForces_returns (positions : gmap string Point.t)
  (regions : list Region.t) :
  covers positions regions ->
  forall forces,
    covers forces regions ->
    exists forces',
      pairwiseForces positions regions forces = Ok forces' /\
      forall key, is_Some (forces !! key) -> is_Some (forces' !! key).
Proof.
  induction regions as [|region1 rest IH]; intros Hp forces Hf.
  - exists forces. split; [reflexivity | auto].
  - destruct (forcesAgainst_returns positions region1 rest)
      with (forces := forces)
      as [forces1 [Hrow Hkeys1]].
    + apply Hp. left.
    + intros r Hr. apply Hp. now right.
    + apply Hf. left.
    + intros r Hr. apply Hf. now right.
    + destruct (IH (fun r Hr => Hp r (list_elem_of_further _ _ _ Hr)) forces1)
        as [forces2 [Hrest Hkeys2]].
      * intros r Hr. apply Hkeys1, Hf. now right.
      * exists forces2. split; [|auto]. simpl. rewrite Hrow. exact Hrest.
Qed.

Lemma moveRegion_returns (forces : gmap string Force.t) (region : Region.t)
  (positions : gmap string Point.t) (total : number) :
  is_Some (positions !! Region.name region) ->
  is_Some (forces !! Region.name region) ->
  is_Some (Region.quadrant region) ->
  exists positions' total',
    moveRegion' forces region (positions, total) = Ok (positions', total') /\
    forall key, is_Some (positions !! key) -> is_Some (positions' !! key).
Proof.
  intros [currentPos Hp] [force Hf] [q Hq].
  unfold moveRegion, getOrThrow, boundsOf. rewrite Hp, Hf, Hq.
  result_simpl. eexists _, _. split; [reflexivity|].
  intros key Hkey. rewrite lookup_insert_is_Some'. auto.
Qed.

Lemma applyForces_returns (forces : gmap string Force.t)
  (regions : list Region.t) :
  covers forces regions ->
  Forall (fun region => is_Some (Region.quadrant region)) regions ->
  forall positions total,
    covers positions regions ->
    exists positions' total',
      applyForces' forces regions (positions, total) = Ok (positions', total') /\
      forall key, is_Some (positions !! key) -> is_Some (positions' !! key).
Proof.
  intros Hf Hq. induction Hq as [|region rest Hquadrant _ IH];
    intros positions total Hp.
  - exists positions, total. split; [reflexivity | auto].
  - destruct (moveRegion_returns forces region positions total)
      as [positions1 [total1 [Hmove Hkeys1]]]; auto.
    { apply Hp. left. } { apply Hf. left. }
    destruct (IH (fun r Hr => Hf r (list_elem_of_further _ _ _ Hr))
                positions1 total1) as [positions2 [total2 [Hrest Hkeys2]]].
    + intros r Hr. apply Hkeys1, Hp. now right.
    + exists positions2, total2. split; [|auto].
      rewrite applyForces_cons, Hmove. exact Hrest.
Qed.

Lemma relaxOnce_returns (regions : list Region.t)
  (positions : gmap string Point.t) :
  Forall (fun region => is_Some (Region.quadrant region)) regions ->
  covers positions regions ->
  exists positions' total,
    relaxOnce' regions positions = Ok (positions', total) /\
    covers positions' regions.
Proof.
  intros Hq Hp. unfold relaxOnce.
  destruct (pairwiseForces_returns positions regions Hp (initForces regions)
              (initForces_covers regions)) as [forces [-> Hkeys]].
  result_simpl.
  destruct (applyForces_returns forces regions) with
    (positions := positions) (total := 0%float)
    as [positions' [total' [Happly Hkeys']]]; auto.
  { intros r Hr. apply Hkeys. now apply initForces_covers. }
  exists positions', total'. split; [exact Happly|].
  intros r Hr. apply Hkeys', Hp, Hr.
Qed.

Lemma relax_returns (regions : list Region.t) (remaining : nat) :
  Forall (fun region => is_Some (Region.quadrant region)) regions ->
  forall positions,
    covers positions regions ->
    exists positions' exit,
      relax' regions remaining positions = Ok (positions', exit).
Proof.
  intros Hq. induction remaining as [|remaining IH]; intros positions Hp.
  - eexists _, _. reflexivity.
  - rewrite relax_step.
    destruct (relaxOnce_returns regions positions Hq Hp)
      as [positions1 [total [-> Hp1]]].
    destruct (total <? 1)%float; [eexists _, _; reflexivity|].
    destruct (IH positions1 Hp1) as [positions2 [exit ->]].
    eexists _, _. reflexivity.
Qed.

Lemma calculateOptimalPositions_returns
  (quadrantOf : gmap string QuadrantName) (regionNodes : list Node.t) :
  (forall node, node ∈ regionNodes ->
     is_Some (quadrantOf !! NodeData.name (Node.data node))) ->
  exists positions,
    calculateOptimalPositions packWidth packHeight regionNodes quadrantOf
      = Ok positions.
Proof.
  intros Hknown. unfold calculateOptimalPositions, optimise.
  assert (Hq : Forall (fun region => is_Some (Region.quadrant region))
                 (makeRegion quadrantOf <$> regionNodes)).
  { apply Forall_forall. intros region Hin.
    apply list_elem_of_fmap in Hin as [node [-> Hnode]]. simpl.
    now apply Hknown. }
  destruct (seedPositions_returns _ Hq ∅) as [seeded [-> Hkeys]].
  destruct (relax_returns _ maxIterations Hq seeded)
    as [positions [exit Hrelax]].
  - intros region Hin. apply Hkeys. right.
    apply list_elem_of_fmap. exists region. auto.
  - exists positions.
    change (fst <$> relax' (makeRegion quadrantOf <$> regionNodes)
                      maxIterations seeded = Ok positions).
    rewrite Hrelax. reflexivity.
Qed.

Lemma seedPositions_known (regions : list Region.t)
  (positions seeded : gmap string Point.t) :
  seedPositions packWidth packHeight regions positions = Ok seeded ->
  Forall (fun region => is_Some (Region.quadrant region)) regions.
Proof.
  revert positions. induction regions as [|region rest IH]; intros positions H;
    [constructor|].
  rewrite seedPositions_step in H. unfold boundsOf in H.
  destruct (Region.quadrant region) as [q|] eqn:Hquadrant; [|discriminate].
  constructor; [rewrite Hquadrant; eauto | exact (IH _ H)].
Qed.

Lemma relax_covers (regions : list Region.t) (remaining : nat) :
  Forall (fun region => is_Some (Region.quadrant region)) regions ->
  forall positions positions' exit,
    covers positions regions ->
    relax' regions remaining positions = Ok (positions', exit) ->
    covers positions' regions.
Proof.
  intros Hq. induction remaining as [|remaining IH];
    intros positions positions' exit Hp.
  - intros H. injection H as <- <-. exact Hp.
  - rewrite relax_step.
    destruct (relaxOnce_returns regions positions Hq Hp)
      as [positions1 [total [-> Hp1]]].
    destruct (total <? 1)%float.
    + intros H. injection H as <- <-. exact Hp1.
    + destruct (relax' regions remaining positions1)
        as [[positions2 exit2]|e] eqn:Hrest; [|discriminate].
      intros H. injection H as <- <-. exact (IH _ _ _ Hp1 Hrest).
Qed.

(** When the optimiser returns, every region circle has a quadrant and a
    position. *)
Lemma calculateOptimalPositions_covers
  (quadrantOf : gmap string QuadrantName) (regionNodes : list Node.t)
  (positions : gmap string Point.t) :
  calculateOptimalPositions packWidth packHeight regionNodes quadrantOf
    = Ok positions ->
  forall node, node ∈ regionNodes ->
    is_Some (quadrantOf !! NodeData.name (Node.data node)) /\
    is_Some (positions !! NodeData.name (Node.data node)).
Proof.
  unfold calculateOptimalPositions, optimise. intros H node Hnode.
  destruct (seedPositions packWidth packHeight
              (makeRegion quadrantOf <$> regionNodes) ∅)
    as [seeded|e] eqn:Hseed; [|discriminate].
  pose proof (seedPositions_known _ _ _ Hseed) as Hq.
  destruct (seedPositions_returns _ Hq ∅) as [seeded' [Hseed' Hkeys]].
  rewrite Hseed in Hseed'. injection Hseed' as <-.
  assert (Hin : makeRegion quadrantOf node
                ∈ makeRegion quadrantOf <$> regionNodes)
    by (apply list_elem_of_fmap; exists node; auto).
  split.
  - rewrite Forall_forall in Hq. exact (Hq _ Hin).
  - revert H. result_simpl.
    destruct (relax' _ maxIterations seeded)
      as [[positions1 exit]|e] eqn:Hrelax; [|discriminate].
    intros H. injection H as <-.
    refine (relax_covers _ _ Hq _ _ _ _ Hrelax _ Hin).
    intros region Hregion. apply Hkeys. right.
    apply list_elem_of_fmap. exists region. auto.
Qed.

Lemma region_names (quadrantOf : gmap string QuadrantName)
  (regionNodes : list Node.t) :
  Region.name <$> (makeRegion quadrantOf <$> regionNodes) =
  (fun node => NodeData.name (Node.data node)) <$> regionNodes.
Proof. rewrite <- list_fmap_compose. reflexivity. Qed.

Lemma optimise_relax (quadrantOf : gmap string QuadrantName)
  (regionNodes : list Node.t) (positions : gmap string Point.t)
  (exit : LoopExit) :
  optimise packWidth packHeight regionNodes quadrantOf = Ok (positions, exit) ->
  exists seeded,
    relax' (makeRegion quadrantOf <$> regionNodes) maxIterations seeded
      = Ok (positions, exit).
Proof.
  unfold optimise.
  destruct (seedPositions packWidth packHeight
              (makeRegion quadrantOf <$> regionNodes) ∅) as [seeded|e];
    [|discriminate].
  result_simpl. intros H. exists seeded. exact H.
Qed.

End WithPack.

(** For region circles of distinct names, the position returned for each
    circle with a quadrant obeys the clamp to the bound rectangle of the
    quadrant inset by the radius plus the padding. *)
Lemma calculateOptimalPositions_clamped (packWidth packHeight : Js.number)
  (quadrantOf : gmap string QuadrantName) (regionNodes : list Node.t)
  (positions : gmap string Point.t) :
  NoDup ((fun node => NodeData.name (Node.data node)) <$> regionNodes) ->
  calculateOptimalPositions packWidth packHeight regionNodes quadrantOf
    = Ok positions ->
  positionsInset packWidth packHeight clampedTo quadrantOf regionNodes
    positions.
Proof.
  intros Hnodup Hcalc node q Hnode Hq.
  unfold calculateOptimalPositions in Hcalc.
  destruct (optimise packWidth packHeight regionNodes quadrantOf)
    as [[positions1 exit]|e] eqn:Hopt; [|discriminate].
  injection Hcalc as <-.
  destruct (optimise_relax _ _ _ _ _ _ Hopt) as [seeded Hrelax].
  destruct (relax_last _ _ _ _ _ _ _ Hrelax) as [previous [total [Honce _]]].
  rewrite <- (region_names quadrantOf) in Hnodup.
  destruct (relaxOnce_clamped _ _ _ _ _ _ Hnodup Honce
              (makeRegion quadrantOf node)) as [q' [p [Hq' [Hp Hin]]]].
  - apply list_elem_of_fmap. exists node. split; [reflexivity | exact Hnode].
  - simpl in Hq'. rewrite Hq in Hq'. injection Hq' as <-.
    exists p. split; [exact Hp | exact Hin].
Qed.

(** C2 as stated fails for a circle wider than its quadrant: the clamp
    keeps the lower edge, and a region circle of radius 200 in the top
    quadrant of a pack of 800 by 600 ends at y = 225, past the upper edge
    280 - 205 = 75 of the inset rectangle. *)
Lemma calculateOptimalPositions_wide_circle_overflows :
  calculateOptimalPositions 800 600 [wideNorth] quadrants
    = Ok (<["Northern Europe" := Point.mk 400 225]> ∅) /\
  ~ returnedWithinInset 800 600 [wideNorth].
Proof.
  assert (Hcalc : calculateOptimalPositions 800 600 [wideNorth] quadrants
                  = Ok (<["Northern Europe" := Point.mk 400 225]> ∅))
    by (vm_compute; reflexivity).
  split; [exact Hcalc|]. intros H.
  destruct (H _ Hcalc wideNorth top) as [p [Hp [_ [_ Hy]]]].
  - apply list_elem_of_singleton. reflexivity.
  - vm_compute. reflexivity.
  - vm_compute in Hp. injection Hp as <-. vm_compute in Hy. discriminate.
Qed.

(** C3, amended: when [calculateOptimalPositions] returns, its loop has run
    between 1 and 50 iterations, all 50 unless it was left on convergence;
    the positions returned are those computed by the last iteration run,
    and when the loop was left on convergence the movements of that
    iteration summed to less than 1. *)
Theorem optimise_exit (packWidth packHeight : Js.number)
  (quadrantOf : gmap string QuadrantName) (regionNodes : list Node.t)
  (positions : gmap string Point.t) (exit : LoopExit) :
  optimise packWidth packHeight regionNodes quadrantOf = Ok (positions, exit) ->
  1 <= iterations exit <= maxIterations /\
  (converged exit = false -> iterations exit = maxIterations) /\
  exists previous total,
    relaxOnce packWidth packHeight (makeRegion quadrantOf <$> regionNodes)
      previous = Ok (positions, total) /\
    (converged exit = true -> (total <? 1)%float = true).
Proof.
  intros Hopt. destruct (optimise_relax _ _ _ _ _ _ Hopt) as [seeded Hrelax].
  destruct (relax_exit _ _ _ _ _ _ _ Hrelax) as [Hle [Hall Hone]].
  split; [|split; [exact Hall|]].
  - split; [|exact Hle]. destruct (converged exit) eqn:Hc; [now apply Hone|].
    rewrite (Hall eq_refl). unfold maxIterations. lia.
  - exact (relax_last _ _ _ _ _ _ _ Hrelax).
Qed.

Lemma optimise_exit_witness :
  1 <= 2 <= maxIterations /\
  (true = false -> 2 = maxIterations) /\
  exists previous total,
    relaxOnce 800 600 (makeRegion quadrants <$> wideNorthAndSouth) previous
      = Ok (<["Southern Europe" := Point.mk 400 525]>
              (<["Northern Europe" := Point.mk 400 225]> ∅), total) /\
    (true = true -> (total <? 1)%float = true).
Proof.
  apply (optimise_exit 800 600 quadrants wideNorthAndSouth
           (<["Southern Europe" := Point.mk 400 525]>
              (<["Northern Europe" := Point.mk 400 225]> ∅))
           (mkExit 2 true)).
  vm_compute. reflexivity.
Defined.

(** C3 as stated fails for circles pinned by their clamps: two region
    circles of radius 200 in the top and bottom quadrants of a pack of 800
    by 600 stop moving in the second iteration, 300 apart, where 430 is
    required. *)
Lemma optimise_pinned_circles_overlap :
  optimise 800 600 wideNorthAndSouth quadrants
    = Ok (<["Southern Europe" := Point.mk 400 525]>
            (<["Northern Europe" := Point.mk 400 225]> ∅), mkExit 2 true) /\
  ~ separatedOrCapped 800 600 wideNorthAndSouth.
Proof.
  assert (Hopt : optimise 800 600 wideNorthAndSouth quadrants
            = Ok (<["Southern Europe" := Point.mk 400 525]>
                    (<["Northern Europe" := Point.mk 400 225]> ∅),
                  mkExit 2 true))
    by (vm_compute; reflexivity).
  split; [exact Hopt|]. intros H.
  destruct (H _ _ Hopt) as [Hcap | Hsep].
  - vm_compute in Hcap. discriminate.
  - destruct (Hsep 0 1 _ _ (Nat.lt_0_1) eq_refl eq_refl)
      as [pos1 [pos2 [H1 [H2 Hfar]]]].
    vm_compute in H1, H2. injection H1 as <-. injection H2 as <-.
    vm_compute in Hfar. discriminate.
Qed.

(** Scenario D: four region circles of radius 80 in a pack of 800 by 600
    stay at the centres of their quadrants, which are far enough apart. *)
Example optimise_scenario_D :
  optimise 800 600 (drop 1 fourRegions) quadrants
  = Ok (<["Western Europe" := Point.mk 200 300]>
          (<["Eastern Europe" := Point.mk 600 300]>
             (<["Southern Europe" := Point.mk 400 450]>
                (<["Northern Europe" := Point.mk 400 150]> ∅))),
        mkExit 1 true).
Proof. vm_compute. reflexivity. Qed.

End OptimiserFacts.

(** ** Moving the circles *)

Module MoverFacts.
Import Js JsFacts Layout OptimiserFacts.

Lemma sameButCentre_refl (d : Node.t) : sameButCentre d d.
Proof. repeat split. Qed.

Lemma sameButCentre_trans (a b c : Node.t) :
  sameButCentre a b -> sameButCentre b c -> sameButCentre a c.
Proof.
  intros (H1 & H2 & H3 & H4 & H5) (K1 & K2 & K3 & K4 & K5).
  repeat split; congruence.
Qed.

Lemma sameButCentre_setXY (d : Node.t) (x y : number) :
  sameButCentre d (setXY d x y).
Proof. repeat split. Qed.

Section Keeps.

Variable mayMove : nat -> Prop.

Lemma keeps_refl (nodes : store) : keeps mayMove nodes nodes.
Proof.
  split; [reflexivity|]. intros j d Hd. exists d.
  split; [exact Hd|]. split; [apply sameButCentre_refl | reflexivity].
Qed.

Lemma keeps_trans (a b c : store) :
  keeps mayMove a b -> keeps mayMove b c -> keeps mayMove a c.
Proof.
  intros [Hlen1 H1] [Hlen2 H2]. split; [congruence|].
  intros j d Hd. destruct (H1 j d Hd) as [d1 [Hd1 [Hs1 Hk1]]].
  destruct (H2 j d1 Hd1) as [d2 [Hd2 [Hs2 Hk2]]].
  exists d2. split; [exact Hd2|]. split.
  - exact (sameButCentre_trans _ _ _ Hs1 Hs2).
  - intros Hno. rewrite (Hk2 Hno). exact (Hk1 Hno).
Qed.

Lemma keeps_insert (nodes : store) (j : nat) (d d' : Node.t) :
  nodes !! j = Some d -> sameButCentre d d' -> mayMove j ->
  keeps mayMove nodes (<[j := d']> nodes).
Proof.
  intros Hd Hs Hmay. split; [apply length_insert|].
  intros k dk Hk. destruct (decide (k = j)) as [->|Hne].
  - exists d'. rewrite Hd in Hk. injection Hk as <-.
    split; [apply list_lookup_insert_eq; now apply lookup_lt_Some with d|].
    split; [exact Hs|]. intros Hno. contradiction.
  - exists dk. rewrite list_lookup_insert_ne by congruence.
    split; [exact Hk|]. split; [apply sameButCentre_refl | reflexivity].
Qed.

Lemma moveChild_keeps (original newPos : Point.t) (nodes : store) (j : nat) :
  mayMove j -> keeps mayMove nodes (moveChild original newPos nodes j).
Proof.
  intros Hmay. unfold moveChild.
  destruct (nodes !! j) as [childNode|] eqn:Hj; [|apply keeps_refl].
  exact (keeps_insert _ _ _ _ Hj (sameButCentre_setXY _ _ _) Hmay).
Qed.

Lemma moveChildren_keeps (original newPos : Point.t) (children : list nat) :
  forall nodes,
    (forall j, j ∈ children -> mayMove j) ->
    keeps mayMove nodes (foldl (moveChild original newPos) nodes children).
Proof.
  induction children as [|j rest IH]; intros nodes Hall; [apply keeps_refl|].
  simpl. apply keeps_trans with (moveChild original newPos nodes j).
  - apply moveChild_keeps. apply Hall. left.
  - apply IH. intros k Hk. apply Hall. now right.
Qed.

End Keeps.

(** *** Walking up the parent links *)

(** The walk reads the parent links only. *)
Lemma climb_parents (nodes nodes' : store) (ancestor : nat) :
  (forall c, nodes' !! c ≫= Node.parent = nodes !! c ≫= Node.parent) ->
  forall fuel current,
    climb nodes' fuel current ancestor = climb nodes fuel current ancestor.
Proof.
  intros Hparents fuel. induction fuel as [|fuel IH]; intros [c|];
    try reflexivity.
  simpl. rewrite Hparents, IH. reflexivity.
Qed.

Lemma keeps_parents (mayMove : nat -> Prop) (nodes nodes' : store) :
  keeps mayMove nodes nodes' ->
  forall c, nodes' !! c ≫= Node.parent = nodes !! c ≫= Node.parent.
Proof.
  intros [Hlen H] c. destruct (nodes !! c) as [d|] eqn:Hd.
  - destruct (H c d Hd) as [d' [-> [(_ & _ & Hp & _) _]]]. simpl. exact Hp.
  - apply lookup_ge_None in Hd. rewrite <- Hlen in Hd.
    apply lookup_ge_None in Hd. rewrite Hd. reflexivity.
Qed.

Lemma keeps_isDescendantOf (mayMove : nat -> Prop) (nodes nodes' : store)
  (j i : nat) :
  keeps mayMove nodes nodes' ->
  isDescendantOf nodes' j i = isDescendantOf nodes j i.
Proof.
  intros Hk. unfold isDescendantOf.
  rewrite (keeps_parents _ _ _ Hk j), (proj1 Hk).
  apply climb_parents. exact (keeps_parents _ _ _ Hk).
Qed.

Lemma keeps_depth (mayMove : nat -> Prop) (nodes nodes' : store) (j : nat)
  (d' : Node.t) :
  keeps mayMove nodes nodes' -> nodes' !! j = Some d' ->
  exists d, nodes !! j = Some d /\ sameButCentre d d'.
Proof.
  intros [Hlen H] Hd'. destruct (nodes !! j) as [d|] eqn:Hd.
  - destruct (H j d Hd) as [d1 [Hd1 [Hs _]]]. rewrite Hd' in Hd1.
    injection Hd1 as <-. exists d. split; [reflexivity | exact Hs].
  - apply lookup_ge_None in Hd. rewrite <- Hlen in Hd.
    apply lookup_ge_None in Hd. congruence.
Qed.

Lemma climb_None (nodes : store) (fuel ancestor : nat) :
  climb nodes fuel None ancestor = Some false.
Proof. destruct fuel; reflexivity. Qed.

Lemma climb_Some (nodes : store) (fuel c ancestor : nat) :
  climb nodes (S fuel) (Some c) ancestor =
  if (c =? ancestor)%nat then Some true
  else climb nodes fuel (nodes !! c ≫= Node.parent) ancestor.
Proof. reflexivity. Qed.

(** With parents first, the walk ends within the length of the store. *)
Lemma climb_total (nodes : store) (ancestor : nat) :
  parentsFirst nodes ->
  forall fuel c, c < fuel -> is_Some (climb nodes fuel (Some c) ancestor).
Proof.
  intros Hpf fuel. induction fuel as [|fuel IH]; intros c Hc; [lia|].
  rewrite climb_Some. destruct (c =? ancestor)%nat; [eauto|].
  destruct (nodes !! c) as [d|] eqn:Hd; simpl;
    [|rewrite climb_None; eauto].
  destruct (Node.parent d) as [p|] eqn:Hp; [|rewrite climb_None; eauto].
  apply IH. pose proof (Hpf c d p Hd Hp). lia.
Qed.

Lemma isDescendantOf_total (nodes : store) (j i : nat) :
  parentsFirst nodes -> is_Some (isDescendantOf nodes j i).
Proof.
  intros Hpf. unfold isDescendantOf.
  destruct (nodes !! j) as [d|] eqn:Hd; simpl;
    [|rewrite climb_None; eauto].
  destruct (Node.parent d) as [p|] eqn:Hp; [|rewrite climb_None; eauto].
  apply climb_total; [exact Hpf|].
  pose proof (Hpf j d p Hd Hp). apply lookup_lt_Some in Hd. lia.
Qed.

(** *** The children of a region *)

Lemma childNodesAmong_spec (nodes : store) (regionNode : nat)
  (candidates : list nat) :
  forall kept,
    childNodesAmong nodes regionNode candidates = Some kept ->
    forall j, j ∈ kept ->
      j ∈ candidates /\
      exists d, nodes !! j = Some d /\ 1 < Node.depth d /\
        isDescendantOf nodes j regionNode = Some true.
Proof.
  induction candidates as [|c rest IH]; intros kept H j Hj.
  - injection H as <-. inversion Hj.
  - simpl in H.
    destruct (nodes !! c) as [d|] eqn:Hd.
    + destruct (1 <? Node.depth d)%nat eqn:Hdepth.
      * destruct (isDescendantOf nodes c regionNode) as [keep|] eqn:Hdesc;
          [|discriminate]. simpl in H.
        destruct (childNodesAmong nodes regionNode rest) as [kept'|];
          [|discriminate]. simpl in H. injection H as <-.
        destruct keep.
        -- apply elem_of_cons in Hj as [-> | Hj].
           ++ split; [left|]. exists d. apply Nat.ltb_lt in Hdepth. auto.
           ++ destruct (IH _ eq_refl j Hj) as [Hin Hrest].
              split; [now right | exact Hrest].
        -- destruct (IH _ eq_refl j Hj) as [Hin Hrest].
           split; [now right | exact Hrest].
      * simpl in H.
        destruct (childNodesAmong nodes regionNode rest) as [kept'|];
          [|discriminate]. simpl in H. injection H as <-.
        destruct (IH _ eq_refl j Hj) as [Hin Hrest].
        split; [now right | exact Hrest].
    + simpl in H.
      destruct (childNodesAmong nodes regionNode rest) as [kept'|];
        [|discriminate]. simpl in H. injection H as <-.
      destruct (IH _ eq_refl j Hj) as [Hin Hrest].
      split; [now right | exact Hrest].
Qed.

Lemma childNodesAmong_total (nodes : store) (regionNode : nat)
  (candidates : list nat) :
  parentsFirst nodes ->
  is_Some (childNodesAmong nodes regionNode candidates).
Proof.
  intros Hpf. induction candidates as [|c rest [kept IH]]; [simpl; eauto|].
  simpl. rewrite IH.
  destruct (nodes !! c) as [d|]; [|simpl; eauto].
  destruct (1 <? Node.depth d)%nat; [|simpl; eauto].
  destruct (isDescendantOf_total nodes c regionNode Hpf) as [keep ->].
  simpl. eauto.
Qed.

(** *** Placing the regions *)

Lemma indicesWhere_spec (keep : Node.t -> bool) (nodes : store) (i : nat) :
  i ∈ indicesWhere keep nodes <->
  exists d, nodes !! i = Some d /\ keep d = true.
Proof.
  unfold indicesWhere. rewrite list_elem_of_In, filter_In, in_seq. split.
  - intros [_ H]. destruct (nodes !! i) as [d|]; [|discriminate].
    exists d. auto.
  - intros [d [Hd Hkeep]]. rewrite Hd. split; [|exact Hkeep].
    apply lookup_lt_Some in Hd. lia.
Qed.

Lemma keeps_weaken (mayMove mayMove' : nat -> Prop) (nodes nodes' : store) :
  (forall j, mayMove j -> mayMove' j) ->
  keeps mayMove nodes nodes' -> keeps mayMove' nodes nodes'.
Proof.
  intros Himp [Hlen H]. split; [exact Hlen|]. intros j d Hd.
  destruct (H j d Hd) as [d' [Hd' [Hs Hsame]]]. exists d'.
  split; [exact Hd'|]. split; [exact Hs|]. intros Hno. apply Hsame.
  intros Hmay. apply Hno, Himp, Hmay.
Qed.

Lemma keeps_below (nodes0 nodes : store) (j i : nat) (d : Node.t) :
  keeps (fun _ => True) nodes0 nodes ->
  isRegion nodes0 i ->
  nodes !! j = Some d -> 1 < Node.depth d ->
  isDescendantOf nodes j i = Some true ->
  belowRegion nodes0 j i.
Proof.
  intros Hk Hi Hd Hdepth Hdesc. split; [exact Hi|].
  destruct (keeps_depth _ _ _ _ _ Hk Hd) as [d0 [Hd0 (_ & Hdep & _)]].
  exists d0. split; [exact Hd0|]. split; [lia|].
  rewrite <- (keeps_isDescendantOf _ _ _ j i Hk). exact Hdesc.
Qed.

(** The step for the region circle at index [i] moves that circle and its
    descendant circles only. *)
Lemma placeRegion_keeps_with (mayMove : nat -> Prop)
  (positions : gmap string Point.t) (originalPositions : gmap nat Point.t)
  (nodes0 nodes : store) (i : nat) :
  keeps (fun _ => True) nodes0 nodes ->
  isRegion nodes0 i ->
  (forall m, movedWith nodes0 i m -> mayMove m) ->
  keeps mayMove nodes (fst (placeRegion positions originalPositions nodes i)).
Proof.
  intros Hk Hi Hmay. unfold placeRegion.
  destruct (nodes !! i) as [regionNode|] eqn:Hnode; [|apply keeps_refl].
  destruct (negb (String.eqb (NodeData.name (Node.data regionNode)) "")
            && bool_decide (is_Some (positions !!
                 NodeData.name (Node.data regionNode))));
    [|apply keeps_refl].
  destruct (positions !! NodeData.name (Node.data regionNode)) as [newPos|];
    [|apply keeps_refl].
  assert (Hmoved : keeps mayMove nodes
            (<[i := setXY regionNode (Point.x newPos) (Point.y newPos)]> nodes)).
  { apply (keeps_insert _ _ _ _ _ Hnode (sameButCentre_setXY _ _ _)).
    apply Hmay. left. reflexivity. }
  destruct (childNodes _ i) as [children|] eqn:Hchildren; [|exact Hmoved].
  destruct children as [|c children]; [exact Hmoved|].
  destruct (originalPositions !! i) as [original|]; [|exact Hmoved].
  cbn [fst]. eapply keeps_trans; [exact Hmoved|].
  apply moveChildren_keeps. intros j Hj.
  destruct (childNodesAmong_spec _ _ _ _ Hchildren j Hj)
    as [_ [d [Hd [Hdepth Hdesc]]]].
  apply Hmay. right.
  refine (keeps_below _ _ _ _ _ _ Hi Hd Hdepth Hdesc).
  eapply keeps_trans; [exact Hk|].
  exact (keeps_weaken _ _ _ _ (fun _ _ => I) Hmoved).
Qed.

Lemma placeRegion_keeps (positions : gmap string Point.t)
  (originalPositions : gmap nat Point.t) (nodes0 nodes : store) (i : nat) :
  keeps (attached nodes0) nodes0 nodes ->
  isRegion nodes0 i ->
  keeps (attached nodes0) nodes
    (fst (placeRegion positions originalPositions nodes i)).
Proof.
  intros Hk Hi. apply placeRegion_keeps_with with (nodes0 := nodes0).
  - exact (keeps_weaken _ _ _ _ (fun _ _ => I) Hk).
  - exact Hi.
  - intros m [-> | Hbelow]; [left; exact Hi | right; exists i; exact Hbelow].
Qed.

Lemma placeRegions_cons (positions : gmap string Point.t)
  (originalPositions : gmap nat Point.t) (i : nat) (rest : list nat)
  (nodes : store) :
  placeRegions positions originalPositions (i :: rest) nodes =
  match snd (placeRegion positions originalPositions nodes i) with
  | Normal =>
      placeRegions positions originalPositions rest
        (fst (placeRegion positions originalPositions nodes i))
  | _ => placeRegion positions originalPositions nodes i
  end.
Proof.
  simpl. destruct (placeRegion positions originalPositions nodes i)
    as [nodes1 [| |]]; reflexivity.
Qed.

Lemma placeRegions_keeps (positions : gmap string Point.t)
  (originalPositions : gmap nat Point.t) (nodes0 : store)
  (regionNodes : list nat) :
  (forall i, i ∈ regionNodes -> isRegion nodes0 i) ->
  forall nodes,
    keeps (attached nodes0) nodes0 nodes ->
    keeps (attached nodes0) nodes0
      (fst (placeRegions positions originalPositions regionNodes nodes)).
Proof.
  induction regionNodes as [|i rest IH]; intros Hregions nodes Hk;
    [exact Hk|].
  rewrite placeRegions_cons.
  assert (Hstep : keeps (attached nodes0) nodes0
            (fst (placeRegion positions originalPositions nodes i))).
  { eapply keeps_trans; [exact Hk|].
    apply placeRegion_keeps; [exact Hk|]. apply Hregions. left. }
  destruct (snd (placeRegion positions originalPositions nodes i));
    [|exact Hstep|exact Hstep].
  apply IH; [|exact Hstep]. intros k Hk'. apply Hregions. now right.
Qed.

Lemma positionRegionCircles_keeps (packWidth packHeight : number)
  (nodes : store) :
  keeps (attached nodes) nodes
    (fst (positionRegionCircles packWidth packHeight nodes)).
Proof.
  unfold positionRegionCircles.
  destruct (length nodes =? 0)%nat; [apply keeps_refl|].
  destruct (length (indicesWhere _ nodes) =? 0)%nat; [apply keeps_refl|].
  destruct (calculateOptimalPositions _ _ _ _) as [positions|e];
    [|apply keeps_refl].
  apply placeRegions_keeps; [|apply keeps_refl].
  intros i Hi. apply indicesWhere_spec in Hi as [d [Hd Hdepth]].
  exists d. split; [exact Hd|]. now apply Nat.eqb_eq.
Qed.

(** C8: [positionRegionCircles] changes nothing but centres: the store it
    leaves has the same nodes with the same [r], [depth], [parent], [data]
    and [children], and a node that is neither a region circle nor a
    descendant of one keeps its [x] and [y] as well. *)
Theorem positionRegionCircles_frame (packWidth packHeight : Js.number)
  (nodes : store) :
  let nodes' := fst (positionRegionCircles packWidth packHeight nodes) in
  length nodes' = length nodes /\
  forall j d, nodes !! j = Some d ->
    exists d', nodes' !! j = Some d' /\
      Node.r d' = Node.r d /\ Node.depth d' = Node.depth d /\
      Node.parent d' = Node.parent d /\ Node.data d' = Node.data d /\
      Node.children d' = Node.children d /\
      (~ attached nodes j ->
       Node.x d' = Node.x d /\ Node.y d' = Node.y d).
Proof.
  destruct (positionRegionCircles_keeps packWidth packHeight nodes)
    as [Hlen H].
  split; [exact Hlen|]. intros j d Hd.
  destruct (H j d Hd)
    as [d' [Hd' [(Hdata & Hdepth & Hparent & Hch & Hr) Hsame]]].
  exists d'. split; [exact Hd'|]. split; [exact Hr|]. split; [exact Hdepth|].
  split; [exact Hparent|]. split; [exact Hdata|]. split; [exact Hch|].
  intros Hno. rewrite (Hsame Hno). split; reflexivity.
Qed.

Lemma positionRegionCircles_frame_witness :
  exists d',
    fst (positionRegionCircles 800 600 fourRegions) !! 0 = Some d' /\
    Node.r d' = 320%float /\ Node.x d' = 480%float /\ Node.y d' = 320%float.
Proof.
  destruct (proj2 (positionRegionCircles_frame 800 600 fourRegions) 0
              (sampleRoot [1; 2; 3; 4]) eq_refl)
    as [d' [Hd' [Hr [_ [_ [_ [_ Hcentre]]]]]]].
  exists d'. split; [exact Hd'|]. split; [exact Hr|]. apply Hcentre.
  intros [[d [Hd Hdepth]] | [i [_ [d [Hd [Hdepth _]]]]]];
    injection Hd as <-; simpl in Hdepth; lia.
Defined.

(** *** Regions without a quadrant *)

Lemma seedPositions_cons (packWidth packHeight : number) (region : Region.t)
  (rest : list Region.t) (positions : gmap string Point.t) :
  seedPositions packWidth packHeight (region :: rest) positions =
  match Region.quadrant region with
  | Some q =>
      seedPositions packWidth packHeight rest
        (<[Region.name region :=
             Point.mk (Bounds.centerX (quadrantBounds packWidth packHeight q))
                      (Bounds.centerY (quadrantBounds packWidth packHeight q))]>
           positions)
  | None => Throw (TypeError "Cannot read properties of undefined")
  end.
Proof.
  simpl. unfold boundsOf. destruct (Region.quadrant region); reflexivity.
Qed.

Lemma seedPositions_throws (packWidth packHeight : number)
  (regions : list Region.t) (region : Region.t) :
  region ∈ regions -> Region.quadrant region = None ->
  forall positions,
    seedPositions packWidth packHeight regions positions =
    Throw (TypeError "Cannot read properties of undefined").
Proof.
  intros Hin Hnone. induction regions as [|region0 rest IH]; intros positions;
    [inversion Hin|].
  rewrite seedPositions_cons.
  apply elem_of_cons in Hin as [<- | Hin]; [rewrite Hnone; reflexivity|].
  destruct (Region.quadrant region0); [|reflexivity]. now apply IH.
Qed.

Lemma unknown_region_throws (packWidth packHeight : number) (nodes : store)
  (i : nat) (d : Node.t) :
  nodes !! i = Some d -> Node.depth d = 1 ->
  quadrants !! NodeData.name (Node.data d) = None ->
  positionRegionCircles packWidth packHeight nodes =
  (nodes, Abrupt (TypeError "Cannot read properties of undefined")).
Proof.
  intros Hd Hdepth Hq. unfold positionRegionCircles.
  assert (Hi : i ∈ indicesWhere (fun d => (Node.depth d =? 1)%nat) nodes).
  { apply indicesWhere_spec. exists d. split; [exact Hd|].
    now apply Nat.eqb_eq. }
  destruct (length nodes =? 0)%nat eqn:Hlen.
  { apply Nat.eqb_eq in Hlen. apply lookup_lt_Some in Hd. lia. }
  destruct (length (indicesWhere _ nodes) =? 0)%nat eqn:Hregions.
  { apply Nat.eqb_eq, nil_length_inv in Hregions. rewrite Hregions in Hi.
    inversion Hi. }
  unfold calculateOptimalPositions, optimise.
  rewrite (seedPositions_throws packWidth packHeight _
             (makeRegion quadrants d)).
  - reflexivity.
  - apply list_elem_of_fmap. exists d. split; [reflexivity|].
    apply list_elem_of_omap. exists i. split; [exact Hi | exact Hd].
  - exact Hq.
Qed.

(** *** The operation returns when every region circle has a quadrant *)

Lemma keeps_parentsFirst (mayMove : nat -> Prop) (nodes nodes' : store) :
  keeps mayMove nodes nodes' -> parentsFirst nodes -> parentsFirst nodes'.
Proof.
  intros Hk Hpf j d' p Hd' Hp.
  destruct (keeps_depth _ _ _ _ _ Hk Hd') as [d [Hd (_ & _ & Hparent & _)]].
  apply (Hpf j d p Hd). congruence.
Qed.

Lemma placeRegion_keeps_shape (positions : gmap string Point.t)
  (originalPositions : gmap nat Point.t) (nodes : store) (i : nat) :
  keeps (fun _ => True) nodes
    (fst (placeRegion positions originalPositions nodes i)).
Proof.
  unfold placeRegion.
  destruct (nodes !! i) as [regionNode|] eqn:Hnode; [|apply keeps_refl].
  destruct (negb _ && _); [|apply keeps_refl].
  destruct (positions !! NodeData.name (Node.data regionNode)) as [newPos|];
    [|apply keeps_refl].
  assert (Hmoved : keeps (fun _ => True) nodes
            (<[i := setXY regionNode (Point.x newPos) (Point.y newPos)]> nodes))
    by exact (keeps_insert _ _ _ _ _ Hnode (sameButCentre_setXY _ _ _) I).
  destruct (childNodes _ i) as [[|c children]|]; try exact Hmoved.
  destruct (originalPositions !! i) as [original|]; [|exact Hmoved].
  cbn [fst]. eapply keeps_trans; [exact Hmoved|].
  apply moveChildren_keeps. intros j _. exact I.
Qed.

Lemma placeRegion_normal (positions : gmap string Point.t)
  (originalPositions : gmap nat Point.t) (nodes : store) (i : nat) :
  parentsFirst nodes -> is_Some (originalPositions !! i) ->
  snd (placeRegion positions originalPositions nodes i) = Normal.
Proof.
  intros Hpf [original Horiginal]. unfold placeRegion.
  destruct (nodes !! i) as [regionNode|] eqn:Hnode; [|reflexivity].
  destruct (positions !! NodeData.name (Node.data regionNode)) as [newPos|].
  - destruct (negb _ && _); [|reflexivity].
    assert (Hpf' : parentsFirst
              (<[i := setXY regionNode (Point.x newPos) (Point.y newPos)]> nodes)).
    { refine (keeps_parentsFirst (fun _ => True) _ _ _ Hpf).
      exact (keeps_insert _ _ _ _ _ Hnode (sameButCentre_setXY _ _ _) I). }
    unfold childNodes.
    destruct (childNodesAmong_total _ i (seq 0 (length
                (<[i := setXY regionNode (Point.x newPos) (Point.y newPos)]> nodes)))
                Hpf') as [[|c children] ->]; [reflexivity|].
    rewrite Horiginal. reflexivity.
  - rewrite bool_decide_eq_false_2, andb_false_r; [reflexivity|].
    intros [p Hp]. discriminate.
Qed.

Lemma placeRegions_normal (positions : gmap string Point.t)
  (originalPositions : gmap nat Point.t) (regionNodes : list nat) :
  (forall i, i ∈ regionNodes -> is_Some (originalPositions !! i)) ->
  forall nodes,
    parentsFirst nodes ->
    snd (placeRegions positions originalPositions regionNodes nodes) = Normal.
Proof.
  induction regionNodes as [|i rest IH]; intros Horiginals nodes Hpf;
    [reflexivity|].
  rewrite placeRegions_cons.
  rewrite (placeRegion_normal positions originalPositions nodes i Hpf)
    by (apply Horiginals; left).
  apply IH.
  - intros k Hk. apply Horiginals. now right.
  - exact (keeps_parentsFirst _ _ _
             (placeRegion_keeps_shape positions originalPositions nodes i) Hpf).
Qed.

Lemma recordOriginals_covers (centreX centreY : number) (nodes : store)
  (regionNodes : list nat) (i : nat) :
  i ∈ regionNodes -> is_Some (nodes !! i) ->
  is_Some (recordOriginals centreX centreY nodes regionNodes !! i).
Proof.
  intros Hin [d Hd]. unfold recordOriginals.
  assert (Hgen : forall (originals : gmap nat Point.t),
            is_Some (originals !! i) \/ i ∈ regionNodes ->
            is_Some (foldl (fun originalPositions i =>
                match nodes !! i with
                | Some regionNode =>
                    <[i := Point.mk (Js.or (Node.x regionNode) centreX)
                                    (Js.or (Node.y regionNode) centreY)]>
                      originalPositions
                | None => originalPositions
                end) originals regionNodes !! i)).
  { clear Hin. induction regionNodes as [|k rest IH]; intros originals H.
    - destruct H as [H|H]; [exact H | inversion H].
    - simpl. apply IH. rewrite elem_of_cons in H.
      destruct H as [H | [<- | H]]; auto.
      + destruct (nodes !! k); [|auto]. rewrite lookup_insert_is_Some'. auto.
      + rewrite Hd. rewrite lookup_insert_is_Some'. auto. }
  apply Hgen. now right.
Qed.

Lemma positionRegionCircles_returns (packWidth packHeight : number)
  (nodes : store) :
  parentsFirst nodes ->
  (forall i d, nodes !! i = Some d -> Node.depth d = 1 ->
     is_Some (quadrants !! NodeData.name (Node.data d))) ->
  snd (positionRegionCircles packWidth packHeight nodes) = Normal.
Proof.
  intros Hpf Hknown. unfold positionRegionCircles.
  destruct (length nodes =? 0)%nat; [reflexivity|].
  destruct (length (indicesWhere _ nodes) =? 0)%nat; [reflexivity|].
  destruct (calculateOptimalPositions_returns packWidth packHeight quadrants
              (omap (fun i => nodes !! i)
                 (indicesWhere (fun d => (Node.depth d =? 1)%nat) nodes)))
    as [positions ->].
  - intros node Hnode. apply list_elem_of_omap in Hnode as [i [Hi Hd]].
    apply indicesWhere_spec in Hi as [d [Hd' Hdepth]].
    rewrite Hd in Hd'. injection Hd' as <-.
    apply (Hknown i node Hd). now apply Nat.eqb_eq.
  - apply placeRegions_normal; [|exact Hpf].
    intros i Hi. apply recordOriginals_covers; [exact Hi|].
    apply indicesWhere_spec in Hi as [d [Hd _]]. eauto.
Qed.

End MoverFacts.

(** ** Descendants move with their region *)

Module RigidFacts.
Import Js JsFacts Layout OptimiserFacts MoverFacts.

(** *** One region ancestor *)

Lemma climb_dangling (nodes : store) (fuel p a : nat) (da : Node.t) :
  nodes !! p = None -> nodes !! a = Some da ->
  climb nodes fuel (Some p) a <> Some true.
Proof.
  intros Hp Ha. destruct fuel as [|fuel]; simpl;
    destruct (p =? a)%nat eqn:Heq;
    try (apply Nat.eqb_eq in Heq; congruence); try discriminate.
  rewrite Hp. simpl. rewrite climb_None. discriminate.
Qed.

(** An ancestor is not deeper than the node the walk starts from. *)
Lemma climb_depth_le (nodes : store) (a : nat) (da : Node.t) :
  depthsFollow nodes -> nodes !! a = Some da ->
  forall fuel c dc,
    nodes !! c = Some dc ->
    climb nodes fuel (Some c) a = Some true ->
    Node.depth da <= Node.depth dc.
Proof.
  intros Hdf Ha fuel. induction fuel as [|fuel IH]; intros c dc Hc H.
  - simpl in H. destruct (c =? a)%nat eqn:Heq; [|discriminate].
    apply Nat.eqb_eq in Heq. subst c. rewrite Hc in Ha. injection Ha as <-. lia.
  - rewrite climb_Some in H. destruct (c =? a)%nat eqn:Heq.
    + apply Nat.eqb_eq in Heq. subst c. rewrite Hc in Ha.
      injection Ha as <-. lia.
    + rewrite Hc in H. simpl in H.
      destruct (Node.parent dc) as [p|] eqn:Hp;
        [|rewrite climb_None in H; discriminate].
      destruct (nodes !! p) as [dp|] eqn:Hdp.
      * pose proof (IH p dp Hdp H). pose proof (Hdf c dc p dp Hc Hp Hdp). lia.
      * destruct (climb_dangling nodes fuel p a da Hdp Ha H).
Qed.

(** Two ancestors of the same depth, found from the same node, are one. *)
Lemma climb_unique (nodes : store) (a a' : nat) (da da' : Node.t) :
  depthsFollow nodes ->
  nodes !! a = Some da -> nodes !! a' = Some da' ->
  Node.depth da = Node.depth da' ->
  forall fuel c,
    climb nodes fuel (Some c) a = Some true ->
    climb nodes fuel (Some c) a' = Some true ->
    a = a'.
Proof.
  intros Hdf Ha Ha' Hdepth fuel.
  assert (Hstrict : forall b b' (db db' : Node.t) fuel c,
            nodes !! b = Some db -> nodes !! b' = Some db' ->
            Node.depth db = Node.depth db' ->
            (c =? b)%nat = true -> (c =? b')%nat = false ->
            climb nodes fuel (Some c) b' = Some true -> False).
  { intros b b' db db' fuel0 c Hb Hb' Heq Hcb Hcb' H.
    apply Nat.eqb_eq in Hcb. subst c.
    destruct fuel0 as [|fuel0]; simpl in H; rewrite Hcb' in H; [discriminate|].
    rewrite Hb in H. simpl in H.
    destruct (Node.parent db) as [p|] eqn:Hp;
      [|rewrite climb_None in H; discriminate].
    destruct (nodes !! p) as [dp|] eqn:Hdp.
    - pose proof (climb_depth_le nodes b' db' Hdf Hb' fuel0 p dp Hdp H).
      pose proof (Hdf b db p dp Hb Hp Hdp). lia.
    - exact (climb_dangling nodes fuel0 p b' db' Hdp Hb' H). }
  induction fuel as [|fuel IH]; intros c H H'.
  - simpl in H, H'.
    destruct (c =? a)%nat eqn:Heq; [|discriminate].
    destruct (c =? a')%nat eqn:Heq'; [|discriminate].
    apply Nat.eqb_eq in Heq, Heq'. congruence.
  - destruct (c =? a)%nat eqn:Heq; destruct (c =? a')%nat eqn:Heq'.
    + apply Nat.eqb_eq in Heq, Heq'. congruence.
    + destruct (Hstrict a a' da da' (S fuel) c Ha Ha' Hdepth Heq Heq' H').
    + destruct (Hstrict a' a da' da (S fuel) c Ha' Ha (eq_sym Hdepth) Heq'
                  Heq H).
    + rewrite climb_Some, Heq in H. rewrite climb_Some, Heq' in H'.
      destruct (nodes !! c ≫= Node.parent) as [p|];
        [|rewrite climb_None in H; discriminate].
      exact (IH p H H').
Qed.

(** A circle lies below one region circle at most. *)
Lemma belowRegion_unique (nodes : store) (j i k : nat) :
  depthsFollow nodes ->
  belowRegion nodes j i -> belowRegion nodes j k -> i = k.
Proof.
  intros Hdf [[di [Hdi Hdepthi]] [d [Hd [_ Hdesc]]]]
             [[dk [Hdk Hdepthk]] [d' [_ [_ Hdesc']]]].
  unfold isDescendantOf in Hdesc, Hdesc'.
  destruct (nodes !! j ≫= Node.parent) as [p|];
    [|rewrite climb_None in Hdesc; discriminate].
  refine (climb_unique nodes i k di dk Hdf Hdi Hdk _ _ p Hdesc Hdesc').
  congruence.
Qed.

(** *** The children found for a region *)

Lemma childNodesAmong_cons (nodes : store) (regionNode c : nat)
  (rest : list nat) :
  childNodesAmong nodes regionNode (c :: rest) =
  match
    match nodes !! c with
    | Some d =>
        if (1 <? Node.depth d)%nat then isDescendantOf nodes c regionNode
        else Some false
    | None => Some false
    end
  with
  | Some keep =>
      match childNodesAmong nodes regionNode rest with
      | Some kept => Some (if keep then c :: kept else kept)
      | None => None
      end
  | None => None
  end.
Proof. reflexivity. Qed.

Lemma childNodesAmong_complete (nodes : store) (regionNode : nat)
  (candidates : list nat) (j : nat) (d : Node.t) :
  nodes !! j = Some d -> 1 < Node.depth d ->
  isDescendantOf nodes j regionNode = Some true ->
  forall kept,
    childNodesAmong nodes regionNode candidates = Some kept ->
    j ∈ candidates -> j ∈ kept.
Proof.
  intros Hd Hdepth Hdesc. apply Nat.ltb_lt in Hdepth.
  induction candidates as [|c rest IH]; intros kept H Hin; [inversion Hin|].
  rewrite childNodesAmong_cons in H.
  destruct (match nodes !! c with Some _ => _ | None => _ end)
    as [keep|] eqn:Hkeep; [|discriminate].
  destruct (childNodesAmong nodes regionNode rest) as [kept'|]; [|discriminate].
  injection H as <-. apply elem_of_cons in Hin as [-> | Hin].
  - rewrite Hd, Hdepth, Hdesc in Hkeep. injection Hkeep as <-. left.
  - destruct keep; [right|]; exact (IH _ eq_refl Hin).
Qed.

Lemma childNodesAmong_sublist (nodes : store) (regionNode : nat)
  (candidates : list nat) :
  forall kept,
    childNodesAmong nodes regionNode candidates = Some kept ->
    sublist kept candidates.
Proof.
  induction candidates as [|c rest IH]; intros kept H.
  - injection H as <-. constructor.
  - rewrite childNodesAmong_cons in H.
    destruct (match nodes !! c with Some _ => _ | None => _ end)
      as [keep|]; [|discriminate].
    destruct (childNodesAmong nodes regionNode rest) as [kept'|]; [|discriminate].
    injection H as <-. destruct keep.
    + apply sublist_skip. exact (IH _ eq_refl).
    + apply sublist_cons. exact (IH _ eq_refl).
Qed.

Lemma childNodes_NoDup (nodes : store) (regionNode : nat) (kept : list nat) :
  childNodes nodes regionNode = Some kept -> NoDup kept.
Proof.
  intros H. apply childNodesAmong_sublist in H.
  exact (sublist_NoDup _ _ (NoDup_seq 0 (length nodes)) H).
Qed.

(** *** The child loop *)

Lemma moveChild_lookup (original newPos : Point.t) (nodes : store) (c m : nat) :
  moveChild original newPos nodes c !! m =
  if decide (m = c) then rigidlyMoved original newPos <$> nodes !! c
  else nodes !! m.
Proof.
  unfold moveChild. destruct (nodes !! c) as [childNode|] eqn:Hc.
  - destruct (decide (m = c)) as [->|Hne].
    + rewrite list_lookup_insert_eq
        by (now apply lookup_lt_Some with childNode).
      reflexivity.
    + rewrite list_lookup_insert_ne by congruence. reflexivity.
  - destruct (decide (m = c)) as [->|Hne]; [exact Hc | reflexivity].
Qed.

Lemma moveChildren_lookup (original newPos : Point.t) (children : list nat) :
  NoDup children ->
  forall nodes m,
    foldl (moveChild original newPos) nodes children !! m =
    if decide (m ∈ children) then rigidlyMoved original newPos <$> nodes !! m
    else nodes !! m.
Proof.
  induction 1 as [|c rest Hfresh _ IH]; intros nodes m.
  - simpl.
    destruct (decide (m ∈ [])) as [Hin|]; [inversion Hin | reflexivity].
  - simpl. rewrite IH, moveChild_lookup.
    destruct (decide (m ∈ rest)) as [Hrest|Hrest];
      destruct (decide (m = c)) as [->|Hne];
      destruct (decide (_ ∈ c :: rest)) as [Hin|Hin];
      try reflexivity; try contradiction.
    + exfalso. apply Hin. now right.
    + exfalso. apply Hin. left.
    + apply elem_of_cons in Hin as [? | ?]; contradiction.
Qed.

Lemma recordOriginals_lookup (centreX centreY : number) (nodes : store)
  (regionNodes : list nat) (i : nat) (regionNode : Node.t) :
  i ∈ regionNodes -> nodes !! i = Some regionNode ->
  recordOriginals centreX centreY nodes regionNodes !! i =
  Some (Point.mk (Js.or (Node.x regionNode) centreX)
                 (Js.or (Node.y regionNode) centreY)).
Proof.
  intros Hin Hnode. unfold recordOriginals.
  assert (Hgen : forall (originals : gmap nat Point.t),
            originals !! i =
              Some (Point.mk (Js.or (Node.x regionNode) centreX)
                             (Js.or (Node.y regionNode) centreY))
            \/ i ∈ regionNodes ->
            foldl (fun originalPositions i =>
                match nodes !! i with
                | Some regionNode =>
                    <[i := Point.mk (Js.or (Node.x regionNode) centreX)
                                    (Js.or (Node.y regionNode) centreY)]>
                      originalPositions
                | None => originalPositions
                end) originals regionNodes !! i =
            Some (Point.mk (Js.or (Node.x regionNode) centreX)
                           (Js.or (Node.y regionNode) centreY))).
  { clear Hin. induction regionNodes as [|k rest IH]; intros originals H.
    - destruct H as [H|H]; [exact H | inversion H].
    - simpl. apply IH. rewrite elem_of_cons in H.
      destruct (decide (k = i)) as [->|Hne].
      + left. rewrite Hnode. apply lookup_insert_eq.
      + destruct H as [H | [H | H]]; [|congruence|auto].
        left. destruct (nodes !! k); [|exact H].
        rewrite lookup_insert_ne by exact Hne. exact H. }
  apply Hgen. now right.
Qed.

(** *** One region through the loop over the regions *)

Section OneRegion.

Variable positions : gmap string Point.t.
Variable originalPositions : gmap nat Point.t.
Variable nodes0 : store.
Variable i : nat.
Variable regionNode : Node.t.
Variable newPos : Point.t.

Hypothesis Hparents : parentsFirst nodes0.
Hypothesis Hregion : nodes0 !! i = Some regionNode.
Hypothesis Hregion_depth : Node.depth regionNode = 1.
Hypothesis Hname : NodeData.name (Node.data regionNode) <> "".
Hypothesis Hposition :
  positions !! NodeData.name (Node.data regionNode) = Some newPos.

(** The step for the region puts it at its new centre. *)
Lemma region_step_at (nodes : store) :
  nodes !! i = Some regionNode ->
  fst (placeRegion positions originalPositions nodes i) !! i =
    Some (setXY regionNode (Point.x newPos) (Point.y newPos)).
Proof.
  intros Hi. unfold placeRegion. rewrite Hi, Hposition.
  apply String.eqb_neq in Hname. rewrite Hname.
  rewrite bool_decide_eq_true_2 by eauto. simpl negb. simpl andb.
  set (nodes1 :=
         <[i := setXY regionNode (Point.x newPos) (Point.y newPos)]> nodes).
  assert (Hi1 : nodes1 !! i =
                Some (setXY regionNode (Point.x newPos) (Point.y newPos))).
  { apply list_lookup_insert_eq. now apply lookup_lt_Some with regionNode. }
  destruct (childNodes nodes1 i) as [children|] eqn:Hchildren; [|exact Hi1].
  assert (Hout : i ∉ children).
  { intros Hi'. destruct (childNodesAmong_spec _ _ _ _ Hchildren i Hi')
      as [_ [d [Hd [Hdepth _]]]].
    rewrite Hi1 in Hd. injection Hd as <-. simpl in Hdepth. lia. }
  destruct children as [|c children]; [exact Hi1|].
  destruct (originalPositions !! i) as [original|]; [|exact Hi1].
  cbn [fst].
  rewrite (moveChildren_lookup original newPos (c :: children)
             (childNodes_NoDup _ _ _ Hchildren)).
  destruct (decide (i ∈ c :: children)); [contradiction | exact Hi1].
Qed.

(** The step for another region leaves it alone. *)
Lemma region_step_elsewhere (nodes : store) (k : nat) :
  keeps (fun _ => True) nodes0 nodes -> isRegion nodes0 k -> k <> i ->
  fst (placeRegion positions originalPositions nodes k) !! i = nodes !! i.
Proof.
  intros Hk Hregionk Hne.
  pose proof (placeRegion_keeps_with (movedWith nodes0 k) positions
                originalPositions nodes0 nodes k Hk Hregionk (fun _ H => H))
    as [_ Hkeeps].
  destruct Hk as [_ Hk]. destruct (Hk i regionNode Hregion) as [d [Hd _]].
  destruct (Hkeeps i d Hd) as [d' [Hd' [_ Hsame]]].
  rewrite Hd', Hd, Hsame; [reflexivity|].
  intros [Heq | [_ [d0 [Hd0 [Hdepth _]]]]]; [congruence|].
  rewrite Hregion in Hd0. injection Hd0 as <-. lia.
Qed.

Lemma region_steps_elsewhere (regionNodes : list nat) :
  (forall k, k ∈ regionNodes -> isRegion nodes0 k /\ k <> i) ->
  forall nodes,
    keeps (fun _ => True) nodes0 nodes ->
    fst (placeRegions positions originalPositions regionNodes nodes) !! i
      = nodes !! i.
Proof.
  induction regionNodes as [|k rest IH]; intros Hall nodes Hk; [reflexivity|].
  rewrite placeRegions_cons.
  destruct (Hall k) as [Hregionk Hne]; [left|].
  pose proof (region_step_elsewhere nodes k Hk Hregionk Hne) as Hi.
  destruct (snd (placeRegion positions originalPositions nodes k));
    [|exact Hi|exact Hi].
  rewrite <- Hi. apply IH.
  - intros k' Hk'. apply Hall. now right.
  - exact (keeps_trans _ _ _ _ Hk
             (placeRegion_keeps_shape positions originalPositions nodes k)).
Qed.

Lemma region_through (regionNodes : list nat) :
  NoDup regionNodes -> i ∈ regionNodes ->
  (forall k, k ∈ regionNodes -> isRegion nodes0 k) ->
  (forall k, k ∈ regionNodes -> is_Some (originalPositions !! k)) ->
  forall nodes,
    keeps (fun _ => True) nodes0 nodes ->
    nodes !! i = Some regionNode ->
    fst (placeRegions positions originalPositions regionNodes nodes) !! i =
      Some (setXY regionNode (Point.x newPos) (Point.y newPos)).
Proof.
  induction 1 as [|k rest Hfresh Hnodup IH];
    intros Hin Hregions Horiginals nodes Hk Hi; [inversion Hin|].
  rewrite placeRegions_cons.
  rewrite (placeRegion_normal positions originalPositions nodes k)
    by (eauto using keeps_parentsFirst; apply Horiginals; left).
  assert (Hk1 : keeps (fun _ => True) nodes0
            (fst (placeRegion positions originalPositions nodes k)))
    by exact (keeps_trans _ _ _ _ Hk
                (placeRegion_keeps_shape positions originalPositions nodes k)).
  destruct (decide (k = i)) as [->|Hne].
  - rewrite <- (region_step_at nodes Hi).
    apply region_steps_elsewhere; [|exact Hk1].
    intros k' Hk'. split; [apply Hregions; now right|]. congruence.
  - pose proof (region_step_elsewhere nodes k Hk (Hregions k ltac:(left)) Hne)
      as Hi1.
    apply elem_of_cons in Hin as [Heq | Hin]; [congruence|].
    apply IH; auto.
    + intros k' Hk'. apply Hregions. now right.
    + intros k' Hk'. apply Horiginals. now right.
    + congruence.
Qed.

End OneRegion.

(** *** One descendant through the loop over the regions *)

Section OneDescendant.

Variable positions : gmap string Point.t.
Variable originalPositions : gmap nat Point.t.
Variable nodes0 : store.
Variables (i j : nat) (regionNode childNode : Node.t).
Variables (newPos original : Point.t).

Hypothesis Hparents : parentsFirst nodes0.
Hypothesis Hdepths : depthsFollow nodes0.
Hypothesis Hregion : nodes0 !! i = Some regionNode.
Hypothesis Hregion_depth : Node.depth regionNode = 1.
Hypothesis Hchild : nodes0 !! j = Some childNode.
Hypothesis Hchild_depth : 1 < Node.depth childNode.
Hypothesis Hbelow : isDescendantOf nodes0 j i = Some true.
Hypothesis Hname : NodeData.name (Node.data regionNode) <> "".
Hypothesis Hposition :
  positions !! NodeData.name (Node.data regionNode) = Some newPos.
Hypothesis Horiginal : originalPositions !! i = Some original.

Lemma child_is_not_region : j <> i.
Proof. intros ->. rewrite Hregion in Hchild. injection Hchild as <-. lia. Qed.

Lemma child_below_region : belowRegion nodes0 j i.
Proof.
  split; [exists regionNode; auto|]. exists childNode. auto.
Qed.

(** The step for the region of the child moves both. *)
Lemma step_at_region (nodes : store) :
  keeps (fun _ => True) nodes0 nodes ->
  nodes !! i = Some regionNode -> nodes !! j = Some childNode ->
  fst (placeRegion positions originalPositions nodes i) !! i =
    Some (setXY regionNode (Point.x newPos) (Point.y newPos)) /\
  fst (placeRegion positions originalPositions nodes i) !! j =
    Some (rigidlyMoved original newPos childNode).
Proof.
  intros Hk Hi Hj. unfold placeRegion. rewrite Hi, Hposition.
  apply String.eqb_neq in Hname. rewrite Hname.
  rewrite bool_decide_eq_true_2 by eauto. simpl negb. simpl andb.
  set (nodes1 :=
         <[i := setXY regionNode (Point.x newPos) (Point.y newPos)]> nodes).
  assert (Hmoved : keeps (fun _ => True) nodes nodes1)
    by exact (keeps_insert _ _ _ _ _ Hi (sameButCentre_setXY _ _ _) I).
  assert (Hk1 : keeps (fun _ => True) nodes0 nodes1)
    by exact (keeps_trans _ _ _ _ Hk Hmoved).
  assert (Hi1 : nodes1 !! i =
                Some (setXY regionNode (Point.x newPos) (Point.y newPos))).
  { apply list_lookup_insert_eq. now apply lookup_lt_Some with regionNode. }
  assert (Hj1 : nodes1 !! j = Some childNode).
  { unfold nodes1. rewrite list_lookup_insert_ne; [exact Hj|].
    intros Heq. exact (child_is_not_region (eq_sym Heq)). }
  destruct (childNodesAmong_total nodes1 i (seq 0 (length nodes1))
              (keeps_parentsFirst _ _ _ Hk1 Hparents)) as [children Hchildren].
  fold (childNodes nodes1 i) in Hchildren. rewrite Hchildren.
  assert (Hin : j ∈ children).
  { refine (childNodesAmong_complete nodes1 i _ j childNode Hj1 Hchild_depth _
              children Hchildren _).
    - rewrite (keeps_isDescendantOf _ _ _ j i Hk1). exact Hbelow.
    - apply elem_of_seq. apply lookup_lt_Some in Hj1. lia. }
  assert (Hout : i ∉ children).
  { intros Hi'. destruct (childNodesAmong_spec _ _ _ _ Hchildren i Hi')
      as [_ [d [Hd [Hdepth _]]]].
    rewrite Hi1 in Hd. injection Hd as <-. simpl in Hdepth. lia. }
  destruct children as [|c children]; [inversion Hin|].
  rewrite Horiginal. cbn [fst].
  rewrite !(moveChildren_lookup original newPos (c :: children)
              (childNodes_NoDup _ _ _ Hchildren)).
  destruct (decide (i ∈ c :: children)); [contradiction|].
  destruct (decide (j ∈ c :: children)); [|contradiction].
  rewrite Hi1, Hj1. split; reflexivity.
Qed.

(** The step for another region leaves both alone. *)
Lemma step_elsewhere (nodes : store) (k : nat) :
  keeps (fun _ => True) nodes0 nodes -> isRegion nodes0 k -> k <> i ->
  fst (placeRegion positions originalPositions nodes k) !! i = nodes !! i /\
  fst (placeRegion positions originalPositions nodes k) !! j = nodes !! j.
Proof.
  intros Hk Hregionk Hne.
  pose proof (placeRegion_keeps_with (movedWith nodes0 k) positions
                originalPositions nodes0 nodes k Hk Hregionk (fun _ H => H))
    as [_ Hkeeps].
  assert (Hsame : forall m, is_Some (nodes0 !! m) -> ~ movedWith nodes0 k m ->
            fst (placeRegion positions originalPositions nodes k) !! m
            = nodes !! m).
  { intros m [d0 Hd0] Hnot. destruct Hk as [_ Hk].
    destruct (Hk m d0 Hd0) as [d [Hd _]].
    destruct (Hkeeps m d Hd) as [d' [Hd' [_ Hsame]]].
    rewrite Hd', Hd, (Hsame Hnot). reflexivity. }
  split; apply Hsame; eauto.
  - intros [Heq | [_ [d [Hd [Hdepth _]]]]]; [congruence|].
    rewrite Hregion in Hd. injection Hd as <-. lia.
  - intros [Heq | Hbelowk].
    + destruct Hregionk as [dk [Hdk Hdepthk]]. subst k.
      rewrite Hchild in Hdk. injection Hdk as <-. lia.
    + apply Hne. symmetry.
      exact (belowRegion_unique nodes0 j i k Hdepths child_below_region
               Hbelowk).
Qed.

Lemma steps_elsewhere (regionNodes : list nat) :
  (forall k, k ∈ regionNodes -> isRegion nodes0 k /\ k <> i) ->
  forall nodes,
    keeps (fun _ => True) nodes0 nodes ->
    fst (placeRegions positions originalPositions regionNodes nodes) !! i
      = nodes !! i /\
    fst (placeRegions positions originalPositions regionNodes nodes) !! j
      = nodes !! j.
Proof.
  induction regionNodes as [|k rest IH]; intros Hall nodes Hk; [auto|].
  rewrite placeRegions_cons.
  destruct (Hall k) as [Hregionk Hne]; [left|].
  destruct (step_elsewhere nodes k Hk Hregionk Hne) as [Hi Hj].
  destruct (snd (placeRegion positions originalPositions nodes k));
    [|auto|auto].
  rewrite <- Hi, <- Hj. apply IH.
  - intros k' Hk'. apply Hall. now right.
  - exact (keeps_trans _ _ _ _ Hk
             (placeRegion_keeps_shape positions originalPositions nodes k)).
Qed.

Lemma through_regions (regionNodes : list nat) :
  NoDup regionNodes -> i ∈ regionNodes ->
  (forall k, k ∈ regionNodes -> isRegion nodes0 k) ->
  (forall k, k ∈ regionNodes -> is_Some (originalPositions !! k)) ->
  forall nodes,
    keeps (fun _ => True) nodes0 nodes ->
    nodes !! i = Some regionNode -> nodes !! j = Some childNode ->
    fst (placeRegions positions originalPositions regionNodes nodes) !! i =
      Some (setXY regionNode (Point.x newPos) (Point.y newPos)) /\
    fst (placeRegions positions originalPositions regionNodes nodes) !! j =
      Some (rigidlyMoved original newPos childNode).
Proof.
  induction 1 as [|k rest Hfresh Hnodup IH];
    intros Hin Hregions Horiginals nodes Hk Hi Hj; [inversion Hin|].
  rewrite placeRegions_cons.
  rewrite (placeRegion_normal positions originalPositions nodes k)
    by (eauto using keeps_parentsFirst; apply Horiginals; left).
  assert (Hk1 : keeps (fun _ => True) nodes0
            (fst (placeRegion positions originalPositions nodes k)))
    by exact (keeps_trans _ _ _ _ Hk
                (placeRegion_keeps_shape positions originalPositions nodes k)).
  destruct (decide (k = i)) as [->|Hne].
  - destruct (step_at_region nodes Hk Hi Hj) as [Hi1 Hj1].
    rewrite <- Hi1, <- Hj1. apply steps_elsewhere; [|exact Hk1].
    intros k' Hk'. split; [apply Hregions; now right|]. congruence.
  - destruct (step_elsewhere nodes k Hk (Hregions k ltac:(left)) Hne)
      as [Hi1 Hj1].
    apply elem_of_cons in Hin as [Heq | Hin]; [congruence|].
    apply IH; auto.
    + intros k' Hk'. apply Hregions. now right.
    + intros k' Hk'. apply Horiginals. now right.
    + congruence.
    + congruence.
Qed.

End OneDescendant.

Lemma indicesWhere_NoDup (keep : Node.t -> bool) (nodes : store) :
  NoDup (indicesWhere keep nodes).
Proof.
  unfold indicesWhere. apply NoDup_ListNoDup, List.NoDup_filter, seq_NoDup.
Qed.



(** C2, amended: in a hierarchy with parents first whose region circles
    have distinct names, when [calculateOptimalPositions] returns, every
    region circle has a quadrant and a returned position, which is its final
    centre, and that position obeys the clamp to the bound rectangle of the
    quadrant inset by the radius plus the padding: unless a coordinate is
    NaN, it is at least the lower edge of the inset rectangle, and at most
    the upper edge when the inset rectangle is not empty in that
    direction. *)
Theorem region_centres_clamped (packWidth packHeight : Js.number)
  (nodes : store) (positions : gmap string Point.t) :
  parentsFirst nodes ->
  NoDup ((fun node => NodeData.name (Node.data node)) <$>
           omap (fun k => nodes !! k)
             (indicesWhere (fun d => (Node.depth d =? 1)%nat) nodes)) ->
  calculateOptimalPositions packWidth packHeight
    (omap (fun k => nodes !! k)
       (indicesWhere (fun d => (Node.depth d =? 1)%nat) nodes)) quadrants
    = Ok positions ->
  forall i regionNode,
    nodes !! i = Some regionNode -> Node.depth regionNode = 1 ->
    exists q p regionNode',
      quadrants !! NodeData.name (Node.data regionNode) = Some q /\
      positions !! NodeData.name (Node.data regionNode) = Some p /\
      fst (positionRegionCircles packWidth packHeight nodes) !! i
        = Some regionNode' /\
      Node.x regionNode' = Point.x p /\ Node.y regionNode' = Point.y p /\
      insetOf packWidth packHeight clampedTo (makeRegion quadrants regionNode)
        q p.
Proof.
  intros Hpf Hnodup Hcalc i regionNode Hi Hdepth.
  assert (Hin : i ∈ indicesWhere (fun d => (Node.depth d =? 1)%nat) nodes).
  { apply indicesWhere_spec. exists regionNode. split; [exact Hi|].
    now apply Nat.eqb_eq. }
  assert (Hvalue : regionNode ∈
            omap (fun k => nodes !! k)
              (indicesWhere (fun d => (Node.depth d =? 1)%nat) nodes)).
  { apply list_elem_of_omap. exists i. split; [exact Hin | exact Hi]. }
  destruct (calculateOptimalPositions_covers _ _ _ _ _ Hcalc regionNode Hvalue)
    as [[q Hq] _].
  destruct (calculateOptimalPositions_clamped _ _ _ _ _ Hnodup Hcalc
              regionNode q Hvalue Hq) as [p [Hp Hinset]].
  assert (Hname : NodeData.name (Node.data regionNode) <> "").
  { intros Hempty. rewrite Hempty in Hq. vm_compute in Hq. discriminate. }
  exists q, p, (setXY regionNode (Point.x p) (Point.y p)).
  split; [exact Hq|]. split; [exact Hp|].
  split; [|split; [reflexivity|split; [reflexivity | exact Hinset]]].
  unfold positionRegionCircles. rewrite Hcalc.
  destruct (length nodes =? 0)%nat eqn:Hlen.
  { apply Nat.eqb_eq in Hlen. apply lookup_lt_Some in Hi. lia. }
  destruct (length (indicesWhere _ nodes) =? 0)%nat eqn:Hregions.
  { apply Nat.eqb_eq, nil_length_inv in Hregions. rewrite Hregions in Hin.
    inversion Hin. }
  apply (region_through positions _ nodes i regionNode p Hpf Hi Hdepth Hname
           Hp).
  - apply indicesWhere_NoDup.
  - exact Hin.
  - intros k Hk. apply indicesWhere_spec in Hk as [d [Hd Hdk]].
    exists d. split; [exact Hd|]. now apply Nat.eqb_eq.
  - intros k Hk. apply recordOriginals_covers; [exact Hk|].
    apply indicesWhere_spec in Hk as [d [Hd _]]. eauto.
  - apply keeps_refl.
  - exact Hi.
Qed.

Lemma region_centres_clamped_witness :
  exists q p regionNode',
    quadrants !! "Northern Europe" = Some q /\
    (<["Northern Europe" := Point.mk 400 150]> ∅ : gmap string Point.t)
      !! "Northern Europe" = Some p /\
    fst (positionRegionCircles 800 600 packedNorth) !! 1 = Some regionNode' /\
    Node.x regionNode' = Point.x p /\ Node.y regionNode' = Point.y p /\
    insetOf 800 600 clampedTo
      (makeRegion quadrants
         (sampleNode "Northern Europe" 1 (Some 0) (Some [2]) 300 200 80)) q p.
Proof.
  refine (region_centres_clamped 800 600 packedNorth
            (<["Northern Europe" := Point.mk 400 150]> ∅) _ _ _ 1
            (sampleNode "Northern Europe" 1 (Some 0) (Some [2]) 300 200 80)
            _ _).
  - intros k d p Hd Hp.
    do 3 (destruct k as [|k];
          [injection Hd as <-; simpl in Hp; try discriminate;
           injection Hp as <-; lia|]).
    discriminate.
  - vm_compute. apply NoDup_singleton.
  - vm_compute. reflexivity.
  - reflexivity.
  - reflexivity.
Defined.

(** *** Every region circle, every descendant circle *)

(** A descendant circle ends at the new centre of its region circle plus
    its offset from the position recorded for the region circle. *)
Lemma positionRegionCircles_descendant (packWidth packHeight : Js.number)
  (nodes : store) (i j : nat) (regionNode childNode : Node.t)
  (positions : gmap string Point.t) :
  parentsFirst nodes -> depthsFollow nodes ->
  nodes !! i = Some regionNode -> Node.depth regionNode = 1 ->
  nodes !! j = Some childNode -> 1 < Node.depth childNode ->
  isDescendantOf nodes j i = Some true ->
  calculateOptimalPositions packWidth packHeight
    (omap (fun k => nodes !! k)
       (indicesWhere (fun d => (Node.depth d =? 1)%nat) nodes)) quadrants
    = Ok positions ->
  exists q newPos,
    quadrants !! NodeData.name (Node.data regionNode) = Some q /\
    positions !! NodeData.name (Node.data regionNode) = Some newPos /\
    fst (positionRegionCircles packWidth packHeight nodes) !! i
      = Some (setXY regionNode (Point.x newPos) (Point.y newPos)) /\
    fst (positionRegionCircles packWidth packHeight nodes) !! j
      = Some (rigidlyMoved
                (Point.mk (Js.or (Node.x regionNode) (centreX packWidth))
                          (Js.or (Node.y regionNode) (centreY packHeight)))
                newPos childNode).
Proof.
  intros Hpf Hdf Hi Hdepth Hj Hdepthj Hbelow Hcalc.
  assert (Hin : i ∈ indicesWhere (fun d => (Node.depth d =? 1)%nat) nodes).
  { apply indicesWhere_spec. exists regionNode. split; [exact Hi|].
    now apply Nat.eqb_eq. }
  destruct (calculateOptimalPositions_covers _ _ _ _ _ Hcalc regionNode)
    as [[q Hq] [newPos Hpos]].
  { apply list_elem_of_omap. exists i. split; [exact Hin | exact Hi]. }
  assert (Hname : NodeData.name (Node.data regionNode) <> "").
  { intros Hempty. rewrite Hempty in Hq. vm_compute in Hq. discriminate. }
  exists q, newPos. split; [exact Hq|]. split; [exact Hpos|].
  unfold positionRegionCircles. rewrite Hcalc.
  destruct (length nodes =? 0)%nat eqn:Hlen.
  { apply Nat.eqb_eq in Hlen. apply lookup_lt_Some in Hi. lia. }
  destruct (length (indicesWhere _ nodes) =? 0)%nat eqn:Hregions.
  { apply Nat.eqb_eq, nil_length_inv in Hregions. rewrite Hregions in Hin.
    inversion Hin. }
  apply (through_regions positions
           (recordOriginals (centreX packWidth) (centreY packHeight) nodes
              (indicesWhere (fun d => (Node.depth d =? 1)%nat) nodes))
           nodes i j regionNode childNode newPos
           (Point.mk (Js.or (Node.x regionNode) (centreX packWidth))
                     (Js.or (Node.y regionNode) (centreY packHeight)))
           Hpf Hdf Hi Hdepth Hj Hdepthj Hbelow Hname Hpos).
  - exact (recordOriginals_lookup _ _ _ _ i regionNode Hin Hi).
  - apply indicesWhere_NoDup.
  - exact Hin.
  - intros k Hk. apply indicesWhere_spec in Hk as [d [Hd Hdk]].
    exists d. split; [exact Hd|]. now apply Nat.eqb_eq.
  - intros k Hk. apply recordOriginals_covers; [exact Hk|].
    apply indicesWhere_spec in Hk as [d [Hd _]]. eauto.
  - apply keeps_refl.
  - exact Hi.
  - exact Hj.
Qed.



(** C7: in a hierarchy that lists parents before their children,
    [positionRegionCircles] either places every region circle or throws.
    When every region circle bears one of the names of the quadrant
    assignment, whether or not each of these names has a circle, the
    operation returns without an error, [calculateOptimalPositions] has
    returned a position for every region circle, and every region circle is
    at the position returned for it: none is left at its packed position.
    When a region circle bears a name without a quadrant, so that no
    position can be computed for it, the operation throws a TypeError
    before any node is moved. *)
Theorem positionRegionCircles_places_or_throws
  (packWidth packHeight : Js.number) (nodes : store) :
  parentsFirst nodes ->
  ((forall i d, nodes !! i = Some d -> Node.depth d = 1 ->
      is_Some (quadrants !! NodeData.name (Node.data d))) ->
   snd (positionRegionCircles packWidth packHeight nodes) = Normal /\
   exists positions,
     calculateOptimalPositions packWidth packHeight
       (omap (fun k => nodes !! k)
          (indicesWhere (fun d => (Node.depth d =? 1)%nat) nodes)) quadrants
       = Ok positions /\
     forall i regionNode,
       nodes !! i = Some regionNode -> Node.depth regionNode = 1 ->
       exists newPos,
         positions !! NodeData.name (Node.data regionNode) = Some newPos /\
         fst (positionRegionCircles packWidth packHeight nodes) !! i
           = Some (setXY regionNode (Point.x newPos) (Point.y newPos))) /\
  (forall i d,
     nodes !! i = Some d -> Node.depth d = 1 ->
     quadrants !! NodeData.name (Node.data d) = None ->
     positionRegionCircles packWidth packHeight nodes =
     (nodes, Abrupt (TypeError "Cannot read properties of undefined"))).
Proof.
  intros Hpf. split; [|intros i d; apply unknown_region_throws].
  intros Hknown.
  split; [now apply positionRegionCircles_returns|].
  destruct (calculateOptimalPositions_returns packWidth packHeight quadrants
              (omap (fun i => nodes !! i)
                 (indicesWhere (fun d => (Node.depth d =? 1)%nat) nodes)))
    as [positions Hcalc].
  { intros node Hnode. apply list_elem_of_omap in Hnode as [i [Hi Hd]].
    apply indicesWhere_spec in Hi as [d [Hd' Hdepth]].
    rewrite Hd in Hd'. injection Hd' as <-.
    apply (Hknown i node Hd). now apply Nat.eqb_eq. }
  exists positions. split; [exact Hcalc|].
  intros i regionNode Hi Hdepth.
  assert (Hin : i ∈ indicesWhere (fun d => (Node.depth d =? 1)%nat) nodes).
  { apply indicesWhere_spec. exists regionNode. split; [exact Hi|].
    now apply Nat.eqb_eq. }
  destruct (calculateOptimalPositions_covers _ _ _ _ _ Hcalc regionNode)
    as [[q Hq] [newPos Hpos]].
  { apply list_elem_of_omap. exists i. split; [exact Hin | exact Hi]. }
  assert (Hname : NodeData.name (Node.data regionNode) <> "").
  { intros Hempty. rewrite Hempty in Hq. vm_compute in Hq. discriminate. }
  exists newPos. split; [exact Hpos|].
  unfold positionRegionCircles. rewrite Hcalc.
  destruct (length nodes =? 0)%nat eqn:Hlen.
  { apply Nat.eqb_eq in Hlen. apply lookup_lt_Some in Hi. lia. }
  destruct (length (indicesWhere _ nodes) =? 0)%nat eqn:Hregions.
  { apply Nat.eqb_eq, nil_length_inv in Hregions. rewrite Hregions in Hin.
    inversion Hin. }
  apply (region_through positions _ nodes i regionNode newPos Hpf Hi Hdepth
           Hname Hpos).
  - apply indicesWhere_NoDup.
  - exact Hin.
  - intros k Hk. apply indicesWhere_spec in Hk as [d [Hd Hdk]].
    exists d. split; [exact Hd|]. now apply Nat.eqb_eq.
  - intros k Hk. apply recordOriginals_covers; [exact Hk|].
    apply indicesWhere_spec in Hk as [d [Hd _]]. eauto.
  - apply keeps_refl.
  - exact Hi.
Qed.

Lemma positionRegionCircles_places_or_throws_witness :
  snd (positionRegionCircles 800 600 threeRegions) = Normal /\
  exists positions,
    calculateOptimalPositions 800 600
      (omap (fun k => threeRegions !! k)
         (indicesWhere (fun d => (Node.depth d =? 1)%nat) threeRegions))
      quadrants = Ok positions /\
    forall i regionNode,
      threeRegions !! i = Some regionNode -> Node.depth regionNode = 1 ->
      exists newPos,
        positions !! NodeData.name (Node.data regionNode) = Some newPos /\
        fst (positionRegionCircles 800 600 threeRegions) !! i
          = Some (setXY regionNode (Point.x newPos) (Point.y newPos)).
Proof.
  apply (proj1 (positionRegionCircles_places_or_throws 800 600 threeRegions
                  (fun j d p Hd Hp =>
                     ltac:(do 4 (destruct j as [|j];
                                 [injection Hd as <-; simpl in Hp;
                                  try discriminate; injection Hp as <-; lia|]);
                           discriminate)))).
  intros i d Hd Hdepth.
  do 4 (destruct i as [|i];
        [injection Hd as <-; simpl in Hdepth; try discriminate;
         vm_compute; eauto|]).
  discriminate.
Defined.

End RigidFacts.

(** ** Ancestors in the hierarchy *)

Module HierarchyFacts.
Import Js JsFacts Layout OptimiserFacts MoverFacts RigidFacts Further.

(** With parents first, an ancestor comes before its descendants. *)
Lemma ancestorOf_before (nodes : store) (a j : nat) :
  parentsFirst nodes -> ancestorOf nodes a j -> a < j.
Proof.
  intros Hpf H. induction H as [j d Hd Hp | j p d Hd Hp _ IH].
  - exact (Hpf j d a Hd Hp).
  - pose proof (Hpf j d p Hd Hp). lia.
Qed.

(** One link up from [c], when [c] has a parent [p]. *)
Lemma ancestorOf_step (nodes : store) (a c p : nat) (d : Node.t) :
  nodes !! c = Some d -> Node.parent d = Some p ->
  ancestorOf nodes a c <-> p = a \/ ancestorOf nodes a p.
Proof.
  intros Hd Hp. split.
  - intros H. inversion H as [j d' Hd' Hp' | j p' d' Hd' Hp' Hfurther]; subst.
    + left. congruence.
    + right. replace p with p' by congruence. exact Hfurther.
  - intros [<- | H].
    + exact (ancestor_parent nodes p c d Hd Hp).
    + exact (ancestor_further nodes a c p d Hd Hp H).
Qed.

Lemma ancestorOf_linked (nodes : store) (a c : nat) :
  ancestorOf nodes a c -> exists d p, nodes !! c = Some d /\ Node.parent d = Some p.
Proof. intros H. inversion H; eauto. Qed.

(** The walk finds [ancestor] when it stands on it or below it. *)
Lemma climb_ancestorOf (nodes : store) (ancestor : nat) :
  parentsFirst nodes ->
  forall fuel c, c < fuel ->
    climb nodes fuel (Some c) ancestor = Some true <->
    c = ancestor \/ ancestorOf nodes ancestor c.
Proof.
  intros Hpf fuel. induction fuel as [|fuel IH]; intros c Hc; [lia|].
  rewrite climb_Some. destruct (c =? ancestor)%nat eqn:Heq.
  - apply Nat.eqb_eq in Heq. split; auto.
  - apply Nat.eqb_neq in Heq.
    destruct (nodes !! c) as [d|] eqn:Hd; simpl.
    + destruct (Node.parent d) as [p|] eqn:Hp.
      * pose proof (Hpf c d p Hd Hp).
        rewrite (IH p) by lia.
        rewrite (ancestorOf_step nodes ancestor c p d Hd Hp).
        split; [auto|]. intros [H'|H']; [contradiction | exact H'].
      * rewrite climb_None. split; [discriminate|].
        intros [H'|H']; [contradiction|].
        destruct (ancestorOf_linked _ _ _ H') as [d' [p [Hd' Hp']]].
        congruence.
    + rewrite climb_None. split; [discriminate|].
      intros [H'|H']; [contradiction|].
      destruct (ancestorOf_linked _ _ _ H') as [d' [p [Hd' Hp']]].
      congruence.
Qed.

(** X2: in a store with parents first, [isDescendantOf] returns, and it
    returns true exactly when the ancestor is reached from the node by
    following the parent links at least once; such an ancestor comes before
    the node in the store, so that no node is a descendant of itself. *)
Theorem isDescendantOf_decides_ancestry (nodes : store) (node ancestor : nat) :
  parentsFirst nodes ->
  is_Some (isDescendantOf nodes node ancestor) /\
  (isDescendantOf nodes node ancestor = Some true <->
   ancestorOf nodes ancestor node) /\
  (isDescendantOf nodes node ancestor = Some true -> ancestor < node) /\
  isDescendantOf nodes node node = Some false.
Proof.
  intros Hpf.
  assert (Hiff : forall j i,
            isDescendantOf nodes j i = Some true <-> ancestorOf nodes i j).
  { intros j i. unfold isDescendantOf.
    destruct (nodes !! j) as [d|] eqn:Hd; simpl.
    - destruct (Node.parent d) as [p|] eqn:Hp.
      + pose proof (Hpf j d p Hd Hp). pose proof (lookup_lt_Some _ _ _ Hd).
        rewrite (climb_ancestorOf nodes i Hpf) by lia.
        symmetry. exact (ancestorOf_step nodes i j p d Hd Hp).
      + rewrite climb_None. split; [discriminate|]. intros H.
        destruct (ancestorOf_linked _ _ _ H) as [d' [p [Hd' Hp']]]. congruence.
    - rewrite climb_None. split; [discriminate|]. intros H.
      destruct (ancestorOf_linked _ _ _ H) as [d' [p [Hd' Hp']]]. congruence. }
  split; [exact (isDescendantOf_total nodes node ancestor Hpf)|].
  split; [apply Hiff|].
  split.
  - intros H. apply Hiff in H. exact (ancestorOf_before nodes _ _ Hpf H).
  - destruct (isDescendantOf_total nodes node node Hpf) as [[|] H];
      [|exact H].
    apply Hiff in H. pose proof (ancestorOf_before nodes _ _ Hpf H). lia.
Qed.

Lemma isDescendantOf_decides_ancestry_witness :
  is_Some (isDescendantOf packedNorth 2 0) /\
  (isDescendantOf packedNorth 2 0 = Some true <->
   ancestorOf packedNorth 0 2) /\
  (isDescendantOf packedNorth 2 0 = Some true -> 0 < 2) /\
  isDescendantOf packedNorth 2 2 = Some false.
Proof.
  apply (isDescendantOf_decides_ancestry packedNorth 2 0).
  intros k d p Hd Hp.
  do 3 (destruct k as [|k];
        [injection Hd as <-; simpl in Hp; try discriminate;
         injection Hp as <-; lia|]).
  discriminate.
Defined.

End HierarchyFacts.

(** ** What the optimiser reads *)

Module IndependenceFacts.
Import Js JsFacts Layout OptimiserFacts MoverFacts RigidFacts Further.

Section WithPack.

Variables packWidth packHeight : Js.number.

Lemma boundsOf_alike (region region' : Region.t) :
  alike region region' ->
  boundsOf packWidth packHeight region' = boundsOf packWidth packHeight region.
Proof. intros (_ & _ & Hq). unfold boundsOf. rewrite Hq. reflexivity. Qed.

Lemma seedPositions_alike (regions regions' : list Region.t) :
  Forall2 alike regions regions' ->
  forall positions,
    seedPositions packWidth packHeight regions' positions =
    seedPositions packWidth packHeight regions positions.
Proof.
  induction 1 as [|region region' rest rest' Halike _ IH]; intros positions;
    [reflexivity|].
  rewrite !seedPositions_step, (boundsOf_alike _ _ Halike).
  destruct Halike as (-> & _ & _).
  destruct (boundsOf packWidth packHeight region); [apply IH | reflexivity].
Qed.

Lemma initForces_alike (regions regions' : list Region.t) :
  Forall2 alike regions regions' -> initForces regions' = initForces regions.
Proof.
  unfold initForces. generalize (∅ : gmap string Force.t).
  intros forces H. revert forces.
  induction H as [|region region' rest rest' Halike _ IH]; intros forces;
    [reflexivity|].
  simpl. destruct Halike as (-> & _ & _). apply IH.
Qed.

Lemma pairForce_alike (positions : gmap string Point.t)
  (forces : gmap string Force.t) (region1 region1' region2 region2' : Region.t) :
  alike region1 region1' -> alike region2 region2' ->
  pairForce positions forces region1' region2' =
  pairForce positions forces region1 region2.
Proof.
  intros (Hn1 & Hr1 & _) (Hn2 & Hr2 & _). unfold pairForce.
  rewrite Hn1, Hr1, Hn2, Hr2. reflexivity.
Qed.

Lemma forcesAgainst_alike (positions : gmap string Point.t)
  (region1 region1' : Region.t) (others others' : list Region.t) :
  alike region1 region1' -> Forall2 alike others others' ->
  forall forces,
    forcesAgainst positions region1' others' forces =
    forcesAgainst positions region1 others forces.
Proof.
  intros H1. induction 1 as [|region2 region2' rest rest' H2 _ IH];
    intros forces; [reflexivity|].
  simpl. rewrite (pairForce_alike _ _ _ _ _ _ H1 H2).
  destruct (pairForce positions forces region1 region2); [apply IH|reflexivity].
Qed.

Lemma pairwiseForces_alike (positions : gmap string Point.t)
  (regions regions' : list Region.t) :
  Forall2 alike regions regions' ->
  forall forces,
    pairwiseForces positions regions' forces =
    pairwiseForces positions regions forces.
Proof.
  induction 1 as [|region1 region1' rest rest' H1 Hrest IH]; intros forces;
    [reflexivity|].
  simpl. rewrite (forcesAgainst_alike _ _ _ _ _ H1 Hrest).
  destruct (forcesAgainst positions region1 rest forces);
    [apply IH | reflexivity].
Qed.

Lemma moveRegion_alike (forces : gmap string Force.t)
  (region region' : Region.t) (state : gmap string Point.t * number) :
  alike region region' ->
  moveRegion packWidth packHeight forces region' state =
  moveRegion packWidth packHeight forces region state.
Proof.
  intros Halike. unfold moveRegion.
  rewrite (boundsOf_alike _ _ Halike). destruct Halike as (-> & -> & _).
  reflexivity.
Qed.

Lemma applyForces_alike (forces : gmap string Force.t)
  (regions regions' : list Region.t) :
  Forall2 alike regions regions' ->
  forall state,
    applyForces packWidth packHeight forces regions' state =
    applyForces packWidth packHeight forces regions state.
Proof.
  induction 1 as [|region region' rest rest' Halike _ IH]; intros state;
    [reflexivity|].
  rewrite !applyForces_cons, (moveRegion_alike _ _ _ _ Halike).
  destruct (moveRegion packWidth packHeight forces region state);
    [apply IH | reflexivity].
Qed.

Lemma relaxOnce_alike (regions regions' : list Region.t)
  (positions : gmap string Point.t) :
  Forall2 alike regions regions' ->
  relaxOnce packWidth packHeight regions' positions =
  relaxOnce packWidth packHeight regions positions.
Proof.
  intros H. unfold relaxOnce.
  rewrite (initForces_alike _ _ H), (pairwiseForces_alike _ _ _ H).
  destruct (pairwiseForces positions regions (initForces regions));
    [|reflexivity].
  apply (applyForces_alike _ _ _ H).
Qed.

Lemma relax_alike (regions regions' : list Region.t) (remaining : nat) :
  Forall2 alike regions regions' ->
  forall positions,
    relax packWidth packHeight regions' remaining positions =
    relax packWidth packHeight regions remaining positions.
Proof.
  intros H. induction remaining as [|remaining IH]; intros positions;
    [reflexivity|].
  rewrite !relax_step, (relaxOnce_alike _ _ _ H).
  destruct (relaxOnce packWidth packHeight regions positions)
    as [[positions1 total]|e]; [|reflexivity].
  rewrite IH. reflexivity.
Qed.

Lemma makeRegion_alike (quadrantOf : gmap string QuadrantName)
  (regionNodes regionNodes' : list Node.t) :
  Forall2 sameNameAndRadius regionNodes regionNodes' ->
  Forall2 alike (makeRegion quadrantOf <$> regionNodes)
    (makeRegion quadrantOf <$> regionNodes').
Proof.
  induction 1 as [|d d' rest rest' [Hname Hr] _ IH]; [constructor|].
  rewrite !fmap_cons. constructor; [|exact IH].
  unfold alike, makeRegion. simpl. rewrite Hname, Hr. auto.
Qed.

Lemma optimise_alike (quadrantOf : gmap string QuadrantName)
  (regionNodes regionNodes' : list Node.t) :
  Forall2 sameNameAndRadius regionNodes regionNodes' ->
  optimise packWidth packHeight regionNodes' quadrantOf =
  optimise packWidth packHeight regionNodes quadrantOf.
Proof.
  intros H. apply (makeRegion_alike quadrantOf) in H. unfold optimise.
  rewrite (seedPositions_alike _ _ H).
  destruct (seedPositions packWidth packHeight
              (makeRegion quadrantOf <$> regionNodes) ∅); [|reflexivity].
  apply (relax_alike _ _ _ H).
Qed.

Lemma calculateOptimalPositions_alike
  (quadrantOf : gmap string QuadrantName)
  (regionNodes regionNodes' : list Node.t) :
  Forall2 sameNameAndRadius regionNodes regionNodes' ->
  calculateOptimalPositions packWidth packHeight regionNodes' quadrantOf =
  calculateOptimalPositions packWidth packHeight regionNodes quadrantOf.
Proof.
  intros H. unfold calculateOptimalPositions.
  rewrite (optimise_alike quadrantOf _ _ H). reflexivity.
Qed.

(** *** The names that have a position *)

Lemma seedPositions_keys (regions : list Region.t) :
  forall positions seeded,
    seedPositions packWidth packHeight regions positions = Ok seeded ->
    forall key,
      is_Some (seeded !! key) ->
      is_Some (positions !! key) \/ key ∈ Region.name <$> regions.
Proof.
  induction regions as [|region rest IH]; intros positions seeded H key Hkey.
  - injection H as <-. auto.
  - rewrite seedPositions_step in H.
    destruct (boundsOf packWidth packHeight region) as [bounds|e];
      [|discriminate].
    destruct (IH _ _ H key Hkey) as [Hin | Hin].
    + rewrite lookup_insert_is_Some' in Hin. rewrite fmap_cons, elem_of_cons.
      destruct Hin as [<- | Hin]; auto.
    + rewrite fmap_cons, elem_of_cons. auto.
Qed.

Lemma applyForces_keys (forces : gmap string Force.t)
  (regions : list Region.t) :
  forall positions total positions' total',
    applyForces packWidth packHeight forces regions (positions, total)
      = Ok (positions', total') ->
    forall key, is_Some (positions' !! key) -> is_Some (positions !! key).
Proof.
  induction regions as [|region rest IH]; intros positions total positions'
    total' H key Hkey.
  - injection H as <- <-. exact Hkey.
  - rewrite applyForces_cons in H.
    destruct (moveRegion packWidth packHeight forces region (positions, total))
      as [[positions1 total1]|e] eqn:Hmove; [|discriminate].
    pose proof (IH _ _ _ _ H key Hkey) as Hkey1.
    revert Hmove. unfold moveRegion, getOrThrow.
    destruct (positions !! Region.name region) as [currentPos|] eqn:Hcurrent;
      [|discriminate].
    destruct (forces !! Region.name region) as [force|]; [|discriminate].
    destruct (boundsOf packWidth packHeight region) as [bounds|e];
      [|discriminate].
    result_simpl. intros Hmove. injection Hmove as <- _.
    rewrite lookup_insert_is_Some' in Hkey1.
    destruct Hkey1 as [<- | Hkey1]; [rewrite Hcurrent; eauto | exact Hkey1].
Qed.

Lemma relax_keys (regions : list Region.t) (remaining : nat) :
  forall positions positions' exit,
    relax packWidth packHeight regions remaining positions
      = Ok (positions', exit) ->
    forall key, is_Some (positions' !! key) -> is_Some (positions !! key).
Proof.
  induction remaining as [|remaining IH]; intros positions positions' exit.
  - intros H. injection H as <- <-. auto.
  - rewrite relax_step. unfold relaxOnce.
    destruct (pairwiseForces positions regions (initForces regions))
      as [forces|e]; [|discriminate].
    result_simpl.
    destruct (applyForces packWidth packHeight forces regions
                (positions, 0%float))
      as [[positions1 total]|e] eqn:Happly; [|discriminate].
    destruct (total <? 1)%float.
    + intros H. injection H as <- <-.
      exact (applyForces_keys _ _ _ _ _ _ Happly).
    + destruct (relax packWidth packHeight regions remaining positions1)
        as [[positions2 exit2]|e] eqn:Hrest; [|discriminate].
      intros H. injection H as <- <-. intros key Hkey.
      apply (applyForces_keys _ _ _ _ _ _ Happly).
      exact (IH _ _ _ Hrest key Hkey).
Qed.

End WithPack.

(** X3: the positions that [calculateOptimalPositions] returns depend on
    the names and the radii of the region circles only: region circles with
    the same names and radii in the same order, wherever the pack has put
    them, are given the same positions, or end in the same error. *)
Theorem calculateOptimalPositions_reads_names_and_radii
  (packWidth packHeight : Js.number) (regionNodes regionNodes' : list Node.t)
  (quadrantOf : gmap string QuadrantName) :
  Forall2 sameNameAndRadius regionNodes regionNodes' ->
  calculateOptimalPositions packWidth packHeight regionNodes' quadrantOf =
  calculateOptimalPositions packWidth packHeight regionNodes quadrantOf.
Proof.
  exact (calculateOptimalPositions_alike packWidth packHeight quadrantOf
           regionNodes regionNodes').
Qed.

Lemma calculateOptimalPositions_reads_names_and_radii_witness :
  calculateOptimalPositions 800 600
    [sampleNode "Northern Europe" 1 (Some 0) None 0 0 200] quadrants =
  calculateOptimalPositions 800 600 [wideNorth] quadrants.
Proof.
  apply (calculateOptimalPositions_reads_names_and_radii 800 600 [wideNorth]
           [sampleNode "Northern Europe" 1 (Some 0) None 0 0 200] quadrants).
  repeat constructor.
Defined.

(** X4: when [calculateOptimalPositions] returns, the names that have a
    position are the names of the region circles, no more and no less. *)
Theorem calculateOptimalPositions_keys (packWidth packHeight : Js.number)
  (regionNodes : list Node.t) (quadrantOf : gmap string QuadrantName)
  (positions : gmap string Point.t) :
  calculateOptimalPositions packWidth packHeight regionNodes quadrantOf
    = Ok positions ->
  forall name,
    is_Some (positions !! name) <->
    exists node, node ∈ regionNodes /\ NodeData.name (Node.data node) = name.
Proof.
  intros Hcalc name. split.
  - revert Hcalc. unfold calculateOptimalPositions, optimise.
    destruct (seedPositions packWidth packHeight
                (makeRegion quadrantOf <$> regionNodes) ∅)
      as [seeded|e] eqn:Hseed; [|discriminate].
    result_simpl.
    destruct (relax packWidth packHeight _ maxIterations seeded)
      as [[positions1 exit]|e] eqn:Hrelax; [|discriminate].
    intros H. injection H as <-. intros Hname.
    apply (relax_keys _ _ _ _ _ _ _ Hrelax) in Hname.
    destruct (seedPositions_keys _ _ _ _ _ Hseed name Hname) as [Hin | Hin].
    + rewrite lookup_empty in Hin. destruct Hin as [? Hin]. discriminate.
    + rewrite region_names in Hin.
      apply list_elem_of_fmap in Hin as [node [-> Hnode]]. eauto.
  - intros [node [Hnode <-]].
    exact (proj2 (calculateOptimalPositions_covers _ _ _ _ _ Hcalc node Hnode)).
Qed.

Lemma calculateOptimalPositions_keys_witness :
  is_Some ((<["Northern Europe" := Point.mk 400 225]> ∅
            : gmap string Point.t) !! "Northern Europe") <->
  exists node,
    node ∈ [wideNorth] /\ NodeData.name (Node.data node) = "Northern Europe".
Proof.
  apply (calculateOptimalPositions_keys 800 600 [wideNorth] quadrants
           (<["Northern Europe" := Point.mk 400 225]> ∅)).
  vm_compute. reflexivity.
Defined.

(** *** A second run *)

Lemma indicesWhere_keeps (mayMove : nat -> Prop) (nodes nodes' : store) :
  keeps mayMove nodes nodes' ->
  indicesWhere (fun d => (Node.depth d =? 1)%nat) nodes' =
  indicesWhere (fun d => (Node.depth d =? 1)%nat) nodes.
Proof.
  intros Hk. unfold indicesWhere. rewrite (proj1 Hk).
  apply List.filter_ext_in. intros k _.
  destruct (nodes !! k) as [d|] eqn:Hd.
  - destruct (proj2 Hk k d Hd) as [d' [-> [(_ & -> & _) _]]]. reflexivity.
  - apply lookup_ge_None in Hd. rewrite <- (proj1 Hk) in Hd.
    apply lookup_ge_None in Hd. rewrite Hd. reflexivity.
Qed.

Lemma regionNodesOf_keeps (mayMove : nat -> Prop) (nodes nodes' : store) :
  keeps mayMove nodes nodes' ->
  Forall2 sameNameAndRadius (regionNodesOf nodes) (regionNodesOf nodes').
Proof.
  intros Hk. unfold regionNodesOf. rewrite (indicesWhere_keeps _ _ _ Hk).
  induction (indicesWhere (fun d => (Node.depth d =? 1)%nat) nodes)
    as [|k rest IH]; [constructor|].
  simpl. destruct (nodes !! k) as [d|] eqn:Hd.
  - destruct (proj2 Hk k d Hd) as [d' [-> [(Hdata & _ & _ & _ & Hr) _]]].
    constructor; [|exact IH]. split; [rewrite Hdata; reflexivity | exact Hr].
  - apply lookup_ge_None in Hd. rewrite <- (proj1 Hk) in Hd.
    apply lookup_ge_None in Hd. rewrite Hd. exact IH.
Qed.

(** Where a run of [positionRegionCircles] leaves a region circle. *)
Lemma positionRegionCircles_region (packWidth packHeight : Js.number)
  (nodes : store) (positions : gmap string Point.t) (i : nat)
  (regionNode : Node.t) :
  parentsFirst nodes ->
  calculateOptimalPositions packWidth packHeight (regionNodesOf nodes)
    quadrants = Ok positions ->
  nodes !! i = Some regionNode -> Node.depth regionNode = 1 ->
  exists p,
    positions !! NodeData.name (Node.data regionNode) = Some p /\
    fst (positionRegionCircles packWidth packHeight nodes) !! i =
      Some (setXY regionNode (Point.x p) (Point.y p)).
Proof.
  intros Hpf Hcalc Hi Hdepth.
  assert (Hin : i ∈ indicesWhere (fun d => (Node.depth d =? 1)%nat) nodes).
  { apply indicesWhere_spec. exists regionNode. split; [exact Hi|].
    now apply Nat.eqb_eq. }
  assert (Hvalue : regionNode ∈ regionNodesOf nodes).
  { apply list_elem_of_omap. exists i. split; [exact Hin | exact Hi]. }
  destruct (calculateOptimalPositions_covers _ _ _ _ _ Hcalc regionNode Hvalue)
    as [[q Hq] [p Hp]].
  assert (Hname : NodeData.name (Node.data regionNode) <> "").
  { intros Hempty. rewrite Hempty in Hq. vm_compute in Hq. discriminate. }
  exists p. split; [exact Hp|].
  unfold positionRegionCircles. fold (regionNodesOf nodes). rewrite Hcalc.
  destruct (length nodes =? 0)%nat eqn:Hlen.
  { apply Nat.eqb_eq in Hlen. apply lookup_lt_Some in Hi. lia. }
  destruct (length (indicesWhere _ nodes) =? 0)%nat eqn:Hregions.
  { apply Nat.eqb_eq, nil_length_inv in Hregions. rewrite Hregions in Hin.
    inversion Hin. }
  apply (region_through positions _ nodes i regionNode p Hpf Hi Hdepth Hname
           Hp).
  - apply indicesWhere_NoDup.
  - exact Hin.
  - intros k Hk. apply indicesWhere_spec in Hk as [d [Hd Hdk]].
    exists d. split; [exact Hd|]. now apply Nat.eqb_eq.
  - intros k Hk. apply recordOriginals_covers; [exact Hk|].
    apply indicesWhere_spec in Hk as [d [Hd _]]. eauto.
  - apply keeps_refl.
  - exact Hi.
Qed.

(** X5: a second run of [positionRegionCircles] in the same pack leaves
    every region circle where the first run has put it, in a hierarchy with
    parents first. *)
Theorem positionRegionCircles_regions_settled
  (packWidth packHeight : Js.number) (nodes : store) (i : nat)
  (regionNode : Node.t) :
  parentsFirst nodes ->
  fst (positionRegionCircles packWidth packHeight nodes) !! i
    = Some regionNode ->
  Node.depth regionNode = 1 ->
  fst (positionRegionCircles packWidth packHeight
         (fst (positionRegionCircles packWidth packHeight nodes))) !! i
    = Some regionNode.
Proof.
  intros Hpf Hi1 Hdepth.
  pose proof (positionRegionCircles_keeps packWidth packHeight nodes) as Hk.
  set (nodes1 := fst (positionRegionCircles packWidth packHeight nodes)) in *.
  pose proof (keeps_parentsFirst _ _ _ Hk Hpf) as Hpf1.
  destruct (keeps_depth _ _ _ i regionNode Hk Hi1)
    as [d [Hi (Hdata & Hdepth0 & _)]].
  destruct (calculateOptimalPositions packWidth packHeight
              (regionNodesOf nodes) quadrants) as [positions|e] eqn:Hcalc.
  - assert (Hcalc1 : calculateOptimalPositions packWidth packHeight
                       (regionNodesOf nodes1) quadrants = Ok positions).
    { rewrite <- Hcalc.
      apply calculateOptimalPositions_alike.
      exact (regionNodesOf_keeps _ _ _ Hk). }
    destruct (positionRegionCircles_region packWidth packHeight nodes
                positions i d Hpf Hcalc Hi ltac:(congruence))
      as [p [Hp Hfirst]].
    fold nodes1 in Hfirst. rewrite Hi1 in Hfirst. injection Hfirst as Hfirst.
    destruct (positionRegionCircles_region packWidth packHeight nodes1
                positions i regionNode Hpf1 Hcalc1 Hi1 Hdepth)
      as [p' [Hp' Hsecond]].
    rewrite Hsecond. f_equal.
    rewrite Hdata, Hp in Hp'. injection Hp' as <-.
    rewrite Hfirst. reflexivity.
  - assert (Hsame : nodes1 = nodes).
    { unfold nodes1, positionRegionCircles. fold (regionNodesOf nodes).
      rewrite Hcalc.
      destruct (length nodes =? 0)%nat; [reflexivity|].
      destruct (length (indicesWhere _ nodes) =? 0)%nat; reflexivity. }
    rewrite Hsame. fold nodes1. rewrite Hsame. rewrite Hsame in Hi1.
    exact Hi1.
Qed.

Lemma positionRegionCircles_regions_settled_witness :
  fst (positionRegionCircles 800 600
         (fst (positionRegionCircles 800 600 packedNorth))) !! 1
    = Some (sampleNode "Northern Europe" 1 (Some 0) (Some [2]) 400 150 80).
Proof.
  apply (positionRegionCircles_regions_settled 800 600 packedNorth 1
           (sampleNode "Northern Europe" 1 (Some 0) (Some [2]) 400 150 80)).
  - intros k d p Hd Hp.
    do 3 (destruct k as [|k];
          [injection Hd as <-; simpl in Hp; try discriminate;
           injection Hp as <-; lia|]).
    discriminate.
  - vm_compute. reflexivity.
  - reflexivity.
Defined.

End IndependenceFacts.

(** ** Numbers that are written alike *)

Module NumberFacts.
Import Js JsFacts Layout Further.

Lemma Prim2SF_inj (a b : number) : Prim2SF a = Prim2SF b -> a = b.
Proof.
  intros H. rewrite <- (SF2Prim_Prim2SF a), <- (SF2Prim_Prim2SF b), H.
  reflexivity.
Qed.

Lemma sameNumber_refl (a : number) : sameNumber a a.
Proof.
  unfold sameNumber, is_nan. destruct (a =? a)%float; [left | right]; auto.
Qed.

(** Equal numbers are the same number or two zeros. *)
Lemma eqb_cases (a b : number) :
  (a =? b)%float = true ->
  a = b \/ exists s s', Prim2SF a = S754_zero s /\ Prim2SF b = S754_zero s'.
Proof.
  rewrite FloatAxioms.eqb_spec. unfold SFeqb.
  destruct (Prim2SF a) as [sa|sa| |sa ma ea] eqn:Ha,
           (Prim2SF b) as [sb|sb| |sb mb eb] eqn:Hb; simpl;
    try discriminate; try (destruct sa; discriminate);
    try (destruct sb; discriminate).
  - intros _. right. eauto.
  - intros H. left. apply Prim2SF_inj. rewrite Ha, Hb.
    destruct sa, sb; try discriminate; reflexivity.
  - intros H. left. apply Prim2SF_inj. rewrite Ha, Hb.
    change (Pos.compare_cont Eq ma mb) with (ma ?= mb)%positive in H.
    destruct sa, sb; try discriminate;
      destruct (ea ?= eb)%Z eqn:He; try discriminate;
      destruct (ma ?= mb)%positive eqn:Hm; try discriminate;
      apply Z.compare_eq in He; apply Pos.compare_eq in Hm; subst;
      reflexivity.
Qed.

Lemma is_nan_zero (a : number) (s : bool) :
  Prim2SF a = S754_zero s -> is_nan a = false.
Proof.
  intros H. unfold is_nan. rewrite FloatAxioms.eqb_spec, H. reflexivity.
Qed.

Lemma eqb_zeros (a b : number) (s s' : bool) :
  Prim2SF a = S754_zero s -> Prim2SF b = S754_zero s' ->
  (a =? b)%float = true.
Proof. intros Ha Hb. rewrite FloatAxioms.eqb_spec, Ha, Hb. reflexivity. Qed.

Lemma eqb_not_nan (a b : number) :
  (a =? b)%float = true -> is_nan a = false /\ is_nan b = false.
Proof.
  intros H. destruct (eqb_cases a b H) as [<- | (s & s' & Ha & Hb)].
  - unfold is_nan. rewrite H. auto.
  - split; eapply is_nan_zero; eauto.
Qed.

Lemma sameNumber_trans (a b c : number) :
  sameNumber a b -> sameNumber b c -> sameNumber a c.
Proof.
  intros [Hab | [Ha Hb]] [Hbc | [Hb' Hc]].
  - destruct (eqb_cases a b Hab) as [-> | (s & s' & Hsa & Hsb)];
      [left; exact Hbc|].
    destruct (eqb_cases b c Hbc) as [<- | (t & t' & Htb & Htc)];
      [left; exact Hab|].
    left. exact (eqb_zeros a c _ _ Hsa Htc).
  - destruct (eqb_not_nan a b Hab) as [_ Hb]. congruence.
  - destruct (eqb_not_nan b c Hbc) as [Hb' _]. congruence.
  - right. auto.
Qed.

(** The order does not tell the two zeros apart. *)
Lemma ltb_zeros (a b b' : number) (s s' : bool) :
  Prim2SF b = S754_zero s -> Prim2SF b' = S754_zero s' ->
  (a <? b)%float = (a <? b')%float /\ (b <? a)%float = (b' <? a)%float.
Proof.
  intros Hb Hb'. rewrite !FloatAxioms.ltb_spec, Hb, Hb'.
  unfold SFltb. destruct (Prim2SF a); split; reflexivity.
Qed.

Lemma min_sameNumber (a v v' : number) :
  sameNumber v v' -> sameNumber (min a v) (min a v').
Proof.
  intros [Heq | [Hn Hn']].
  - destruct (eqb_cases v v' Heq) as [-> | (s & s' & Hs & Hs')];
      [apply sameNumber_refl|].
    destruct (ltb_zeros a v v' s s' Hs Hs') as [Hav Hva].
    unfold min. rewrite (is_nan_zero v s Hs), (is_nan_zero v' s' Hs'), Hav, Hva.
    destruct (is_nan a); simpl; [apply sameNumber_refl|].
    destruct (a <? v')%float; [apply sameNumber_refl|].
    destruct (v' <? a)%float; [left; exact Heq|].
    destruct (get_sign a); [apply sameNumber_refl | left; exact Heq].
  - unfold min. rewrite Hn, Hn', !orb_true_r. apply sameNumber_refl.
Qed.

Lemma max_sameNumber (a v v' : number) :
  sameNumber v v' -> sameNumber (max a v) (max a v').
Proof.
  intros [Heq | [Hn Hn']].
  - destruct (eqb_cases v v' Heq) as [-> | (s & s' & Hs & Hs')];
      [apply sameNumber_refl|].
    destruct (ltb_zeros a v v' s s' Hs Hs') as [Hav Hva].
    unfold max. rewrite (is_nan_zero v s Hs), (is_nan_zero v' s' Hs'), Hav, Hva.
    destruct (is_nan a); simpl; [apply sameNumber_refl|].
    destruct (v' <? a)%float; [apply sameNumber_refl|].
    destruct (a <? v')%float; [left; exact Heq|].
    destruct (get_sign a); [left; exact Heq | apply sameNumber_refl].
  - unfold max. rewrite Hn, Hn', !orb_true_r. apply sameNumber_refl.
Qed.

Lemma clamp_sameNumber (lo hi v v' : number) :
  sameNumber v v' -> sameNumber (clamp lo hi v) (clamp lo hi v').
Proof.
  intros H. unfold clamp. apply max_sameNumber, min_sameNumber, H.
Qed.

(** Numbers of which neither is below the other are equal. *)
Lemma eqb_of_not_ltb (a b : number) :
  is_nan a = false -> is_nan b = false ->
  (a <? b)%float = false -> (b <? a)%float = false -> (a =? b)%float = true.
Proof.
  intros Ha Hb. rewrite !FloatAxioms.ltb_spec, FloatAxioms.eqb_spec.
  unfold SFltb, SFeqb.
  rewrite (SFcompare_antisym (Prim2SF a) (Prim2SF b)).
  destruct (SFcompare_defined _ _ (is_nan_false_compare a Ha)
              (is_nan_false_compare b Hb)) as [c ->].
  destruct c; simpl; congruence.
Qed.

Lemma min_absorbs (a b : number) :
  (b <=? a)%float = true -> sameNumber (min a b) b.
Proof.
  intros Hle. destruct (leb_not_nan b a Hle) as [Hb Ha].
  pose proof (leb_not_gtb b a Hle) as Hgt. unfold gtb in Hgt.
  unfold min. rewrite Ha, Hb, Hgt. simpl.
  destruct (b <? a)%float eqn:Hba; [apply sameNumber_refl|].
  destruct (get_sign a); [|apply sameNumber_refl].
  left. now apply eqb_of_not_ltb.
Qed.

Lemma max_absorbs (a b : number) :
  (a <=? b)%float = true -> sameNumber (max a b) b.
Proof.
  intros Hle. destruct (leb_not_nan a b Hle) as [Ha Hb].
  pose proof (leb_not_gtb a b Hle) as Hgt. unfold gtb in Hgt.
  unfold max. rewrite Ha, Hb, Hgt. simpl.
  destruct (a <? b)%float eqn:Hab; [apply sameNumber_refl|].
  destruct (get_sign a); [apply sameNumber_refl|].
  left. now apply eqb_of_not_ltb.
Qed.

(** Clamping a clamped number changes nothing. *)
Lemma clamp_idempotent (lo hi v : number) :
  (lo <=? hi)%float = true ->
  sameNumber (clamp lo hi (clamp lo hi v)) (clamp lo hi v).
Proof.
  intros Hspan. set (c := clamp lo hi v).
  destruct (is_nan c) eqn:Hnan.
  - right. split; [|exact Hnan].
    unfold clamp at 1. unfold max, min. rewrite Hnan, orb_true_r.
    change (is_nan nan) with true. rewrite orb_true_r. reflexivity.
  - pose proof (max_lower lo (min hi v) Hnan) as Hlo.
    pose proof (clamp_upper lo hi v Hnan Hspan) as Hhi.
    fold (clamp lo hi v) in Hlo, Hhi. fold c in Hlo, Hhi.
    unfold clamp at 1.
    eapply sameNumber_trans; [|exact (max_absorbs _ _ Hlo)].
    apply max_sameNumber. exact (min_absorbs _ _ Hhi).
Qed.

(** *** Finite numbers *)

Lemma finite_not_nan (a : number) : finite a -> is_nan a = false.
Proof.
  unfold finite, is_nan. rewrite FloatAxioms.eqb_spec. unfold SFeqb.
  destruct (Prim2SF a) as [s|s| |s m e]; simpl; try contradiction; intros _;
    [reflexivity|].
  change (Pos.compare_cont Eq m m) with (m ?= m)%positive.
  rewrite Z.compare_refl, Pos.compare_refl. destruct s; reflexivity.
Qed.

Lemma max_finite (a b : number) : finite a -> finite b -> finite (max a b).
Proof.
  intros Ha Hb. unfold max.
  rewrite (finite_not_nan a Ha), (finite_not_nan b Hb). simpl.
  destruct (b <? a)%float; [exact Ha|].
  destruct (a <? b)%float; [exact Hb|].
  destruct (get_sign a); assumption.
Qed.

Lemma min_finite (a b : number) : finite a -> finite b -> finite (min a b).
Proof.
  intros Ha Hb. unfold min.
  rewrite (finite_not_nan a Ha), (finite_not_nan b Hb). simpl.
  destruct (a <? b)%float; [exact Ha|].
  destruct (b <? a)%float; [exact Hb|].
  destruct (get_sign a); assumption.
Qed.

Lemma add_zero (x : number) :
  Prim2SF (x + 0) =
  match Prim2SF x with
  | S754_zero _ => S754_zero false
  | other => other
  end.
Proof.
  rewrite add_spec. change (Prim2SF 0) with (S754_zero false).
  destruct (Prim2SF x) as [[|]|[|]| |s m e]; reflexivity.
Qed.

Lemma add_zero_finite (x : number) : finite x -> finite (x + 0).
Proof.
  unfold finite. rewrite add_zero. destruct (Prim2SF x); auto.
Qed.

Lemma add_zero_sameNumber (x : number) : sameNumber (x + 0)%float x.
Proof.
  unfold sameNumber, is_nan. rewrite !FloatAxioms.eqb_spec, add_zero.
  unfold SFeqb.
  destruct (Prim2SF x) as [s|s| |s m e]; simpl.
  - left. reflexivity.
  - left. destruct s; reflexivity.
  - right. split; reflexivity.
  - left. change (Pos.compare_cont Eq m m) with (m ?= m)%positive.
    rewrite Z.compare_refl, Pos.compare_refl. destruct s; reflexivity.
Qed.

Lemma clamp_finite (lo hi v : number) :
  finite lo -> finite hi -> finite v -> finite (clamp lo hi v).
Proof. intros Hlo Hhi Hv. now apply max_finite, min_finite. Qed.

(** The distance between two writings of one finite number is [+0]. *)
Lemma abs_sub_sameNumber (a b : number) :
  finite a -> sameNumber b a -> Prim2SF (abs (b - a)) = S754_zero false.
Proof.
  intros Hfinite Hsame. rewrite abs_spec, sub_spec.
  destruct Hsame as [Heq | [_ Hnan]];
    [|rewrite (finite_not_nan a Hfinite) in Hnan; discriminate].
  destruct (eqb_cases b a Heq) as [-> | (s & s' & -> & ->)].
  - unfold finite in Hfinite.
    destruct (Prim2SF a) as [[|]|s| |s m e]; try contradiction;
      try reflexivity.
    unfold SF64sub, SFsub. rewrite Z.min_id. unfold shl_align.
    rewrite Z.sub_diag. cbn [fst]. reflexivity.
  - destruct s, s'; reflexivity.
Qed.

(** No movement at all counts as convergence. *)
Lemma no_movement (dx dy : number) :
  Prim2SF dx = S754_zero false -> Prim2SF dy = S754_zero false ->
  (0 + (dx + dy) <? 1)%float = true.
Proof.
  intros Hx Hy. rewrite FloatAxioms.ltb_spec, !add_spec, Hx, Hy.
  vm_compute. reflexivity.
Qed.

End NumberFacts.

(** ** A region circle on its own *)

Module LoneRegionFacts.
Import Js JsFacts Layout OptimiserFacts Further NumberFacts.

(** *** One iteration with one region *)

Section WithPack.

Variables packWidth packHeight : Js.number.
Variable region : Region.t.
Variable q : QuadrantName.
Hypothesis Hquadrant : Region.quadrant region = Some q.

Local Notation "'bounds'" := (quadrantBounds packWidth packHeight q).
Local Notation "'effectiveRadius'" :=
  (Region.radius region + paddingDist)%float.
Local Notation "'loX'" := (Bounds.minX bounds + effectiveRadius)%float.
Local Notation "'hiX'" := (Bounds.maxX bounds - effectiveRadius)%float.
Local Notation "'loY'" := (Bounds.minY bounds + effectiveRadius)%float.
Local Notation "'hiY'" := (Bounds.maxY bounds - effectiveRadius)%float.

Lemma relaxOnce_lone (positions : gmap string Point.t) (x y : number) :
  positions !! Region.name region = Some (Point.mk x y) ->
  relaxOnce packWidth packHeight [region] positions =
  Ok (<[Region.name region :=
          Point.mk (clamp loX hiX (x + 0)) (clamp loY hiY (y + 0))]> positions,
      (0 + (abs (clamp loX hiX (x + 0) - x)
            + abs (clamp loY hiY (y + 0) - y)))%float).
Proof.
  intros Hposition. unfold relaxOnce, initForces. simpl foldl.
  simpl pairwiseForces. result_simpl.
  rewrite applyForces_cons. unfold moveRegion, getOrThrow, boundsOf.
  rewrite Hposition, lookup_insert_eq, Hquadrant. reflexivity.
Qed.

End WithPack.

(** X6: a region circle on its own ends at the centre of its quadrant,
    clamped to the bound rectangle of the quadrant inset by the radius plus
    the padding, and the loop of the optimiser converges within two
    iterations, when the centre and the inset rectangle are finite and the
    inset rectangle is not empty. *)
Theorem optimise_lone_region (packWidth packHeight : Js.number)
  (node : Node.t) (quadrantOf : gmap string QuadrantName) (q : QuadrantName) :
  let region := makeRegion quadrantOf node in
  let bounds := quadrantBounds packWidth packHeight q in
  let effectiveRadius := (Region.radius region + paddingDist)%float in
  let loX := (Bounds.minX bounds + effectiveRadius)%float in
  let hiX := (Bounds.maxX bounds - effectiveRadius)%float in
  let loY := (Bounds.minY bounds + effectiveRadius)%float in
  let hiY := (Bounds.maxY bounds - effectiveRadius)%float in
  quadrantOf !! NodeData.name (Node.data node) = Some q ->
  finite (Bounds.centerX bounds) -> finite (Bounds.centerY bounds) ->
  finite loX -> finite hiX -> finite loY -> finite hiY ->
  (loX <=? hiX)%float = true -> (loY <=? hiY)%float = true ->
  exists positions exit p,
    optimise packWidth packHeight [node] quadrantOf = Ok (positions, exit) /\
    positions !! NodeData.name (Node.data node) = Some p /\
    sameNumber (Point.x p) (clamp loX hiX (Bounds.centerX bounds)) /\
    sameNumber (Point.y p) (clamp loY hiY (Bounds.centerY bounds)) /\
    converged exit = true /\ iterations exit <= 2.
Proof.
  intros region bounds effectiveRadius loX hiX loY hiY Hq Hcx Hcy HloX HhiX
    HloY HhiY HspanX HspanY.
  assert (Hquadrant : Region.quadrant region = Some q) by exact Hq.
  unfold optimise. rewrite fmap_cons, fmap_nil. fold region.
  rewrite seedPositions_step. unfold boundsOf. rewrite Hquadrant.
  fold bounds. simpl seedPositions. result_simpl.
  change (NodeData.name (Node.data node)) with (Region.name region).
  set (seeded := <[Region.name region :=
                     Point.mk (Bounds.centerX bounds) (Bounds.centerY bounds)]>
                   (∅ : gmap string Point.t)).
  set (x1 := clamp loX hiX (Bounds.centerX bounds + 0)).
  set (y1 := clamp loY hiY (Bounds.centerY bounds + 0)).
  assert (Hx1 : sameNumber x1 (clamp loX hiX (Bounds.centerX bounds)))
    by apply clamp_sameNumber, add_zero_sameNumber.
  assert (Hy1 : sameNumber y1 (clamp loY hiY (Bounds.centerY bounds)))
    by apply clamp_sameNumber, add_zero_sameNumber.
  assert (Hfx1 : finite x1)
    by (apply clamp_finite; auto using add_zero_finite).
  assert (Hfy1 : finite y1)
    by (apply clamp_finite; auto using add_zero_finite).
  unfold maxIterations. rewrite relax_step.
  rewrite (relaxOnce_lone packWidth packHeight region q Hquadrant seeded
             (Bounds.centerX bounds) (Bounds.centerY bounds))
    by apply lookup_insert_eq.
  fold bounds effectiveRadius loX hiX loY hiY x1 y1.
  destruct (0 + (abs (x1 - Bounds.centerX bounds)
                 + abs (y1 - Bounds.centerY bounds)) <? 1)%float.
  - eexists _, _, _. split; [reflexivity|].
    split; [apply lookup_insert_eq|]. simpl. auto.
  - rewrite relax_step.
    rewrite (relaxOnce_lone packWidth packHeight region q Hquadrant
               (<[Region.name region := Point.mk x1 y1]> seeded) x1 y1)
      by apply lookup_insert_eq.
    fold bounds effectiveRadius loX hiX loY hiY.
    set (x2 := clamp loX hiX (x1 + 0)).
    set (y2 := clamp loY hiY (y1 + 0)).
    assert (Hx2 : sameNumber x2 x1).
    { eapply sameNumber_trans;
        [apply clamp_sameNumber, add_zero_sameNumber|].
      exact (clamp_idempotent loX hiX (Bounds.centerX bounds + 0) HspanX). }
    assert (Hy2 : sameNumber y2 y1).
    { eapply sameNumber_trans;
        [apply clamp_sameNumber, add_zero_sameNumber|].
      exact (clamp_idempotent loY hiY (Bounds.centerY bounds + 0) HspanY). }
    rewrite (no_movement _ _ (abs_sub_sameNumber x1 x2 Hfx1 Hx2)
               (abs_sub_sameNumber y1 y2 Hfy1 Hy2)).
    eexists _, _, _. split; [reflexivity|].
    split; [apply lookup_insert_eq|]. simpl.
    split; [exact (sameNumber_trans _ _ _ Hx2 Hx1)|].
    split; [exact (sameNumber_trans _ _ _ Hy2 Hy1)|]. auto.
Qed.

Lemma optimise_lone_region_witness :
  exists positions exit p,
    optimise 800 600 [sampleNode "Northern Europe" 1 (Some 0) None 300 200 80]
      quadrants = Ok (positions, exit) /\
    positions !! "Northern Europe" = Some p /\
    sameNumber (Point.x p) (clamp (20 + (80 + 5)) (800 - 20 - (80 + 5)) (800 / 2))
    /\
    sameNumber (Point.y p)
      (clamp (20 + (80 + 5)) (600 / 2 - 20 - (80 + 5)) (600 / 2 * 0.5)) /\
    converged exit = true /\ iterations exit <= 2.
Proof.
  apply (optimise_lone_region 800 600
           (sampleNode "Northern Europe" 1 (Some 0) None 300 200 80) quadrants
           top).
  - reflexivity.
  - vm_compute. exact I.
  - vm_compute. exact I.
  - vm_compute. exact I.
  - vm_compute. exact I.
  - vm_compute. exact I.
  - vm_compute. exact I.
  - vm_compute. reflexivity.
  - vm_compute. reflexivity.
Defined.

End LoneRegionFacts.

(** ** Labels at the edges *)

Module LabelFacts.
Import Js JsFacts TextFitter FitterFacts.

Lemma split_nonempty (sep : ascii) (s : string) : split sep s <> [].
Proof.
  destruct s as [|c rest]; simpl; [discriminate|].
  destruct (Ascii.eqb c sep); [discriminate|].
  destruct (split sep rest); discriminate.
Qed.

(** A single word followed by a separator is the first of the words. *)
Lemma split_first_word (sep : ascii) (first rest : string) :
  split sep first = [first] ->
  split sep (first ++ String sep rest) = first :: split sep rest.
Proof.
  induction first as [|c first IH]; intros Hone.
  - simpl. rewrite Ascii.eqb_refl. reflexivity.
  - simpl in Hone |- *. destruct (Ascii.eqb c sep); [discriminate|].
    destruct (split sep first) as [|w ws] eqn:Hsplit.
    + destruct (split_nonempty _ _ Hsplit).
    + injection Hone as -> ->. rewrite (IH eq_refl). reflexivity.
Qed.

Lemma placeWords_cons
  (getContext : option (Js.number -> string -> Js.number))
  (word : string) (rest : list string) (maxWidth fontSize radius : Js.number)
  (lines : list string) :
  placeWords getContext (word :: rest) maxWidth fontSize radius lines =
  if (length lines <? 2)%nat then
    match processWordForFit getContext word maxWidth fontSize radius false with
    | Ok processedWord =>
        if includes processedWord "..." || String.eqb processedWord "" then
          if String.eqb processedWord "" then Ok lines
          else Ok (lines ++ [processedWord])%list
        else placeWords getContext rest maxWidth fontSize radius
               (lines ++ [processedWord])%list
    | Throw e => Throw e
    end
  else Ok lines.
Proof. reflexivity. Qed.

Lemma mapM_throws {A B : Type} (f : A -> result B) (a : A) (rest : list A)
  (e : exn) :
  f a = Throw e -> mapM f (a :: rest) = Throw e.
Proof. intros H. simpl. rewrite H. reflexivity. Qed.

(** A word that fits is returned as it is. *)
Lemma processWordForFit_fitting
  (measureText : Js.number -> string -> Js.number) (word : string)
  (maxWidth fontSize radius : Js.number) :
  fits measureText maxWidth fontSize word = true ->
  processWordForFit (Some measureText) word maxWidth fontSize radius false
    = Ok word.
Proof.
  intros Hfits. unfold processWordForFit. result_simpl.
  unfold fits in Hfits. rewrite Hfits. reflexivity.
Qed.

(** Without a 2D context the label of a node cannot be made. *)
Lemma textLabel_no_context (d : Node.t) :
  textLabel None d = Throw (Error "Context could not be created").
Proof.
  unfold textLabel.
  destruct (length (split " " (NodeData.name (Node.data d))) =? 1)%nat.
  - rewrite processWordForFit_no_context. reflexivity.
  - destruct (split " " (NodeData.name (Node.data d))) as [|word words]
      eqn:Hsplit; [destruct (split_nonempty _ _ Hsplit)|].
    rewrite placeWords_cons, processWordForFit_no_context. reflexivity.
Qed.

(** X7: without a 2D context, the label of every node ends in the error
    "Context could not be created", whatever its name and radius, and so
    does [addTextLabels] on every selection that is not empty; on the empty
    selection it returns. *)
Theorem addTextLabels_needs_context (d : Node.t) (selection : list Node.t) :
  textLabel None d = Throw (Error "Context could not be created") /\
  addTextLabels None (d :: selection)
    = Throw (Error "Context could not be created") /\
  addTextLabels None [] = Ok [].
Proof.
  split; [apply textLabel_no_context|]. split; [|reflexivity].
  unfold addTextLabels. exact (mapM_throws _ _ _ _ (textLabel_no_context d)).
Qed.

(** X8: a name that begins with a space gets a label of no line at all,
    whatever follows the space, when the empty text fits. *)
Theorem textLabel_leading_space
  (measureText : Js.number -> string -> Js.number) (d : Node.t)
  (rest : string) :
  NodeData.name (Node.data d) = String " " rest ->
  fits measureText (Node.r d * 1.6)%float (Js.max 8 (Node.r d / 4)) ""
    = true ->
  textLabel (Some measureText) d = Ok (Tspans []).
Proof.
  intros Hname Hempty. unfold textLabel. rewrite Hname.
  change (split " " (String " " rest)) with ("" :: split " " rest).
  destruct (split " " rest) as [|word words] eqn:Hsplit;
    [destruct (split_nonempty _ _ Hsplit)|].
  change (length ("" :: word :: words) =? 1)%nat with false.
  cbv beta iota.
  rewrite placeWords_cons, (processWordForFit_fitting _ _ _ _ _ Hempty).
  reflexivity.
Qed.

Lemma textLabel_leading_space_witness :
  textLabel sampleContext (sampleLeaf " Malta" 40) = Ok (Tspans []).
Proof.
  apply (textLabel_leading_space sampleMeasure (sampleLeaf " Malta" 40)
           "Malta").
  - reflexivity.
  - vm_compute. reflexivity.
Defined.

(** X9: an empty word ends the label without an ellipsis.  A name with two
    spaces after a first word that fits and is shown whole gets that word as
    its only line, whatever follows the two spaces, when the empty text
    fits. *)
Theorem textLabel_double_space
  (measureText : Js.number -> string -> Js.number) (d : Node.t)
  (first rest : string) :
  NodeData.name (Node.data d) = first ++ String " " (String " " rest) ->
  split " " first = [first] -> first <> "" ->
  includes first "..." = false ->
  fits measureText (Node.r d * 1.6)%float (Js.max 8 (Node.r d / 4)) first
    = true ->
  fits measureText (Node.r d * 1.6)%float (Js.max 8 (Node.r d / 4)) ""
    = true ->
  textLabel (Some measureText) d = Ok (Tspans [first]).
Proof.
  intros Hname Hone Hfirst Hdots Hfits Hempty. unfold textLabel.
  rewrite Hname.
  rewrite (split_first_word " " first (String " " rest) Hone).
  change (split " " (String " " rest)) with ("" :: split " " rest).
  change (length (first :: "" :: split " " rest) =? 1)%nat with false.
  cbv beta iota.
  rewrite placeWords_cons, (processWordForFit_fitting _ _ _ _ _ Hfits).
  apply String.eqb_neq in Hfirst. rewrite Hdots, Hfirst.
  change (length [] <? 2)%nat with true. cbv iota. simpl orb. cbv iota.
  rewrite placeWords_cons, (processWordForFit_fitting _ _ _ _ _ Hempty).
  reflexivity.
Qed.

Lemma textLabel_double_space_witness :
  textLabel sampleContext (sampleLeaf "San  Marino" 40) = Ok (Tspans ["San"]).
Proof.
  apply (textLabel_double_space sampleMeasure (sampleLeaf "San  Marino" 40)
           "San" "Marino").
  - reflexivity.
  - reflexivity.
  - discriminate.
  - reflexivity.
  - vm_compute. reflexivity.
  - vm_compute. reflexivity.
Defined.

(** X10: a name of two words that both fit and are shown whole gets a label
    of two lines, the two words as they are. *)
Theorem textLabel_two_words
  (measureText : Js.number -> string -> Js.number) (d : Node.t)
  (first second : string) :
  NodeData.name (Node.data d) = first ++ String " " second ->
  split " " first = [first] -> split " " second = [second] ->
  first <> "" -> second <> "" ->
  includes first "..." = false -> includes second "..." = false ->
  fits measureText (Node.r d * 1.6)%float (Js.max 8 (Node.r d / 4)) first
    = true ->
  fits measureText (Node.r d * 1.6)%float (Js.max 8 (Node.r d / 4)) second
    = true ->
  textLabel (Some measureText) d = Ok (Tspans [first; second]).
Proof.
  intros Hname Hone Htwo Hfirst Hsecond Hdots1 Hdots2 Hfits1 Hfits2.
  unfold textLabel. rewrite Hname.
  rewrite (split_first_word " " first second Hone), Htwo.
  change (length [first; second] =? 1)%nat with false. cbv beta iota.
  rewrite placeWords_cons, (processWordForFit_fitting _ _ _ _ _ Hfits1).
  apply String.eqb_neq in Hfirst, Hsecond. rewrite Hdots1, Hfirst.
  change (length [] <? 2)%nat with true. cbv iota. simpl orb. cbv iota.
  rewrite placeWords_cons, (processWordForFit_fitting _ _ _ _ _ Hfits2).
  rewrite Hdots2, Hsecond. reflexivity.
Qed.

Lemma textLabel_two_words_witness :
  textLabel sampleContext (sampleLeaf "San Marino" 44)
    = Ok (Tspans ["San"; "Marino"]).
Proof.
  apply (textLabel_two_words sampleMeasure (sampleLeaf "San Marino" 44)
           "San" "Marino").
  - reflexivity.
  - reflexivity.
  - reflexivity.
  - discriminate.
  - discriminate.
  - reflexivity.
  - reflexivity.
  - vm_compute. reflexivity.
  - vm_compute. reflexivity.
Defined.

End LabelFacts.

(** ** Drawing and hovering *)

Module ChartFacts.
Import Js JsFacts TextFitter FitterFacts LabelFacts Layout Further NumberFacts.

(** *** Labels with a context *)

Section WithMeasure.

Variable measureText : Js.number -> string -> Js.number.

Lemma placeWords_returns (words : list string)
  (maxWidth fontSize radius : Js.number) :
  forall lines,
    exists placed,
      placeWords (Some measureText) words maxWidth fontSize radius lines
        = Ok placed.
Proof.
  induction words as [|word rest IH]; intros lines; [eexists; reflexivity|].
  rewrite placeWords_cons. destruct (length lines <? 2)%nat; [|eauto].
  destruct (processWordForFit_returns measureText maxWidth fontSize radius word
              false) as [processedWord ->].
  destruct (includes processedWord "..." || String.eqb processedWord "");
    [|apply IH].
  destruct (String.eqb processedWord ""); eauto.
Qed.

Lemma markLeftOver_returns (words lines : list string)
  (maxWidth fontSize radius : Js.number) :
  exists final,
    markLeftOver (Some measureText) words lines maxWidth fontSize radius
      = Ok final.
Proof.
  unfold markLeftOver.
  destruct ((length lines <? length words)%nat && (length lines =? 2)%nat
            && negb (includes (nth (length lines - 1) lines "") "..."));
    [|eauto].
  result_simpl.
  destruct (measureText fontSize (nth (length lines - 1) lines "" ++ "...")
              <=? maxWidth)%float; [eauto|].
  destruct (processWordForFit_returns measureText maxWidth fontSize radius
              (nth (length lines - 1) lines "") true) as [l Hl].
  change (exists final,
            match processWordForFit (Some measureText)
                    (nth (length lines - 1) lines "") maxWidth fontSize radius
                    true with
            | Ok l => Ok (<[length lines - 1 := l]> lines)
            | Throw e => Throw e
            end = Ok final).
  rewrite Hl. eauto.
Qed.

Lemma textLabel_returns (d : Node.t) :
  exists label, textLabel (Some measureText) d = Ok label.
Proof.
  unfold textLabel.
  destruct (length (split " " (NodeData.name (Node.data d))) =? 1)%nat.
  - destruct (processWordForFit_returns measureText (Node.r d * 1.6)%float
                (Js.max 8 (Node.r d / 4)) (Node.r d)
                (nth 0 (split " " (NodeData.name (Node.data d))) "") false)
      as [s ->].
    eexists. reflexivity.
  - destruct (placeWords_returns (split " " (NodeData.name (Node.data d)))
                (Node.r d * 1.6)%float (Js.max 8 (Node.r d / 4)) (Node.r d) [])
      as [placed ->].
    destruct (markLeftOver_returns (split " " (NodeData.name (Node.data d)))
                placed (Node.r d * 1.6)%float (Js.max 8 (Node.r d / 4))
                (Node.r d)) as [final Hfinal].
    change (exists label,
              Tspans <$> markLeftOver (Some measureText)
                           (split " " (NodeData.name (Node.data d))) placed
                           (Node.r d * 1.6)%float (Js.max 8 (Node.r d / 4))
                           (Node.r d) = Ok label).
    rewrite Hfinal. eexists. reflexivity.
Qed.

End WithMeasure.

(** *** What is drawn *)

Lemma mapM_cons {A B : Type} (f : A -> result B) (a : A) (rest : list A) :
  mapM f (a :: rest) =
  match f a with
  | Ok b => match mapM f rest with
            | Ok bs => Ok (b :: bs)
            | Throw e => Throw e
            end
  | Throw e => Throw e
  end.
Proof.
  simpl. destruct (f a) as [b|e]; [|reflexivity].
  simpl. destruct (mapM f rest); reflexivity.
Qed.

Lemma mapM_returns {A B : Type} (f : A -> result B) (l : list A) :
  (forall a, a ∈ l -> exists b, f a = Ok b) ->
  exists bs,
    mapM f l = Ok bs /\ length bs = length l /\
    forall k a, l !! k = Some a -> exists b, bs !! k = Some b /\ f a = Ok b.
Proof.
  induction l as [|a rest IH]; intros Hall.
  - exists []. split; [reflexivity|]. split; [reflexivity|].
    intros k a Hk. discriminate.
  - destruct (Hall a) as [b Hb]; [left|].
    destruct IH as [bs [Hbs [Hlen Hlookup]]].
    { intros a' Ha'. apply Hall. now right. }
    exists (b :: bs). rewrite mapM_cons, Hb, Hbs.
    split; [reflexivity|]. split; [simpl; lia|].
    intros [|k] a' Hk.
    + injection Hk as <-. exists b. auto.
    + exact (Hlookup k a' Hk).
Qed.

Lemma drawNode_region
  (getContext : option (Js.number -> string -> Js.number))
  (size : Js.number) (d : Node.t) (children : list nat) :
  Node.children d = Some children ->
  Chart.drawNode getContext size d =
  Ok {| Drawn.className := "node region-node";
        Drawn.transform := (Node.x d, Node.y d);
        Drawn.r := Node.r d;
        Drawn.strokeWidth := (Js.max 0.5 (size * 0.001) * 2)%float;
        Drawn.fillOpacity := 0.2%float;
        Drawn.label := None |}.
Proof.
  intros H. unfold Chart.drawNode, Stroke.strokeWidth. rewrite H. reflexivity.
Qed.

Lemma drawNode_leaf
  (getContext : option (Js.number -> string -> Js.number))
  (size : Js.number) (d : Node.t) :
  Node.children d = None ->
  Chart.drawNode getContext size d =
  match textLabel getContext d with
  | Ok label =>
      Ok {| Drawn.className := "node country-node";
            Drawn.transform := (Node.x d, Node.y d);
            Drawn.r := Node.r d;
            Drawn.strokeWidth := Js.max 0.5 (size * 0.001);
            Drawn.fillOpacity := 0.5%float;
            Drawn.label := Some label |}
  | Throw e => Throw e
  end.
Proof.
  intros H. unfold Chart.drawNode, Stroke.strokeWidth. rewrite H.
  destruct (textLabel getContext d); reflexivity.
Qed.

Lemma drawNode_returns (measureText : Js.number -> string -> Js.number)
  (size : Js.number) (d : Node.t) :
  exists g, Chart.drawNode (Some measureText) size d = Ok g.
Proof.
  destruct (Node.children d) as [children|] eqn:H.
  - rewrite (drawNode_region _ size d children H). eauto.
  - rewrite (drawNode_leaf _ size d H).
    destruct (textLabel_returns measureText d) as [label ->]. eauto.
Qed.

Lemma drawNodes_returns (measureText : Js.number -> string -> Js.number)
  (width height : Js.number) (nodes : store) :
  exists drawn,
    Chart.drawNodes (Some measureText) width height nodes = Ok drawn.
Proof.
  destruct (mapM_returns (Chart.drawNode (Some measureText)
                            (Js.min width height)) (drop 1 nodes))
    as [drawn [Hdrawn _]].
  - intros d _. apply drawNode_returns.
  - exists drawn. exact Hdrawn.
Qed.

(** X11: with a 2D context [drawNodes] returns, and it draws every node but
    the first, the root, once and in the order of the nodes: a node with
    children as a region node, twice as thick and without a label, and any
    node without children, whatever its depth, as a country node with its
    label. *)
Theorem drawNodes_draws_all_but_root
  (measureText : Js.number -> string -> Js.number)
  (width height : Js.number) (nodes : store) :
  exists drawn,
    Chart.drawNodes (Some measureText) width height nodes = Ok drawn /\
    length drawn = length nodes - 1 /\
    forall k d, nodes !! S k = Some d ->
      exists g,
        drawn !! k = Some g /\
        Drawn.transform g = (Node.x d, Node.y d) /\
        Drawn.r g = Node.r d /\
        match Node.children d with
        | Some _ =>
            Drawn.className g = "node region-node" /\
            Drawn.strokeWidth g =
              (Js.max 0.5 (Js.min width height * 0.001) * 2)%float /\
            Drawn.fillOpacity g = 0.2%float /\
            Drawn.label g = None
        | None =>
            Drawn.className g = "node country-node" /\
            Drawn.strokeWidth g = Js.max 0.5 (Js.min width height * 0.001) /\
            Drawn.fillOpacity g = 0.5%float /\
            exists label,
              textLabel (Some measureText) d = Ok label /\
              Drawn.label g = Some label
        end.
Proof.
  unfold Chart.drawNodes.
  destruct (mapM_returns (Chart.drawNode (Some measureText)
                            (Js.min width height)) (drop 1 nodes))
    as [drawn [Hdrawn [Hlen Hlookup]]].
  { intros d _. apply drawNode_returns. }
  exists drawn. split; [exact Hdrawn|].
  split; [rewrite Hlen, length_drop; reflexivity|].
  intros k d Hd.
  destruct (Hlookup k d) as [g [Hg Hdraw]].
  { rewrite lookup_drop. exact Hd. }
  exists g. split; [exact Hg|].
  destruct (Node.children d) as [children|] eqn:Hchildren.
  - rewrite (drawNode_region _ _ d children Hchildren) in Hdraw.
    injection Hdraw as <-. simpl. repeat split; reflexivity.
  - rewrite (drawNode_leaf _ _ d Hchildren) in Hdraw.
    destruct (textLabel (Some measureText) d) as [label|e]; [|discriminate].
    injection Hdraw as <-. simpl. repeat split; try reflexivity.
    exists label. split; reflexivity.
Qed.

(** Without a context, drawing stops at the first node without children. *)
Lemma drawNodes_without_context (width height : Js.number) (nodes : store) :
  if Chart.drawsLeaf nodes
  then Chart.drawNodes None width height nodes
       = Throw (Error "Context could not be created")
  else exists drawn, Chart.drawNodes None width height nodes = Ok drawn.
Proof.
  unfold Chart.drawsLeaf, Chart.drawNodes.
  induction (drop 1 nodes) as [|d rest IH]; [simpl; eauto|].
  rewrite mapM_cons. simpl existsb.
  destruct (Node.children d) as [children|] eqn:Hchildren.
  - rewrite (drawNode_region _ _ d children Hchildren). simpl orb.
    destruct (existsb _ rest).
    + rewrite IH. reflexivity.
    + destruct IH as [drawn ->]. eauto.
  - rewrite (drawNode_leaf _ _ d Hchildren).
    rewrite textLabel_no_context. reflexivity.
Qed.

(** *** Hovering *)

(** X12: hovering a node and leaving it restores what [drawNodes] has set.
    The circle of a node with children is not touched at all; for a node
    without children, the stroke width and the fill opacity are back to the
    drawn ones, and the wiggle ends where the node is, at coordinates that
    are written as the drawn ones are. *)
Theorem hover_restores_drawn
  (getContext : option (Js.number -> string -> Js.number))
  (size : Js.number) (d : Node.t) (g : Drawn.t) :
  Chart.drawNode getContext size d = Ok g ->
  match Node.children d with
  | Some _ =>
      Interactions.mouseover size d g = g /\
      Interactions.mouseout size d g = g
  | None =>
      Drawn.strokeWidth (Interactions.mouseover size d g)
        = (Drawn.strokeWidth g * 3)%float /\
      Drawn.fillOpacity (Interactions.mouseover size d g) = 0.8%float /\
      Interactions.mouseout size d (Interactions.mouseover size d g) =
        {| Drawn.className := Drawn.className g;
           Drawn.transform := ((Node.x d + 0)%float, (Node.y d + 0)%float);
           Drawn.r := Drawn.r g;
           Drawn.strokeWidth := Drawn.strokeWidth g;
           Drawn.fillOpacity := Drawn.fillOpacity g;
           Drawn.label := Drawn.label g |} /\
      sameNumber (Node.x d + 0)%float (fst (Drawn.transform g)) /\
      sameNumber (Node.y d + 0)%float (snd (Drawn.transform g))
  end.
Proof.
  intros Hdraw. unfold Interactions.mouseover, Interactions.mouseout.
  destruct (Node.children d) as [children|] eqn:Hchildren; [auto|].
  rewrite (drawNode_leaf _ _ d Hchildren) in Hdraw.
  destruct (textLabel getContext d) as [label|e]; [|discriminate].
  injection Hdraw as <-. simpl.
  split; [reflexivity|]. split; [reflexivity|]. split; [reflexivity|].
  split; apply add_zero_sameNumber.
Qed.

Lemma hover_restores_drawn_witness :
  Drawn.strokeWidth
    (Interactions.mouseover 480 (sampleLeaf "Norway" 40)
       (Drawn.mk "node country-node" (0%float, 0%float) 40 0.5 0.5 (Some (Text "Norway"))))
    = (0.5 * 3)%float /\
  Interactions.mouseout 480 (sampleLeaf "Norway" 40)
    (Interactions.mouseover 480 (sampleLeaf "Norway" 40)
       (Drawn.mk "node country-node" (0%float, 0%float) 40 0.5 0.5 (Some (Text "Norway"))))
    = Drawn.mk "node country-node" ((0 + 0)%float, (0 + 0)%float) 40 0.5 0.5
        (Some (Text "Norway")).
Proof.
  destruct (hover_restores_drawn sampleContext 480 (sampleLeaf "Norway" 40)
              (Drawn.mk "node country-node" (0%float, 0%float) 40 0.5 0.5
                 (Some (Text "Norway"))))
    as (Hover & _ & Hout & _).
  - vm_compute. reflexivity.
  - split; [exact Hover | exact Hout].
Defined.

(** *** Rendering and resizing *)

Section WithD3.

Variable pack :
  Value.t -> (Value.t -> Value.t) ->
  (option Js.number -> option Js.number -> Js.number) ->
  Js.number * Js.number -> Js.number -> store.
Variable repack : Js.number * Js.number -> Js.number -> store -> store.

Lemma resize_without_group (width height : Js.number) (c : Chart.t) :
  Chart.group c = false \/ Chart.nodes c = [] ->
  Chart.resize repack width height c
    = (Chart.withViewBox width height c, Normal).
Proof.
  intros H. unfold Chart.resize, Chart.withViewBox.
  destruct H as [-> | ->]; [reflexivity|].
  rewrite orb_true_r. reflexivity.
Qed.

End WithD3.

(** X13: with a 2D context, [render] ends as the positioning of the region
    circles of the packed hierarchy ends, and it leaves the nodes as the
    positioning leaves them.  When that returns, the chart has its group
    and the toggle is in the SVG and shows the key of the configuration;
    when it does not, the chart has no group and no toggle is in the SVG,
    and a later [resize] only sets the view box. *)
Theorem render_ends_as_positioning
  (measureText : Js.number -> string -> Js.number)
  (pack :
     Value.t -> (Value.t -> Value.t) ->
     (option Js.number -> option Js.number -> Js.number) ->
     Js.number * Js.number -> Js.number -> store)
  (repack : Js.number * Js.number -> Js.number -> store -> store)
  (data : Value.t) (config : Chart.ChartConfig) (c : Chart.t) :
  let size := Chart.packSize (Chart.width config) (Chart.height config) in
  let padding :=
    Chart.packPadding (Chart.width config) (Chart.height config) in
  let positioned :=
    positionRegionCircles (fst size) (snd size)
      (pack data (Chart.value (Chart.valueKey config)) Chart.byValue size
         padding) in
  let rendered := Chart.render (Some measureText) pack data config c in
  snd rendered = snd positioned /\
  Chart.nodes (fst rendered) = fst positioned /\
  Chart.viewBox (fst rendered) = Some size /\
  match snd positioned with
  | Normal =>
      Chart.group (fst rendered) = true /\
      Chart.shows (Chart.valueKey config) (fst rendered)
  | _ =>
      Chart.group (fst rendered) = false /\
      Chart.noToggle (fst rendered) /\
      forall width height,
        Chart.resize repack width height (fst rendered)
          = (Chart.withViewBox width height (fst rendered), Normal)
  end.
Proof.
  intros size padding positioned rendered.
  unfold rendered, Chart.render.
  change (positionRegionCircles
            (Js.min (Chart.width config) (Chart.height config) * 1.2)%float
            (Js.min (Chart.width config) (Chart.height config) * 0.8)%float
            (pack data (Chart.value (Chart.valueKey config)) Chart.byValue
               ((Js.min (Chart.width config) (Chart.height config) * 1.2)%float,
                (Js.min (Chart.width config) (Chart.height config) * 0.8)%float)
               (Js.max 2
                  (Js.min
                     (Js.min (Chart.width config) (Chart.height config) * 1.2)
                     (Js.min (Chart.width config) (Chart.height config) * 0.8)
                   * 0.01)%float)))
    with positioned.
  assert (Hremoved : forall toggle,
            Chart.remove <$> Chart.toggleGroup c = Some toggle ->
            Chart.Toggle.attached toggle = false).
  { intros toggle H. destruct (Chart.toggleGroup c); [|discriminate].
    injection H as <-. reflexivity. }
  destruct positioned as [nodes [|e|]]; cbn [fst snd].
  - destruct (drawNodes_returns measureText
                (Js.min (Chart.width config) (Chart.height config) * 1.2)%float
                (Js.min (Chart.width config) (Chart.height config) * 0.8)%float
                nodes) as [drawn ->].
    cbn [fst snd]. split; [reflexivity|]. split; [reflexivity|].
    split; [reflexivity|]. split; [reflexivity|].
    unfold Chart.shows, Chart.updateToggleState, Chart.createToggle.
    cbn [Chart.toggleGroup].
    eexists. split; [reflexivity|].
    destruct (Chart.valueKey config); simpl; auto.
  - split; [reflexivity|]. split; [reflexivity|]. split; [reflexivity|].
    split; [reflexivity|]. split; [exact Hremoved|].
    intros width height. apply resize_without_group. now left.
  - split; [reflexivity|]. split; [reflexivity|]. split; [reflexivity|].
    split; [reflexivity|]. split; [exact Hremoved|].
    intros width height. apply resize_without_group. now left.
Qed.

(** X14: without a 2D context, a [render] whose positioning returns ends in
    the error "Context could not be created" as soon as a node without
    children is to be drawn: the chart has its group by then, and no toggle
    is in the SVG. *)
Theorem render_without_context
  (pack :
     Value.t -> (Value.t -> Value.t) ->
     (option Js.number -> option Js.number -> Js.number) ->
     Js.number * Js.number -> Js.number -> store)
  (data : Value.t) (config : Chart.ChartConfig) (c : Chart.t) :
  let size := Chart.packSize (Chart.width config) (Chart.height config) in
  let padding :=
    Chart.packPadding (Chart.width config) (Chart.height config) in
  let positioned :=
    positionRegionCircles (fst size) (snd size)
      (pack data (Chart.value (Chart.valueKey config)) Chart.byValue size
         padding) in
  let rendered := Chart.render None pack data config c in
  snd positioned = Normal ->
  Chart.drawsLeaf (fst positioned) = true ->
  snd rendered = Abrupt (Error "Context could not be created") /\
  Chart.group (fst rendered) = true /\
  Chart.nodes (fst rendered) = fst positioned /\
  Chart.noToggle (fst rendered).
Proof.
  intros size padding positioned rendered Hnormal Hleaf.
  unfold rendered, Chart.render.
  change (positionRegionCircles
            (Js.min (Chart.width config) (Chart.height config) * 1.2)%float
            (Js.min (Chart.width config) (Chart.height config) * 0.8)%float
            (pack data (Chart.value (Chart.valueKey config)) Chart.byValue
               ((Js.min (Chart.width config) (Chart.height config) * 1.2)%float,
                (Js.min (Chart.width config) (Chart.height config) * 0.8)%float)
               (Js.max 2
                  (Js.min
                     (Js.min (Chart.width config) (Chart.height config) * 1.2)
                     (Js.min (Chart.width config) (Chart.height config) * 0.8)
                   * 0.01)%float)))
    with positioned.
  destruct positioned as [nodes completion]. cbn [fst snd] in Hnormal, Hleaf.
  subst completion.
  pose proof (drawNodes_without_context
                (Js.min (Chart.width config) (Chart.height config) * 1.2)%float
                (Js.min (Chart.width config) (Chart.height config) * 0.8)%float
                nodes) as Hdraw.
  rewrite Hleaf in Hdraw. rewrite Hdraw. cbn [fst snd].
  split; [reflexivity|]. split; [reflexivity|]. split; [reflexivity|].
  intros toggle H. cbn [Chart.toggleGroup Chart.clear] in H.
  destruct (Chart.toggleGroup c); [|discriminate].
  injection H as <-. reflexivity.
Qed.

Lemma render_without_context_witness :
  snd (Chart.render None Chart.samplePack Value.Null
         (Chart.mkConfig 600 600 ValueKey.landAreaKM2) Chart.new)
    = Abrupt (Error "Context could not be created") /\
  Chart.group
    (fst (Chart.render None Chart.samplePack Value.Null
            (Chart.mkConfig 600 600 ValueKey.landAreaKM2) Chart.new)) = true /\
  Chart.nodes
    (fst (Chart.render None Chart.samplePack Value.Null
            (Chart.mkConfig 600 600 ValueKey.landAreaKM2) Chart.new))
    = fst (positionRegionCircles (fst (Chart.packSize 600 600))
             (snd (Chart.packSize 600 600)) packedNorth) /\
  Chart.noToggle
    (fst (Chart.render None Chart.samplePack Value.Null
            (Chart.mkConfig 600 600 ValueKey.landAreaKM2) Chart.new)).
Proof.
  apply (render_without_context Chart.samplePack Value.Null
           (Chart.mkConfig 600 600 ValueKey.landAreaKM2) Chart.new).
  - vm_compute. reflexivity.
  - vm_compute. reflexivity.
Defined.

End ChartFacts.

(** ** The component: toggle and resize *)

Module ComponentFacts.
Import Layout Component.

Section WithD3.

Variable getContext : option (Js.number -> string -> Js.number).
Variable pack :
  Value.t -> (Value.t -> Value.t) ->
  (option Js.number -> option Js.number -> Js.number) ->
  Js.number * Js.number -> Js.number -> store.
Variable repack : Js.number * Js.number -> Js.number -> store -> store.

Local Notation "'renderChart''" := (renderChart getContext pack).
Local Notation "'onValueKeyChange''" := (onValueKeyChange getContext pack).
Local Notation "'toggleClicked''" := (toggleClicked getContext pack).
Local Notation "'step''" := (step repack).
Local Notation "'run''" := (run repack).

(** *** The toggle *)

Lemma eqb_other (valueKey : ValueKey.t) :
  ValueKey.eqb valueKey (other valueKey) = false.
Proof. destruct valueKey; reflexivity. Qed.

Lemma renderChart_key (rect : Rect) (c : t) :
  currentValueKey (fst (renderChart' rect c)) = currentValueKey c.
Proof.
  unfold renderChart.
  destruct (chart c) as [ch|]; [|reflexivity].
  destruct (hierarchyData c) as [data|]; [|reflexivity].
  destruct (Chart.render getContext pack data _ ch). reflexivity.
Qed.

(** Whatever the key of the component was, it is the new key afterwards. *)
Lemma onValueKeyChange_key (rect : Rect) (newValueKey : ValueKey.t) (c : t) :
  currentValueKey (fst (onValueKeyChange' rect newValueKey c)) = newValueKey.
Proof.
  unfold onValueKeyChange.
  destruct (ValueKey.eqb (currentValueKey c) newValueKey) eqn:Heq; simpl.
  - destruct (currentValueKey c), newValueKey; try discriminate; reflexivity.
  - rewrite renderChart_key. reflexivity.
Qed.

Lemma toggleClicked_agrees (target : Interactions.ToggleTarget) (rect : Rect)
  (state : ValueKey.t * t) :
  fst state = currentValueKey (snd state) ->
  fst (toggleClicked' target rect state)
    = currentValueKey (snd (toggleClicked' target rect state)).
Proof.
  destruct state as [key c]. simpl. intros Hagree.
  assert (Hhandled :
    forall result,
      result = Interactions.handleToggleClick (onValueKeyChange' rect) key c ->
      fst (let '(newValueKey, (c', _)) := result in (newValueKey, c'))
        = currentValueKey
            (snd (let '(newValueKey, (c', _)) := result in (newValueKey, c')))).
  { intros result ->. unfold Interactions.handleToggleClick.
    pose proof (onValueKeyChange_key rect (other key) c) as Hkey.
    change (match key with
            | ValueKey.population => ValueKey.landAreaKM2
            | ValueKey.landAreaKM2 => ValueKey.population
            end) with (other key).
    destruct (onValueKeyChange' rect (other key) c) as [c' completion].
    simpl in Hkey |- *. symmetry. exact Hkey. }
  unfold toggleClicked, Interactions.toggleClicked.
  destruct target; cbn [fst snd].
  - exact (Hhandled _ eq_refl).
  - destruct (negb (ValueKey.eqb key ValueKey.landAreaKM2));
      [exact (Hhandled _ eq_refl) | exact Hagree].
  - destruct (negb (ValueKey.eqb key ValueKey.population));
      [exact (Hhandled _ eq_refl) | exact Hagree].
Qed.

(** *** The debounced resize *)

Lemma filter_other (handle : nat) :
  List.filter (fun h => negb (h =? handle)%nat) [handle] = [].
Proof. simpl. rewrite Nat.eqb_refl. reflexivity. Qed.

(** After the timer of the component is cleared, no timer is pending. *)
Lemma cleared (world : World) :
  debounced world ->
  pending
    (match debounceTimer (component world) with
     | Some handle =>
         if (handle =? 0)%nat then timers world
         else clearTimeout handle (timers world)
     | None => timers world
     end) = [].
Proof.
  intros [Hnone | [handle [Hone Htimer]]].
  - destruct (debounceTimer (component world)) as [handle|]; [|exact Hnone].
    destruct (handle =? 0)%nat; [exact Hnone|].
    unfold clearTimeout. simpl. rewrite Hnone. reflexivity.
  - rewrite Htimer. change (S handle =? 0)%nat with false. cbv iota.
    unfold clearTimeout. cbn [pending]. rewrite Hone. apply filter_other.
Qed.

Lemma step_debounced (world : World) (event : Event) :
  debounced world ->
  debounced (step' world event) /\
  resizes (step' world event) + length (pending (timers (step' world event)))
    <= resizes world + length (pending (timers world))
       + observations [event].
Proof.
  intros Hd. pose proof (cleared world Hd) as Hcleared.
  destruct event as [|handle rect|]; unfold step.
  - destruct (observing (component world)); [|split; [exact Hd | lia]].
    unfold debounceResize, setTimeout.
    destruct (match debounceTimer (component world) with
              | Some handle =>
                  if (handle =? 0)%nat then timers world
                  else clearTimeout handle (timers world)
              | None => timers world
              end) as [pending0 last] eqn:Htimers.
    cbn [pending] in Hcleared. subst pending0. cbn.
    split; [|unfold observations; simpl; lia].
    right. exists last. split; reflexivity.
  - destruct (bool_decide (handle ∈ pending (timers world))) eqn:Hin;
      [|split; [exact Hd | lia]].
    apply bool_decide_eq_true in Hin.
    destruct Hd as [Hnone | [handle' [Hone Htimer]]].
    { rewrite Hnone in Hin. inversion Hin. }
    rewrite Hone in Hin. apply list_elem_of_singleton in Hin. subst handle.
    cbn [component timers resizes pending]. rewrite Hone, filter_other.
    split; [left; reflexivity|]. simpl. lia.
  - unfold cleanup.
    destruct (match debounceTimer (component world) with
              | Some handle =>
                  if (handle =? 0)%nat then timers world
                  else clearTimeout handle (timers world)
              | None => timers world
              end) as [pending0 last] eqn:Htimers.
    cbn [pending] in Hcleared. subst pending0. cbn.
    split; [left; reflexivity | lia].
Qed.

Lemma observations_app (events events' : list Event) :
  observations (events ++ events') = observations events + observations events'.
Proof. unfold observations. rewrite List.filter_app, length_app. reflexivity. Qed.

Lemma run_debounced (events : list Event) :
  forall world,
    debounced world ->
    debounced (run' world events) /\
    resizes (run' world events) + length (pending (timers (run' world events)))
      <= resizes world + length (pending (timers world)) + observations events.
Proof.
  induction events as [|event rest IH]; intros world Hd.
  - split; [exact Hd | simpl; unfold observations; simpl; lia].
  - destruct (step_debounced world event Hd) as [Hd1 Hle1].
    destruct (IH (step' world event) Hd1) as [Hd2 Hle2].
    split; [exact Hd2|].
    change (event :: rest) with ([event] ++ rest)%list.
    rewrite observations_app.
    change (run' world ([event] ++ rest)%list)
      with (run' (step' world event) rest).
    lia.
Qed.

(** A world in which nothing is pending and nothing is observed. *)
Lemma step_quiet (world : World) (event : Event) :
  pending (timers world) = [] -> observing (component world) = false ->
  pending (timers (step' world event)) = [] /\
  observing (component (step' world event)) = false /\
  resizes (step' world event) = resizes world.
Proof.
  intros Hnone Hoff. destruct event as [|handle rect|]; unfold step.
  - rewrite Hoff. auto.
  - rewrite Hnone. rewrite bool_decide_eq_false_2 by (intros H; inversion H).
    auto.
  - unfold cleanup.
    destruct (debounceTimer (component world)) as [handle|]; cbn.
    + destruct (handle =? 0)%nat; cbn; rewrite ?Hnone; auto.
    + auto.
Qed.

Lemma run_quiet (events : list Event) :
  forall world,
    pending (timers world) = [] -> observing (component world) = false ->
    resizes (run' world events) = resizes world.
Proof.
  induction events as [|event rest IH]; intros world Hnone Hoff; [reflexivity|].
  destruct (step_quiet world event Hnone Hoff) as (Hnone1 & Hoff1 & Hsame).
  change (run' world (event :: rest)) with (run' (step' world event) rest).
  rewrite (IH _ Hnone1 Hoff1). exact Hsame.
Qed.

End WithD3.

(** X16: the key of the interactions and the key of the component, which
    agree at the start, agree after every click on the toggle, on its click
    area or on one of its labels, whether or not the chart can be rendered
    and however the rendering ends. *)
Theorem toggle_keys_agree
  (getContext : option (Js.number -> string -> Js.number))
  (pack :
     Value.t -> (Value.t -> Value.t) ->
     (option Js.number -> option Js.number -> Js.number) ->
     Js.number * Js.number -> Js.number -> store)
  (clicks : list (Interactions.ToggleTarget * Rect))
  (state : ValueKey.t * t) :
  fst state = currentValueKey (snd state) ->
  fst (clicked getContext pack clicks state)
    = currentValueKey (snd (clicked getContext pack clicks state)).
Proof.
  revert state. unfold clicked.
  induction clicks as [|click rest IH]; intros state Hagree; [exact Hagree|].
  simpl. apply IH. now apply toggleClicked_agrees.
Qed.

Lemma toggle_keys_agree_witness :
  fst (clicked TextFitter.sampleContext Chart.samplePack
         [(Interactions.toggleClickArea, mkRect 800 600);
          (Interactions.toggleLabelRight, mkRect 800 600);
          (Interactions.toggleLabelLeft, mkRect 0 0)]
         (Interactions.initialValueKey,
          component (initialised Chart.new Value.Null)))
    = currentValueKey
        (snd (clicked TextFitter.sampleContext Chart.samplePack
                [(Interactions.toggleClickArea, mkRect 800 600);
                 (Interactions.toggleLabelRight, mkRect 800 600);
                 (Interactions.toggleLabelLeft, mkRect 0 0)]
                (Interactions.initialValueKey,
                 component (initialised Chart.new Value.Null)))).
Proof.
  apply (toggle_keys_agree TextFitter.sampleContext Chart.samplePack
           [(Interactions.toggleClickArea, mkRect 800 600);
            (Interactions.toggleLabelRight, mkRect 800 600);
            (Interactions.toggleLabelLeft, mkRect 0 0)]
           (Interactions.initialValueKey,
            component (initialised Chart.new Value.Null))).
  reflexivity.
Defined.

(** X17: when the two keys agree and the component has its chart and its
    data, a click on the click area of the toggle, or on the label of the
    other key, renders the chart once, for the other key and with the
    dimensions of the SVG, where a side of 0 or NaN counts for 600; a click
    on the label of the key in use changes nothing. *)
Theorem toggle_click_renders_other_key
  (getContext : option (Js.number -> string -> Js.number))
  (pack :
     Value.t -> (Value.t -> Value.t) ->
     (option Js.number -> option Js.number -> Js.number) ->
     Js.number * Js.number -> Js.number -> store)
  (rect : Rect) (c : t) (ch : Chart.t) (data : Value.t) :
  chart c = Some ch -> hierarchyData c = Some data ->
  let key := currentValueKey c in
  let rendered :=
    {| chart :=
         Some (fst (Chart.render getContext pack data
                      {| Chart.width := Js.or (width rect) 600;
                         Chart.height := Js.or (height rect) 600;
                         Chart.valueKey := other key |} ch));
       hierarchyData := Some data;
       currentValueKey := other key;
       debounceTimer := debounceTimer c;
       observing := observing c |} in
  toggleClicked getContext pack Interactions.toggleClickArea rect (key, c)
    = (other key, rendered) /\
  toggleClicked getContext pack (labelOf (other key)) rect (key, c)
    = (other key, rendered) /\
  toggleClicked getContext pack (labelOf key) rect (key, c) = (key, c) /\
  Js.truthy (Js.or (width rect) 600) = true /\
  Js.truthy (Js.or (height rect) 600) = true.
Proof.
  intros Hchart Hdata key rendered.
  assert (Hhandled :
    (let '(newValueKey, (c', _)) :=
       Interactions.handleToggleClick (onValueKeyChange getContext pack rect)
         key c in (newValueKey, c')) = (other key, rendered)).
  { unfold Interactions.handleToggleClick, onValueKeyChange.
    change (match key with
            | ValueKey.population => ValueKey.landAreaKM2
            | ValueKey.landAreaKM2 => ValueKey.population
            end) with (other key).
    fold key. rewrite eqb_other. cbn [negb].
    unfold renderChart. cbn [chart hierarchyData currentValueKey].
    rewrite Hchart, Hdata.
    unfold getSvgDimensions. cbn [width height].
    destruct (Chart.render getContext pack data _ ch) as [ch' completion].
    reflexivity. }
  assert (Htruthy : forall a, Js.truthy (Js.or a 600) = true).
  { intros a. unfold Js.or. destruct (Js.truthy a) eqn:Ha; [exact Ha|].
    reflexivity. }
  split; [exact Hhandled|].
  split; [|split; [|split; apply Htruthy]].
  - unfold toggleClicked, Interactions.toggleClicked. cbn [fst snd].
    destruct key; exact Hhandled.
  - unfold toggleClicked, Interactions.toggleClicked. cbn [fst snd].
    destruct key; reflexivity.
Qed.

Lemma toggle_click_renders_other_key_witness :
  toggleClicked TextFitter.sampleContext Chart.samplePack Interactions.toggleClickArea
    (mkRect 0 600)
    (ValueKey.landAreaKM2, component (initialised Chart.new Value.Null))
  = (ValueKey.population,
     {| chart :=
          Some (fst (Chart.render TextFitter.sampleContext Chart.samplePack Value.Null
                       {| Chart.width := Js.or 0 600;
                          Chart.height := Js.or 600 600;
                          Chart.valueKey := ValueKey.population |} Chart.new));
        hierarchyData := Some Value.Null;
        currentValueKey := ValueKey.population;
        debounceTimer := None;
        observing := true |}).
Proof.
  exact (proj1 (toggle_click_renders_other_key TextFitter.sampleContext Chart.samplePack
                  (mkRect 0 600)
                  (component (initialised Chart.new Value.Null))
                  Chart.new Value.Null eq_refl eq_refl)).
Defined.

(** X18: however the calls of the resize observer, the firing of timers
    and the destruction of the component follow one another after the set
    up, at most one resize timer is pending, the one the component holds;
    and the resizes handled so far, together with the one that is pending,
    are never more than the calls of the observer. *)
Theorem resize_is_debounced
  (repack : Js.number * Js.number -> Js.number -> store -> store)
  (ch : Chart.t) (data : Value.t) (events : list Event) :
  debounced (run repack (initialised ch data) events) /\
  resizes (run repack (initialised ch data) events)
  + length (pending (timers (run repack (initialised ch data) events)))
    <= observations events.
Proof.
  destruct (run_debounced repack events (initialised ch data)) as [Hd Hle].
  - left. reflexivity.
  - split; [exact Hd | exact Hle].
Qed.

(** X19: once the component is destroyed no resize is handled any more,
    whatever timers were pending and whatever happens afterwards. *)
Theorem no_resize_after_destroy
  (repack : Js.number * Js.number -> Js.number -> store -> store)
  (ch : Chart.t) (data : Value.t) (before after : list Event) :
  resizes (run repack (initialised ch data) (before ++ destroyed :: after))
    = resizes (run repack (initialised ch data) before).
Proof.
  unfold run. rewrite foldl_app. fold (run repack (initialised ch data) before).
  destruct (run_debounced repack before (initialised ch data)) as [Hd _];
    [left; reflexivity|].
  set (world := run repack (initialised ch data) before) in *.
  change (foldl (step repack) world (destroyed :: after))
    with (run repack (step repack world destroyed) after).
  pose proof (cleared world Hd) as Hcleared.
  rewrite run_quiet.
  - unfold step, cleanup.
    destruct (match debounceTimer (component world) with
              | Some handle =>
                  if (handle =? 0)%nat then timers world
                  else clearTimeout handle (timers world)
              | None => timers world
              end); reflexivity.
  - unfold step, cleanup.
    destruct (match debounceTimer (component world) with
              | Some handle =>
                  if (handle =? 0)%nat then timers world
                  else clearTimeout handle (timers world)
              | None => timers world
              end) as [pending0 last] eqn:Htimers.
    cbn [pending] in Hcleared. exact Hcleared.
  - unfold step, cleanup.
    destruct (match debounceTimer (component world) with
              | Some handle =>
                  if (handle =? 0)%nat then timers world
                  else clearTimeout handle (timers world)
              | None => timers world
              end); reflexivity.
Qed.

End ComponentFacts.

(** ** From the raw data to the chart and the drawer *)

Module DataFacts.
Import ProcessData.

Section Drawer.

Variable toLocaleString : Value.t -> string.
Variable otherToString : Value.t -> string.

Local Notation "'populateDrawerContent''" :=
  (Drawer.populateDrawerContent toLocaleString otherToString).

(** X21: for the country that [transformData] makes of a raw country, a
    click opens the drawer exactly when the raw country has a truthy
    "country", which is the header of the drawer.  The drawer shows the
    flag and the link exactly when the raw "flag" and "wikipedia" are
    truthy.  The info container holds the row "Area: " with the raw
    "land_area_km2" exactly when that is truthy, and after it the row
    "Population: " with the raw "population" exactly when that is truthy,
    and no other row; 0 is not truthy, so that a population of 0 has no
    row.  The alternative text of every flag is "undefined flag". *)
Theorem drawer_of_raw_country (country : gmap string Value.t) :
  Interactions.countryClicked (transformCountry country)
    = Value.truthy (read country "country") /\
  Value.truthy (Value.Num 0) = false /\
  exists header info rest,
    populateDrawerContent' (transformCountry country)
      = Ok (header :: rest) /\
    header = Drawer.element "h2" [] [] (Some (read country "country")) [] /\
    Drawer.tagOf <$> rest =
      ((if Value.truthy (read country "flag") then ["img"] else [])
       ++ "div"
       :: (if Value.truthy (read country "wikipedia") then ["a"] else []))%list
    /\
    info ∈ rest /\
    Drawer.attrsOf info = [("class", Value.Str "info-container")] /\
    (fun row => Drawer.textOf <$> Drawer.childrenOf row)
      <$> Drawer.childrenOf info =
      ((if Value.truthy (read country "land_area_km2") then
          [[Some (Value.Str "Area: ");
            Some (Value.Str
                    (toLocaleString (read country "land_area_km2")
                     ++ " kmÂ²"))]]
        else [])
       ++ (if Value.truthy (read country "population") then
             [[Some (Value.Str "Population: ");
               Some (Value.Str
                       (toLocaleString (read country "population")))]]
           else []))%list /\
    forall image, image ∈ rest -> Drawer.tagOf image = "img" ->
      Drawer.attrsOf image =
        [("src", read country "flag");
         ("alt", Value.Str "undefined flag")].
Proof.
  split; [|split; [reflexivity|]].
  - unfold Interactions.countryClicked, transformCountry. simpl.
    unfold Value.or. simpl. reflexivity.
  - unfold Drawer.populateDrawerContent, transformCountry.
    cbn [Value.get Value.lookup String.eqb Ascii.eqb Bool.eqb Value.toString].
    set (flag := read country "flag").
    set (area := read country "land_area_km2").
    set (population := read country "population").
    set (wikipedia := read country "wikipedia").
    eexists _, _, _. split; [reflexivity|]. split; [reflexivity|].
    split.
    { rewrite fmap_app, fmap_cons.
      destruct (Value.truthy flag), (Value.truthy wikipedia); reflexivity. }
    split; [apply elem_of_app; right; left|].
    split; [reflexivity|].
    split.
    { cbn [Drawer.childrenOf]. rewrite fmap_app.
      destruct (Value.truthy area), (Value.truthy population); reflexivity. }
    intros image Hin Htag.
    apply elem_of_app in Hin as [Hin | Hin].
    + destruct (Value.truthy flag); [|inversion Hin].
      apply list_elem_of_singleton in Hin. subst image. reflexivity.
    + apply elem_of_cons in Hin as [-> | Hin]; [discriminate|].
      destruct (Value.truthy wikipedia); [|inversion Hin].
      apply list_elem_of_singleton in Hin. subst image. discriminate.
Qed.

End Drawer.

End DataFacts.
